(** * Shortest-path and traversal engine of GoIT-Algo-Homework

    A shallow embedding of

    - [Final Project Algo/task_3.py]: class [Graph] (adjacency list),
      [dijkstra_heap] (binary heap with lazy deletion), [reconstruct_path];
    - [goit-algo-hw-06/task2.py]: [dfs_path], [bfs_path] and
      [compare_algorithms] over a NetworkX graph;
    - [goit-algo-hw-06/task3.py]: [find_all_shortest_paths],
      [create_distance_matrix], the extreme routes of
      [analyze_shortest_paths], [bfs_path] and [compare_dijkstra_bfs];

    and the properties of these functions.

    Conventions of the embedding.

    - Vertices are Python strings, here [string]; Python compares [str] by
      code point, which on UTF-8 encoded text is the byte-wise order of
      [String.ltb].
    - Edge weights and distances are integers ([Z]); [float('inf')] is the
      constructor [Inf] of [Dist].
    - A cell of the distance matrix holds a float64: an integer assigned to
      it is rounded as [float(n)] rounds it ([float64] below), and the value
      of the result, an integer again, is kept as a [Z].
    - A Python [dict] is a [gmap]; a missing key raises [KeyError].
    - [while] loops take a fuel argument; [None] means that the fuel ran out,
      [Some (Raise e)] that the Python code raised, [Some (Ret v)] that it
      returned [v]. *)

From Stdlib Require Import ZArith String List Lia.
From Stdlib Require OrderedTypeEx.
From stdpp Require Import gmap strings list fin_maps.

Local Open Scope Z_scope.

(** ** Exceptions and results *)

Inductive exn : Type :=
| KeyError (k : string)         (* dict[k] on a missing key *)
| NetworkXError (n : string)    (* graph.neighbors(n) on a missing node *)
| NodeNotFound (n : string)     (* a NetworkX algorithm on a missing source *)
| ValueError                    (* NetworkX Dijkstra on inconsistent paths *)
| IndexError                    (* path[-1] on an empty list *)
| OverflowError.                (* an integer too large for a float64 *)

Inductive result (A : Type) : Type :=
| Ret (a : A)
| Raise (e : exn).

Arguments Ret {A} a.
Arguments Raise {A} e.

(** A [for] loop whose body may raise: the loop stops at the first error. *)
Fixpoint for_each {A S : Type} (body : S → A → result S) (l : list A) (s : S)
  : result S :=
  match l with
  | [] => Ret s
  | x :: rest =>
      match body s x with
      | Ret s' => for_each body rest s'
      | Raise e => Raise e
      end
  end.

(** ** Distances: integers and [float('inf')] *)

Inductive Dist : Type :=
| Fin (d : Z)
| Inf.

(** Python's [a < b] on numbers where either side may be [float('inf')]. *)
Definition Dist_ltb (a b : Dist) : bool :=
  match a, b with
  | Fin x, Fin y => x <? y
  | Fin _, Inf => true
  | Inf, _ => false
  end.

Definition Dist_le (a b : Dist) : Prop :=
  match a, b with
  | Fin x, Fin y => x ≤ y
  | _, Inf => True
  | Inf, Fin _ => False
  end.

(** ** The graph store ([Final Project Algo/task_3.py], class [Graph]) *)

Record Graph : Type := mkGraph {
  adjacency_list : gmap string (list (string * Z))
}.

(** [Graph()] *)
Definition Graph_init : Graph := mkGraph ∅.

(** [d.setdefault(k, [])], for its effect on [d]. *)
Definition setdefault (k : string) (d : gmap string (list (string * Z)))
  : gmap string (list (string * Z)) :=
  match d !! k with
  | Some _ => d
  | None => <[k := []]> d
  end.

(** [d.setdefault(k, []).append(e)] *)
Definition setdefault_append (k : string) (e : string * Z)
    (d : gmap string (list (string * Z))) : gmap string (list (string * Z)) :=
  <[k := default [] (d !! k) ++ [e]]> d.

Definition add_edge (u v : string) (w : Z) (undirected : bool) (g : Graph)
  : Graph :=
  let a := setdefault_append u (v, w) (adjacency_list g) in
  if undirected
  then mkGraph (setdefault_append v (u, w) a)
  else mkGraph (setdefault v a).

(** [list(self.adjacency_list.keys())].  Python lists the keys in insertion
    order; the callers only build dictionaries from the list, so the order is
    immaterial. *)
Definition vertices (g : Graph) : list string :=
  elements (dom (adjacency_list g)).

(** One call [g.add_edge(u, v, w, undirected)]. *)
Record edge_call : Type := EdgeCall {
  call_u : string;
  call_v : string;
  call_w : Z;
  call_undirected : bool
}.

Definition apply_call (g : Graph) (c : edge_call) : Graph :=
  add_edge (call_u c) (call_v c) (call_w c) (call_undirected c) g.

(** The graph obtained from [Graph()] by a sequence of [add_edge] calls. *)
Definition build_graph (calls : list edge_call) : Graph :=
  foldl apply_call Graph_init calls.

(** The adjacency list of [x], empty when [x] has no entry. *)
Definition edges_of (g : Graph) (x : string) : list (string * Z) :=
  default [] (adjacency_list g !! x).

Definition occurrences (e : string * Z) (l : list (string * Z)) : nat :=
  length (filter (λ e', e' = e) l).

(** A vertex that no call uses as a source, and no undirected call as a
    target, never receives an edge. *)
Definition only_directed_target (calls : list edge_call) (x : string) : Prop :=
  ∀ c, c ∈ calls →
    call_u c ≠ x ∧ (call_undirected c = true → call_v c ≠ x).

(** ** The priority queue ([heapq] on a list of [(distance, vertex)] tuples)

    [heapq] is modelled by its contract: [heappop] removes and returns the
    smallest tuple of the heap, tuples being compared lexicographically
    (distance first, then vertex name).  The heap is kept as the list of
    its entries; the popped tuple does not depend on how they are arranged. *)

Definition entry_ltb (a b : Z * string) : bool :=
  (a.1 <? b.1) || ((a.1 =? b.1) && String.ltb a.2 b.2).

Fixpoint heap_min (best : Z * string) (h : list (Z * string)) : Z * string :=
  match h with
  | [] => best
  | x :: rest => heap_min (if entry_ltb x best then x else best) rest
  end.

Fixpoint remove_one (x : Z * string) (h : list (Z * string))
  : list (Z * string) :=
  match h with
  | [] => []
  | y :: rest => if decide (y = x) then rest else y :: remove_one x rest
  end.

Definition heappush (h : list (Z * string)) (x : Z * string)
  : list (Z * string) := x :: h.

Definition heappop (h : list (Z * string))
  : option ((Z * string) * list (Z * string)) :=
  match h with
  | [] => None
  | x :: rest => let m := heap_min x rest in Some (m, remove_one m h)
  end.

(** ** [dijkstra_heap] ([Final Project Algo/task_3.py]) *)

Record dstate : Type := mkDstate {
  dist : gmap string Dist;
  prev : gmap string (option string);
  heap : list (Z * string)
}.

(** Lines 40-45: the dictionaries and the heap before the main loop. *)
Definition dijkstra_init (g : Graph) (start : string) : dstate :=
  {| dist := <[start := Fin 0]> (list_to_map ((λ v, (v, Inf)) <$> vertices g));
     prev := list_to_map ((λ v, (v, None)) <$> vertices g);
     heap := [(0, start)] |}.

(** Lines 57-62: the body of [for v, weight in graph.adjacency_list[u]]. *)
Definition relax (u : string) (current_dist : Z) (st : dstate)
    (e : string * Z) : result dstate :=
  let '(v, weight) := e in
  let distance_through_u := current_dist + weight in
  match dist st !! v with
  | None => Raise (KeyError v)
  | Some dv =>
      if Dist_ltb (Fin distance_through_u) dv
      then Ret {| dist := <[v := Fin distance_through_u]> (dist st);
                  prev := <[v := Some u]> (prev st);
                  heap := heappush (heap st) (distance_through_u, v) |}
      else Ret st
  end.

(** Lines 49-62: one iteration of [while heap], the heap being non-empty. *)
Definition dijkstra_step (g : Graph) (st : dstate) (current_dist : Z)
    (u : string) (h : list (Z * string)) : result dstate :=
  let st1 := {| dist := dist st; prev := prev st; heap := h |} in
  match dist st !! u with
  | None => Raise (KeyError u)
  | Some du =>
      if Dist_ltb du (Fin current_dist)
      then Ret st1                                   (* continue *)
      else
        match adjacency_list g !! u with
        | None => Raise (KeyError u)
        | Some es => for_each (relax u current_dist) es st1
        end
  end.

(** Lines 48-62: the main loop. *)
Fixpoint dijkstra_loop (fuel : nat) (g : Graph) (st : dstate)
  : option (result dstate) :=
  match fuel with
  | O => None
  | S fuel' =>
      match heappop (heap st) with
      | None => Some (Ret st)
      | Some ((current_dist, u), h) =>
          match dijkstra_step g st current_dist u h with
          | Raise e => Some (Raise e)
          | Ret st' => dijkstra_loop fuel' g st'
          end
      end
  end.

Definition dijkstra_heap (fuel : nat) (g : Graph) (start : string)
  : option (result (gmap string Dist * gmap string (option string))) :=
  match dijkstra_loop fuel g (dijkstra_init g start) with
  | None => None
  | Some (Raise e) => Some (Raise e)
  | Some (Ret st) => Some (Ret (dist st, prev st))
  end.

(** Iterations of the main loop that always suffice on a graph with
    non-negative weights: one per heap entry, and every entry but the first
    is pushed while an edge is relaxed. *)
Definition edge_count (g : Graph) : nat :=
  sum_list_with (λ x, length (edges_of g x)) (vertices g).

Definition dijkstra_fuel (g : Graph) : nat := S (S (edge_count g)).

(** ** [reconstruct_path] ([Final Project Algo/task_3.py]) *)

(** Lines 72-74: [while cur is not None: path.append(cur); cur = prev[cur]]. *)
Fixpoint walk_back (fuel : nat) (prev : gmap string (option string))
    (cur : option string) (path : list string) : option (result (list string)) :=
  match cur with
  | None => Some (Ret path)
  | Some c =>
      match fuel with
      | O => None
      | S fuel' =>
          match prev !! c with
          | None => Some (Raise (KeyError c))
          | Some p => walk_back fuel' prev p (path ++ [c])
          end
      end
  end.

Definition reconstruct_path (fuel : nat) (prev : gmap string (option string))
    (start target : string) : option (result (option (list string))) :=
  match prev !! target with
  | None => Some (Raise (KeyError target))
  | Some p =>
      if bool_decide (p = None) && negb (bool_decide (start = target))
      then Some (Ret None)
      else
        match walk_back fuel prev (Some target) [] with
        | None => None
        | Some (Raise e) => Some (Raise e)
        | Some (Ret path) => Some (Ret (Some (reverse path)))
        end
  end.

(** [build_sample_graph()] of [task_3.py]. *)
Definition build_sample_graph : Graph :=
  build_graph
    [ EdgeCall "A" "B" 10 true; EdgeCall "B" "C" 15 true;
      EdgeCall "A" "D" 5 true; EdgeCall "A" "E" 7 true;
      EdgeCall "B" "E" 12 true; EdgeCall "B" "F" 8 true;
      EdgeCall "C" "F" 4 true; EdgeCall "C" "G" 2 true;
      EdgeCall "D" "H" 3 true; EdgeCall "E" "F" 6 true;
      EdgeCall "E" "H" 9 true; EdgeCall "F" "G" 1 true;
      EdgeCall "F" "I" 11 true; EdgeCall "G" "J" 7 true;
      EdgeCall "H" "I" 9 true; EdgeCall "I" "J" 5 true ].

(** ** NetworkX graphs ([goit-algo-hw-06])

    [nx.Graph] keeps a dictionary of dictionaries: node, then neighbour, then
    the attributes of the edge; the one numeric attribute the sources use
    ([time] in [task2.py], [weight] in [task3.py]) stands for them.  Node
    attributes ([line], [district]) are never read by the algorithms. *)

Abbreviation nxGraph := (gmap string (gmap string Z)) (only parsing).

(** [G.add_node(n, **attrs)] *)
Definition nx_add_node (n : string) (G : nxGraph) : nxGraph :=
  match G !! n with
  | Some _ => G
  | None => <[n := ∅]> G
  end.

(** [G.add_edge(u, v, weight=w)]: both nodes are added when missing, and
    the edge is stored in both directions. *)
Definition nx_add_edge (u v : string) (w : Z) (G : nxGraph) : nxGraph :=
  let G1 := nx_add_node v (nx_add_node u G) in
  let G2 := <[u := <[v := w]> (default ∅ (G1 !! u))]> G1 in
  <[v := <[u := w]> (default ∅ (G2 !! v))]> G2.

Inductive nx_op : Type :=
| AddNode (n : string)
| AddEdge (u v : string) (w : Z).

Definition nx_apply (G : nxGraph) (op : nx_op) : nxGraph :=
  match op with
  | AddNode n => nx_add_node n G
  | AddEdge u v w => nx_add_edge u v w G
  end.

(** The graph obtained from [nx.Graph()] by a sequence of calls. *)
Definition nx_build (ops : list nx_op) : nxGraph :=
  foldl nx_apply ∅ ops.

(** [list(graph.nodes())].  NetworkX lists the nodes in insertion order, this
    list has them in the order of the keys of the map: the loops over it
    visit the same nodes in another order.  Which of several missing keys a
    [KeyError] names and which of several equal extremes is kept depend on
    that order; no statement below says which. *)
Definition nx_nodes (G : nxGraph) : list string := elements (dom G).

(** [list(graph.neighbors(n))]; NetworkX raises [NetworkXError] when [n] is
    not a node.  The order of the list is immaterial: every caller sorts it. *)
Definition neighbors (G : nxGraph) (n : string) : result (list string) :=
  match G !! n with
  | Some m => Ret (elements (dom m))
  | None => Raise (NetworkXError n)
  end.

(** [sorted(l)] on a list of strings. *)
Fixpoint insert_sorted (x : string) (l : list string) : list string :=
  match l with
  | [] => [x]
  | y :: rest =>
      if String.ltb x y then x :: l else y :: insert_sorted x rest
  end.

Definition sorted (l : list string) : list string := foldr insert_sorted [] l.

(** ** [bfs_path] ([goit-algo-hw-06/task2.py])

    [dequeued] is not a variable of the source: it records [node] at every
    [queue.popleft()], so that the visit order can be compared with it. *)

Record bfs_state : Type := mkBfs {
  bfs_visited : gset string;
  bfs_queue : list (list string);
  bfs_visited_order : list string
}.

(** Lines 136-141: the body of [for neighbor in neighbors]. *)
Definition bfs_neighbor (path : list string) (st : bfs_state)
    (neighbor : string) : bfs_state :=
  if decide (neighbor ∈ bfs_visited st) then st
  else {| bfs_visited := bfs_visited st ∪ {[neighbor]};
          bfs_queue := bfs_queue st ++ [path ++ [neighbor]];
          bfs_visited_order := bfs_visited_order st ++ [neighbor] |}.

(** Lines 125-143: the main loop. *)
Fixpoint bfs_loop (fuel : nat) (graph : nxGraph) (goal : string)
    (st : bfs_state) (dequeued : list string)
  : option (result (option (list string) * list string * list string)) :=
  match fuel with
  | O => None
  | S fuel' =>
      match bfs_queue st with
      | [] => Some (Ret (None, bfs_visited_order st, dequeued))
      | path :: rest =>
          match last path with
          | None => Some (Raise IndexError)
          | Some node =>
              if decide (node = goal)
              then Some (Ret (Some path, bfs_visited_order st,
                              dequeued ++ [node]))
              else
                match neighbors graph node with
                | Raise e => Some (Raise e)
                | Ret ns =>
                    bfs_loop fuel' graph goal
                      (foldl (bfs_neighbor path)
                         {| bfs_visited := bfs_visited st;
                            bfs_queue := rest;
                            bfs_visited_order := bfs_visited_order st |}
                         (sorted ns))
                      (dequeued ++ [node])
                end
          end
      end
  end.

(** Lines 121-123: the state before the loop. *)
Definition bfs_init (start : string) : bfs_state :=
  {| bfs_visited := {[start]};
     bfs_queue := [[start]];
     bfs_visited_order := [start] |}.

(** [bfs_path] together with the record of the dequeued nodes. *)
Definition bfs_path_traced (fuel : nat) (graph : nxGraph) (start goal : string)
  : option (result (option (list string) * list string * list string)) :=
  bfs_loop fuel graph goal (bfs_init start) [].

Definition bfs_path (fuel : nat) (graph : nxGraph) (start goal : string)
  : option (result (option (list string) * list string)) :=
  match bfs_path_traced fuel graph start goal with
  | None => None
  | Some (Raise e) => Some (Raise e)
  | Some (Ret (path, visited_order, _)) => Some (Ret (path, visited_order))
  end.

(** [bfs_path] with its queue on record.  [enqueued] is not a variable of
    the source: it lists the paths put on the queue, in that order, the path
    [[start]] of line 122 and then every [new_path] of line 141.  The last
    component is the queue as it is when the function returns. *)
Record bfs_record : Type := mkBfsRecord {
  rec_path : option (list string);
  rec_visited_order : list string;
  rec_dequeued : list string;
  rec_enqueued : list (list string);
  rec_queue : list (list string)
}.

Definition bfs_neighbor_queue (path : list string)
    (acc : bfs_state * list (list string)) (neighbor : string)
  : bfs_state * list (list string) :=
  if decide (neighbor ∈ bfs_visited acc.1) then acc
  else (bfs_neighbor path acc.1 neighbor, acc.2 ++ [path ++ [neighbor]]).

Fixpoint bfs_loop_queue (fuel : nat) (graph : nxGraph) (goal : string)
    (st : bfs_state) (dequeued : list string) (enqueued : list (list string))
  : option (result bfs_record) :=
  match fuel with
  | O => None
  | S fuel' =>
      match bfs_queue st with
      | [] => Some (Ret (mkBfsRecord None (bfs_visited_order st) dequeued
                           enqueued []))
      | path :: rest =>
          match last path with
          | None => Some (Raise IndexError)
          | Some node =>
              if decide (node = goal)
              then Some (Ret (mkBfsRecord (Some path) (bfs_visited_order st)
                                (dequeued ++ [node]) enqueued rest))
              else
                match neighbors graph node with
                | Raise e => Some (Raise e)
                | Ret ns =>
                    let acc :=
                      foldl (bfs_neighbor_queue path)
                        ({| bfs_visited := bfs_visited st;
                            bfs_queue := rest;
                            bfs_visited_order := bfs_visited_order st |},
                         enqueued)
                        (sorted ns) in
                    bfs_loop_queue fuel' graph goal acc.1
                      (dequeued ++ [node]) acc.2
                end
          end
      end
  end.

Definition bfs_path_queue (fuel : nat) (graph : nxGraph) (start goal : string)
  : option (result bfs_record) :=
  bfs_loop_queue fuel graph goal (bfs_init start) [] [[start]].

(** Iterations that always suffice: every node is enqueued at most once. *)
Definition bfs_fuel (G : nxGraph) : nat := S (S (size (dom G))).

(** ** [dfs_path] ([goit-algo-hw-06/task2.py])

    The Python list used as a stack is kept with its top first:
    [stack.pop()] takes the head and [stack.append(p)] conses.  [popped]
    records [node] at every [stack.pop()]. *)

Record dfs_state : Type := mkDfs {
  dfs_visited : gset string;
  dfs_stack : list (list string);
  dfs_visited_order : list string
}.

(** Lines 100-103: the body of [for neighbor in neighbors]. *)
Definition dfs_neighbor (path : list string) (visited : gset string)
    (stack : list (list string)) (neighbor : string) : list (list string) :=
  if decide (neighbor ∈ visited) then stack
  else (path ++ [neighbor]) :: stack.

(** Lines 85-105: the main loop. *)
Fixpoint dfs_loop (fuel : nat) (graph : nxGraph) (goal : string)
    (st : dfs_state) (popped : list string)
  : option (result (option (list string) * list string * list string)) :=
  match fuel with
  | O => None
  | S fuel' =>
      match dfs_stack st with
      | [] => Some (Ret (None, dfs_visited_order st, popped))
      | path :: rest =>
          match last path with
          | None => Some (Raise IndexError)
          | Some node =>
              if decide (node ∈ dfs_visited st)
              then dfs_loop fuel' graph goal
                     {| dfs_visited := dfs_visited st;
                        dfs_stack := rest;
                        dfs_visited_order := dfs_visited_order st |}
                     (popped ++ [node])
              else
                let visited := dfs_visited st ∪ {[node]} in
                let visited_order := dfs_visited_order st ++ [node] in
                if decide (node = goal)
                then Some (Ret (Some path, visited_order, popped ++ [node]))
                else
                  match neighbors graph node with
                  | Raise e => Some (Raise e)
                  | Ret ns =>
                      dfs_loop fuel' graph goal
                        {| dfs_visited := visited;
                           dfs_stack :=
                             foldl (dfs_neighbor path visited) rest
                               (reverse (sorted ns));
                           dfs_visited_order := visited_order |}
                        (popped ++ [node])
                  end
          end
      end
  end.

Definition dfs_init (start : string) : dfs_state :=
  {| dfs_visited := ∅; dfs_stack := [[start]]; dfs_visited_order := [] |}.

Definition dfs_path_traced (fuel : nat) (graph : nxGraph) (start goal : string)
  : option (result (option (list string) * list string * list string)) :=
  dfs_loop fuel graph goal (dfs_init start) [].

Definition dfs_path (fuel : nat) (graph : nxGraph) (start goal : string)
  : option (result (option (list string) * list string)) :=
  match dfs_path_traced fuel graph start goal with
  | None => None
  | Some (Raise e) => Some (Raise e)
  | Some (Ret (path, visited_order, _)) => Some (Ret (path, visited_order))
  end.

(** Iterations that always suffice: a path is pushed for an edge out of a
    node that is being visited, and a node is visited once. *)
Definition degree (G : nxGraph) (n : string) : nat :=
  size (dom (default ∅ (G !! n))).

Definition dfs_fuel (G : nxGraph) : nat :=
  S (S (sum_list_with (degree G) (nx_nodes G))).

(** ** All-pairs distances ([goit-algo-hw-06/task3.py]) *)

(** The adjacency of a NetworkX graph read as a [Graph]: the list of
    [(neighbour, weight)] pairs of every node. *)
Definition nx_to_Graph (G : nxGraph) : Graph :=
  mkGraph (map_to_list <$> G).

Definition finite_lengths (dist : gmap string Dist) : gmap string Z :=
  omap (λ d, match d with Fin z => Some z | Inf => None end) dist.

(** [nx.single_source_dijkstra_path_length(graph, source, weight='weight')].
    NetworkX is not part of the repository; the function is modelled by its
    contract: it returns the dictionary of the shortest weighted distances
    to the nodes reachable from [source], and only to those (an unreachable
    node has no key), and raises [NodeNotFound] when [source] is not a node.
    The distances are computed here with the embedding of [dijkstra_heap];
    [single_source_lengths_spec] below proves the contract for graphs with
    non-negative weights. *)
Definition single_source_dijkstra_path_length (G : nxGraph) (source : string)
  : result (gmap string Z) :=
  match G !! source with
  | None => Raise (NodeNotFound source)
  | Some _ =>
      match dijkstra_heap (dijkstra_fuel (nx_to_Graph G)) (nx_to_Graph G)
              source with
      | Some (Ret (dist, _)) => Ret (finite_lengths dist)
      | Some (Raise e) => Raise e
      | None => Raise ValueError
      end
  end.

(** [find_all_shortest_paths], its second component [all_lengths]; the
    dictionary of paths is not used by [create_distance_matrix]. *)
Definition find_all_shortest_paths (graph : nxGraph)
  : result (gmap string (gmap string Z)) :=
  for_each
    (λ all_lengths source,
       match single_source_dijkstra_path_length graph source with
       | Ret lengths => Ret (<[source := lengths]> all_lengths)
       | Raise e => Raise e
       end)
    (nx_nodes graph) ∅.

(** ** [float64]: what a [DataFrame] of [dtype=float] stores

    [create_distance_matrix] assigns Python integers to the cells of a
    [DataFrame] of [dtype=float], which converts them as [float(n)] does:
    the integer keeps its 53 leading bits, rounded to the nearest value and
    to the even one on a tie, and the conversion raises [OverflowError] when
    the result is beyond the largest float64.  A float64 that comes from an
    integer is an integer again, so its value is kept as a [Z]. *)

(** [n], non-negative, without its [k] low bits, rounded half to even. *)
Definition round_half_even (n k : Z) : Z :=
  let q := n / 2 ^ k in
  let r := n mod 2 ^ k in
  let half := 2 ^ (k - 1) in
  if (half <? r) || ((r =? half) && Z.odd q) then (q + 1) * 2 ^ k
  else q * 2 ^ k.

Definition float64_of_nonneg (n : Z) : Z :=
  let k := Z.log2 n - 52 in
  if 0 <? k then round_half_even n k else n.

(** The largest float64, [(2 - 2^-52) * 2^1023]. *)
Definition float64_max : Z := 2 ^ 1024 - 2 ^ 971.

Definition float64 (n : Z) : result Z :=
  let f := float64_of_nonneg (Z.abs n) in
  if f <=? float64_max then Ret (Z.sgn n * f) else Raise OverflowError.

(** A cell of a [DataFrame] of [dtype=float]: [NaN], or the value of a
    float64. *)
Inductive cell : Type :=
| NaN
| Val (d : Dist).

(** [pd.DataFrame(index=nodes, columns=nodes, dtype=float)]: every cell
    holds [NaN]. *)
Definition DataFrame_new (index columns : list string)
  : gmap (string * string) cell :=
  list_to_map (i ← index; (λ c, ((i, c), NaN)) <$> columns).

(** Lines 152-155: the body of the inner loop of [create_distance_matrix].
    The cell takes the float64 of the integer assigned to it; [0] is [0.0]. *)
Definition fill_cell (all_lengths : gmap string (gmap string Z))
    (source : string) (distance_matrix : gmap (string * string) cell)
    (target : string) : result (gmap (string * string) cell) :=
  if decide (source = target)
  then Ret (<[(source, target) := Val (Fin 0)]> distance_matrix)
  else
    match all_lengths !! source with
    | None => Raise (KeyError source)
    | Some lengths =>
        match lengths !! target with
        | None => Raise (KeyError target)
        | Some d =>
            match float64 d with
            | Ret f => Ret (<[(source, target) := Val (Fin f)]> distance_matrix)
            | Raise e => Raise e
            end
        end
    end.

Definition create_distance_matrix (graph : nxGraph)
    (all_lengths : gmap string (gmap string Z))
  : result (gmap (string * string) cell) :=
  let nodes := nx_nodes graph in
  for_each
    (λ distance_matrix source,
       for_each (fill_cell all_lengths source) nodes distance_matrix)
    nodes (DataFrame_new nodes nodes).

(** [main], lines 416 and 434: the matrix of a graph. *)
Definition distance_matrix_of (G : nxGraph)
  : result (gmap (string * string) cell) :=
  match find_all_shortest_paths G with
  | Ret all_lengths => create_distance_matrix G all_lengths
  | Raise e => Raise e
  end.

(** ** Walks, reachability and shortest distances in a [Graph] *)

(** [walk g s v d]: some sequence of edges of [g] leads from [s] to [v],
    and their weights add up to [d].  Parallel edges are distinct edges. *)
Inductive walk (g : Graph) (s : string) : string → Z → Prop :=
| walk_nil : walk g s s 0
| walk_snoc u v w d :
    walk g s u d → (v, w) ∈ edges_of g u → walk g s v (d + w).

Definition reachable (g : Graph) (s v : string) : Prop := ∃ d, walk g s v d.

(** [m] is the least total weight of a walk from [s] to [v]. *)
Definition shortest_distance (g : Graph) (s v : string) (m : Z) : Prop :=
  walk g s v m ∧ ∀ d, walk g s v d → m ≤ d.

Definition nonneg_weights (g : Graph) : Prop :=
  ∀ u v w, (v, w) ∈ edges_of g u → 0 ≤ w.

(** Every neighbour has an entry of its own; [add_edge] maintains this. *)
Definition graph_closed (g : Graph) : Prop :=
  ∀ u v w, (v, w) ∈ edges_of g u → is_Some (adjacency_list g !! v).

(** A route from [s]: the edges taken one after the other, each given by
    its target and its weight. *)
Fixpoint route_ok (g : Graph) (s : string) (steps : list (string * Z)) : Prop :=
  match steps with
  | [] => True
  | e :: rest => e ∈ edges_of g s ∧ route_ok g e.1 rest
  end.

Definition route_end (s : string) (steps : list (string * Z)) : string :=
  default s (last steps.*1).

Definition route_weight (steps : list (string * Z)) : Z :=
  foldr (λ e acc, e.2 + acc) 0 steps.

(** A path from [s] to [t] of total weight [m] that visits no vertex
    twice. *)
Definition simple_path (g : Graph) (s t : string) (m : Z) : Prop :=
  ∃ steps, route_ok g s steps ∧ route_end s steps = t ∧
           route_weight steps = m ∧ NoDup (s :: steps.*1).

(** ** The invariant of the main loop of [dijkstra_heap]

    [done] lists the vertices whose adjacency list has been scanned, the
    latest first; [todo] is what remains of the adjacency list of the latest
    one while the [for] loop runs, and [[]] between iterations of [while]. *)

(** Edges still to be scanned for the first time. *)
Definition budget (g : Graph) (done : list string) : nat :=
  sum_list_with
    (λ x, if decide (x ∈ done) then O else length (edges_of g x))
    (vertices g).

(** Each scanned vertex other than [start] has its predecessor among the
    vertices scanned before it. *)
Fixpoint prev_ok (start : string) (prev : gmap string (option string))
    (done : list string) : Prop :=
  match done with
  | [] => True
  | x :: rest =>
      ((x = start ∧ prev !! x = Some None) ∨
       (∃ u, prev !! x = Some (Some u) ∧ u ∈ rest)) ∧
      prev_ok start prev rest
  end.

Record Inv (g : Graph) (start : string) (st : dstate) (done : list string)
    (todo : list (string * Z)) : Prop := mkInv {
  inv_dom_dist : dom (dist st) = dom (adjacency_list g);
  inv_dom_prev : dom (prev st) = dom (adjacency_list g);
  inv_start : dist st !! start = Some (Fin 0);
  inv_walk : ∀ v d, dist st !! v = Some (Fin d) → walk g start v d;
  inv_heap : ∀ d v, (d, v) ∈ heap st →
    ∃ d', dist st !! v = Some (Fin d') ∧ d' ≤ d;
  inv_open : ∀ v d, dist st !! v = Some (Fin d) →
    v ∈ done ∨ (d, v) ∈ heap st;
  inv_done : ∀ u, u ∈ done →
    ∃ du, dist st !! u = Some (Fin du) ∧
      (∀ d x, (d, x) ∈ heap st → du ≤ d) ∧
      (∀ v w, (v, w) ∈ edges_of g u →
         (∃ dv, dist st !! v = Some (Fin dv) ∧ dv ≤ du + w) ∨
         (head done = Some u ∧ (v, w) ∈ todo));
  inv_mono : ∀ u0 d0 u du, head done = Some u0 →
    dist st !! u0 = Some (Fin d0) → u ∈ done →
    dist st !! u = Some (Fin du) → du ≤ d0;
  inv_todo : ∀ e, e ∈ todo → ∃ u, head done = Some u ∧ e ∈ edges_of g u;
  inv_nodup : NoDup done;
  inv_prev_start : prev st !! start = Some None;
  inv_prev_inf : ∀ v, dist st !! v = Some Inf → prev st !! v = Some None;
  inv_prev_fin : ∀ v d, dist st !! v = Some (Fin d) → v ≠ start →
    ∃ u w du, prev st !! v = Some (Some u) ∧ u ∈ done ∧
      (v, w) ∈ edges_of g u ∧ dist st !! u = Some (Fin du) ∧ d = du + w;
  inv_prev_ok : prev_ok start (prev st) done
}.

(** Pointwise order on distance maps: every entry of [m] is still there in
    [m'], with a value that is no larger. *)
Definition dist_map_le (m' m : gmap string Dist) : Prop :=
  ∀ x old, m !! x = Some old → ∃ new, m' !! x = Some new ∧ Dist_le new old.

(** The backward walk through the predecessor map from [x]: [x], its
    predecessor, the predecessor of that one, ..., down to the first vertex
    whose predecessor is [None]. *)
Inductive backward_walk (prev : gmap string (option string))
  : string → list string → Prop :=
| backward_stop x :
    prev !! x = Some None → backward_walk prev x [x]
| backward_step x u p :
    prev !! x = Some (Some u) → backward_walk prev u p →
    backward_walk prev x (x :: p).

(** ** Paths and hop counts in a NetworkX graph *)

Definition adjacent (G : nxGraph) (u v : string) : Prop :=
  ∃ m, G !! u = Some m ∧ v ∈ dom m.

(** A non-empty list of vertices, each adjacent to the next. *)
Fixpoint is_path (G : nxGraph) (p : list string) : Prop :=
  match p with
  | [] => False
  | u :: rest =>
      match rest with
      | [] => True
      | v :: _ => adjacent G u v ∧ is_path G rest
      end
  end.

Definition path_from_to (G : nxGraph) (s t : string) (p : list string) : Prop :=
  is_path G p ∧ head p = Some s ∧ last p = Some t.

Definition nx_reachable (G : nxGraph) (s t : string) : Prop :=
  ∃ p, path_from_to G s t p.

(** The number of edges of a path. *)
Definition hops (p : list string) : nat := pred (length p).

(** [nx_walk G s v n]: [n] edges lead from [s] to [v]. *)
Inductive nx_walk (G : nxGraph) (s : string) : string → nat → Prop :=
| nx_walk_nil : nx_walk G s s 0
| nx_walk_snoc u v n :
    nx_walk G s u n → adjacent G u v → nx_walk G s v (S n).

(** Every neighbour is a node; NetworkX maintains this. *)
Definition nx_closed (G : nxGraph) : Prop :=
  ∀ u v, adjacent G u v → is_Some (G !! v).

(** The last vertices of the paths of a queue. *)
Definition lasts (q : list (list string)) : list string := omap last q.

(** The distinct elements of a list, in the order of their first
    occurrence. *)
Fixpoint first_occurrences_from (seen : list string) (l : list string)
  : list string :=
  match l with
  | [] => []
  | x :: rest =>
      if decide (x ∈ seen) then first_occurrences_from seen rest
      else x :: first_occurrences_from (seen ++ [x]) rest
  end.

Definition first_occurrences (l : list string) : list string :=
  first_occurrences_from [] l.

(** ** The invariant of the main loop of [bfs_path]

    [deq] lists the dequeued nodes; [todo] is what remains of the sorted
    neighbours of the last of them while the [for] loop runs; [L] is the
    hop count of the paths at the front of the queue. *)
Record BInv (G : nxGraph) (start : string) (st : bfs_state)
    (deq : list string) (todo : list string) (L : nat) : Prop := mkBInv {
  b_order : bfs_visited_order st = deq ++ lasts (bfs_queue st);
  b_visited : ∀ x, x ∈ bfs_visited st ↔ x ∈ bfs_visited_order st;
  b_start : start ∈ bfs_visited st;
  b_paths : ∀ p, p ∈ bfs_queue st →
    ∃ x, path_from_to G start x p ∧ NoDup p ∧
         (∀ y, y ∈ p → y ∈ bfs_visited st) ∧
         ∀ n, nx_walk G start x n → (length p ≤ S n)%nat;
  b_levels : ∃ A B, bfs_queue st = A ++ B ∧
    (∀ a, a ∈ A → length a = S L) ∧ (∀ b, b ∈ B → length b = S (S L));
  b_closed : ∀ u v, u ∈ deq → adjacent G u v →
    v ∈ bfs_visited st ∨ (last deq = Some u ∧ v ∈ todo);
  b_current : ∀ u n, todo ≠ [] → last deq = Some u →
    nx_walk G start u n → (L ≤ n)%nat
}.

(** Every path of the queue ends in a node of the graph or in [goal]. *)
Definition queue_ok (G : nxGraph) (goal : string) (q : list (list string))
  : Prop :=
  ∀ p, p ∈ q → ∃ x, last p = Some x ∧ (is_Some (G !! x) ∨ x = goal).

(** The neighbours of [x] as a set, empty when [x] is not a node. *)
Definition nbrs (G : nxGraph) (x : string) : gset string :=
  dom (default ∅ (G !! x)).

(** Edges out of the nodes that [dfs_path] has not visited yet. *)
Definition dfs_budget (G : nxGraph) (visited : gset string) : nat :=
  sum_list_with
    (λ x, if decide (x ∈ visited) then O else degree G x) (nx_nodes G).

(** ** Comparing a [Graph] with a NetworkX graph *)

Definition unit_weights (g : Graph) : Prop :=
  ∀ u v w, (v, w) ∈ edges_of g u → w = 1.

(** The two graphs have the same edges, weights aside. *)
Definition same_edges (G : nxGraph) (g : Graph) : Prop :=
  ∀ u v, adjacent G u v ↔ ∃ w, (v, w) ∈ edges_of g u.

(** ** Weighted walks in a NetworkX graph *)

Inductive nx_wwalk (G : nxGraph) (s : string) : string → Z → Prop :=
| nx_wwalk_nil : nx_wwalk G s s 0
| nx_wwalk_snoc u v m w d :
    nx_wwalk G s u d → G !! u = Some m → m !! v = Some w →
    nx_wwalk G s v (d + w).

(** [m] is the least total weight of a walk from [s] to [t]. *)
Definition nx_shortest_distance (G : nxGraph) (s t : string) (m : Z) : Prop :=
  nx_wwalk G s t m ∧ ∀ d, nx_wwalk G s t d → m ≤ d.

Definition nx_nonneg (G : nxGraph) : Prop :=
  ∀ u m v w, G !! u = Some m → m !! v = Some w → 0 ≤ w.

(** Every node is reachable from every node. *)
Definition nx_connected (G : nxGraph) : Prop :=
  ∀ s t, s ∈ nx_nodes G → t ∈ nx_nodes G → nx_reachable G s t.

(** The value that [create_distance_matrix] stores in cell [(s, t)], when
    the lookups of [fill_cell] succeed and the length fits a float64. *)
Definition expected_cell (all_lengths : gmap string (gmap string Z))
    (s t : string) : option cell :=
  if decide (s = t) then Some (Val (Fin 0))
  else
    match all_lengths !! s with
    | None => None
    | Some lengths =>
        match lengths !! t with
        | None => None
        | Some d =>
            match float64 d with
            | Ret f => Some (Val (Fin f))
            | Raise _ => None
            end
        end
    end.

(** The lengths that [create_distance_matrix] reads, those of the pairs of
    distinct nodes, lie in the range of float64. *)
Definition lengths_in_float64_range (nodes : list string)
    (all_lengths : gmap string (gmap string Z)) : Prop :=
  ∀ s t lengths d, s ∈ nodes → t ∈ nodes → s ≠ t →
    all_lengths !! s = Some lengths → lengths !! t = Some d →
    Z.abs d ≤ float64_max.

(** ** The adjacency lists in terms of the calls that built them *)

(** What one call [add_edge(u, v, w, undirected)] appends to the adjacency
    list of [x]: [(v, w)] when [x] is [u], then [(u, w)] when the call is
    undirected and [x] is [v]. *)
Definition contribution (x : string) (c : edge_call) : list (string * Z) :=
  (if decide (call_u c = x) then [(call_v c, call_w c)] else []) ++
  (if call_undirected c
   then if decide (call_v c = x) then [(call_u c, call_w c)] else []
   else []).

(** ** [compare_algorithms] ([goit-algo-hw-06/task2.py]) *)

(** The dictionary that [compare_algorithms] returns. *)
Record comparison : Type := mkComparison {
  res_start : string;
  res_goal : string;
  res_dfs_path : option (list string);
  res_bfs_path : option (list string);
  res_dfs_length : Z;
  res_bfs_length : Z;
  res_dfs_visited : Z;
  res_bfs_visited : Z
}.

(** [len(result) - 1 if result else 0]: [None] and the empty list are both
    false. *)
Definition length_or_zero (result : option (list string)) : Z :=
  match result with
  | Some (x :: p) => Z.of_nat (length (x :: p)) - 1
  | Some [] => 0
  | None => 0
  end.

(** Lines 159-174: [dfs_path] runs first, then [bfs_path]; an error of
    either one leaves [compare_algorithms]. *)
Definition compare_algorithms (fuel : nat) (graph : nxGraph)
    (start goal : string) : option (result comparison) :=
  match dfs_path fuel graph start goal with
  | None => None
  | Some (Raise e) => Some (Raise e)
  | Some (Ret (dfs_result, dfs_visited)) =>
      match bfs_path fuel graph start goal with
      | None => None
      | Some (Raise e) => Some (Raise e)
      | Some (Ret (bfs_result, bfs_visited)) =>
          Some (Ret {| res_start := start;
                       res_goal := goal;
                       res_dfs_path := dfs_result;
                       res_bfs_path := bfs_result;
                       res_dfs_length := length_or_zero dfs_result;
                       res_bfs_length := length_or_zero bfs_result;
                       res_dfs_visited := Z.of_nat (length dfs_visited);
                       res_bfs_visited := Z.of_nat (length bfs_visited) |})
      end
  end.

(** ** The invariant of the main loop of [dfs_path]

    Every path of the stack leads from [start] to its last vertex, repeats
    no vertex, and all its vertices but the last are visited; every
    neighbour of a visited vertex is visited or waits at the end of a path
    of the stack; [goal] is not visited while the loop runs; the visit order
    begins with [start]. *)
Record DInv (G : nxGraph) (start goal : string) (st : dfs_state)
  : Prop := mkDInv {
  d_visited : ∀ x, x ∈ dfs_visited st ↔ x ∈ dfs_visited_order st;
  d_nodup : NoDup (dfs_visited_order st);
  d_reach : ∀ x, x ∈ dfs_visited st → nx_reachable G start x;
  d_paths : ∀ p, p ∈ dfs_stack st →
    ∃ q x, p = q ++ [x] ∧ path_from_to G start x p ∧ NoDup p ∧
           ∀ y, y ∈ q → y ∈ dfs_visited st;
  d_closed : ∀ u v, u ∈ dfs_visited st → adjacent G u v →
    v ∈ dfs_visited st ∨ v ∈ lasts (dfs_stack st);
  d_start : start ∈ dfs_visited st ∨ start ∈ lasts (dfs_stack st);
  d_goal : goal ∉ dfs_visited st;
  d_first : ∀ x, head (dfs_visited_order st) = Some x → x = start
}.

(** ** The visit order of [bfs_path]

    The visited vertices are those of the visit order, each listed once and
    each reachable from [start]; a visited vertex whose neighbours are not
    all visited still waits at the end of a path of the queue. *)
Record BOrd (G : nxGraph) (start : string) (st : bfs_state) : Prop := mkBOrd {
  bo_visited : ∀ x, x ∈ bfs_visited st ↔ x ∈ bfs_visited_order st;
  bo_nodup : NoDup (bfs_visited_order st);
  bo_reach : ∀ x, x ∈ bfs_visited st → nx_reachable G start x;
  bo_paths : ∀ p, p ∈ bfs_queue st →
    ∃ x, path_from_to G start x p ∧ x ∈ bfs_visited st;
  bo_closed : ∀ u v, u ∈ bfs_visited st → adjacent G u v →
    v ∈ bfs_visited st ∨ u ∈ lasts (bfs_queue st);
  bo_start : head (bfs_visited_order st) = Some start
}.

(** ** [bfs_path] of [goit-algo-hw-06/task3.py]

    The search of [task2.py] again, without the visit order: it returns
    the path alone. *)
Module Task3.

Record bfs_state : Type := mkBfs {
  bfs_visited : gset string;
  bfs_queue : list (list string)
}.

(** Lines 258-262: the body of [for neighbor in neighbors]. *)
Definition bfs_neighbor (path : list string) (st : bfs_state)
    (neighbor : string) : bfs_state :=
  if decide (neighbor ∈ bfs_visited st) then st
  else {| bfs_visited := bfs_visited st ∪ {[neighbor]};
          bfs_queue := bfs_queue st ++ [path ++ [neighbor]] |}.

(** Lines 249-264: the main loop. *)
Fixpoint bfs_loop (fuel : nat) (graph : nxGraph) (goal : string)
    (st : bfs_state) : option (result (option (list string))) :=
  match fuel with
  | O => None
  | S fuel' =>
      match bfs_queue st with
      | [] => Some (Ret None)
      | path :: rest =>
          match last path with
          | None => Some (Raise IndexError)
          | Some node =>
              if decide (node = goal)
              then Some (Ret (Some path))
              else
                match neighbors graph node with
                | Raise e => Some (Raise e)
                | Ret ns =>
                    bfs_loop fuel' graph goal
                      (foldl (bfs_neighbor path)
                         {| bfs_visited := bfs_visited st;
                            bfs_queue := rest |}
                         (sorted ns))
                end
          end
      end
  end.

Definition bfs_path (fuel : nat) (graph : nxGraph) (start goal : string)
  : option (result (option (list string))) :=
  bfs_loop fuel graph goal
    {| bfs_visited := {[start]}; bfs_queue := [[start]] |}.

End Task3.

(** ** [compare_dijkstra_bfs] ([goit-algo-hw-06/task3.py]) *)

(** The outcome of a call that can also fail with [TypeError]:
    [len(bfs_result)] when [bfs_path] has returned [None]. *)
Inductive outcome (A : Type) : Type :=
| Returns (a : A)
| Raises (e : exn)
| RaisesTypeError.

Arguments Returns {A} a.
Arguments Raises {A} e.
Arguments RaisesTypeError {A}.

(** [sum(graph[p[i]][p[i+1]]['weight'] for i in range(len(p) - 1))]: the
    weights of the edges along [p]; [graph[u]] raises [KeyError] when [u]
    is not a node and [graph[u][v]] when [v] is not a neighbour of [u].
    The first missing edge ends the sum. *)
Fixpoint path_time (graph : nxGraph) (p : list string) : result Z :=
  match p with
  | [] => Ret 0
  | u :: rest =>
      match rest with
      | [] => Ret 0
      | v :: _ =>
          match graph !! u with
          | None => Raise (KeyError u)
          | Some m =>
              match m !! v with
              | None => Raise (KeyError v)
              | Some segment_weight =>
                  match path_time graph rest with
                  | Ret t => Ret (segment_weight + t)
                  | Raise e => Raise e
                  end
              end
          end
      end
  end.

(** The dictionary that [compare_dijkstra_bfs] returns. *)
Record dijkstra_bfs_comparison : Type := mkDijkstraBfs {
  cmp_dijkstra_path : list string;
  cmp_dijkstra_time : Z;
  cmp_dijkstra_hops : Z;
  cmp_bfs_path : list string;
  cmp_bfs_time : Z;
  cmp_bfs_hops : Z;
  cmp_time_saved : Z
}.

(** Lines 275-291.  [all_paths] and [all_lengths] are arguments: the
    dictionaries that [find_all_shortest_paths] has returned. *)
Definition compare_dijkstra_bfs (fuel : nat) (graph : nxGraph)
    (source target : string)
    (all_paths : gmap string (gmap string (list string)))
    (all_lengths : gmap string (gmap string Z))
  : option (outcome dijkstra_bfs_comparison) :=
  match all_paths !! source with
  | None => Some (Raises (KeyError source))
  | Some paths =>
  match paths !! target with
  | None => Some (Raises (KeyError target))
  | Some dijkstra_path =>
  match all_lengths !! source with
  | None => Some (Raises (KeyError source))
  | Some lengths =>
  match lengths !! target with
  | None => Some (Raises (KeyError target))
  | Some dijkstra_length =>
  match Task3.bfs_path fuel graph source target with
  | None => None
  | Some (Raise e) => Some (Raises e)
  | Some (Ret None) => Some RaisesTypeError
  | Some (Ret (Some bfs_result)) =>
  match path_time graph bfs_result with
  | Raise e => Some (Raises e)
  | Ret bfs_time =>
      Some (Returns
        {| cmp_dijkstra_path := dijkstra_path;
           cmp_dijkstra_time := dijkstra_length;
           cmp_dijkstra_hops := Z.of_nat (length dijkstra_path) - 1;
           cmp_bfs_path := bfs_result;
           cmp_bfs_time := bfs_time;
           cmp_bfs_hops := Z.of_nat (length bfs_result) - 1;
           cmp_time_saved := bfs_time - dijkstra_length |})
  end end end end end end.

(** ** The main loop of [dijkstra_heap] without a condition on the weights

    Between two iterations of [while]: the keys of [dist] are the vertices;
    [dist[start]] is at most 0; a finite distance is the weight of a walk
    from [start]; a heap entry is at least the distance of its vertex; and
    a vertex with a finite distance either has a heap entry that holds this
    very distance or has every edge out of it relaxed. *)
Record LInv (g : Graph) (start : string) (st : dstate) : Prop := mkLInv {
  l_dom : dom (dist st) = dom (adjacency_list g);
  l_start : ∃ d0, dist st !! start = Some (Fin d0) ∧ d0 ≤ 0;
  l_walk : ∀ v d, dist st !! v = Some (Fin d) → walk g start v d;
  l_heap : ∀ d v, (d, v) ∈ heap st →
    ∃ d', dist st !! v = Some (Fin d') ∧ d' ≤ d;
  l_relaxed : ∀ u du, dist st !! u = Some (Fin du) →
    (du, u) ∈ heap st ∨
    ∀ v w, (v, w) ∈ edges_of g u →
      ∃ dv, dist st !! v = Some (Fin dv) ∧ dv ≤ du + w
}.

(** ** Edge weights of a NetworkX graph *)

(** The weight of the edge from [u] to [v], when there is one. *)
Definition nx_weight (G : nxGraph) (u v : string) : option Z :=
  default ∅ (G !! u) !! v.

(** ** [analyze_shortest_paths] ([goit-algo-hw-06/task3.py]): the extreme
    routes

    Lines 173-190, the first loop of the function, which finds the longest
    and the shortest of the shortest routes.  The loops that follow read
    the same entries of [all_lengths] again and hand them to [numpy] for
    the mean, the median and the standard deviation; these floating-point
    statistics are not modelled. *)

Record extremes : Type := mkExtremes {
  max_distance : Z;
  min_distance : Dist;
  max_route : option (string * string);
  min_route : option (string * string)
}.

(** Lines 176-179. *)
Definition extremes_init : extremes :=
  {| max_distance := 0; min_distance := Inf;
     max_route := None; min_route := None |}.

(** Lines 183-190: the body of [for target in nodes]. *)
Definition analyze_pair (all_lengths : gmap string (gmap string Z))
    (source : string) (st : extremes) (target : string) : result extremes :=
  if decide (source = target) then Ret st
  else
    match all_lengths !! source with
    | None => Raise (KeyError source)
    | Some lengths =>
        match lengths !! target with
        | None => Raise (KeyError target)
        | Some dist =>
            let st1 :=
              if max_distance st <? dist
              then {| max_distance := dist;
                      min_distance := min_distance st;
                      max_route := Some (source, target);
                      min_route := min_route st |}
              else st in
            if Dist_ltb (Fin dist) (min_distance st1)
            then Ret {| max_distance := max_distance st1;
                        min_distance := Fin dist;
                        max_route := max_route st1;
                        min_route := Some (source, target) |}
            else Ret st1
        end
    end.

(** Lines 173-190. *)
Definition analyze_extremes (graph : nxGraph)
    (all_lengths : gmap string (gmap string Z)) : result extremes :=
  let nodes := nx_nodes graph in
  for_each
    (λ st source, for_each (analyze_pair all_lengths source) nodes st)
    nodes extremes_init.

(** [all_lengths[s][t]], when both keys are there. *)
Definition length_of (all_lengths : gmap string (gmap string Z))
    (p : string * string) : option Z :=
  all_lengths !! p.1 ≫= (λ lengths, lengths !! p.2).

(** What the loop has established once the pairs [seen] are processed. *)
Record extremes_of (all_lengths : gmap string (gmap string Z))
    (seen : list (string * string)) (st : extremes) : Prop := mkExtremesOf {
  ex_bounds : ∀ p, p ∈ seen → p.1 ≠ p.2 →
    ∃ d, length_of all_lengths p = Some d ∧
         d ≤ max_distance st ∧ Dist_le (min_distance st) (Fin d);
  ex_nonneg : 0 ≤ max_distance st;
  ex_max : match max_route st with
           | Some p => p ∈ seen ∧ p.1 ≠ p.2 ∧ 0 < max_distance st ∧
                       length_of all_lengths p = Some (max_distance st)
           | None => max_distance st = 0
           end;
  ex_min : match min_route st with
           | Some p => p ∈ seen ∧ p.1 ≠ p.2 ∧
                       ∃ d, min_distance st = Fin d ∧
                            length_of all_lengths p = Some d
           | None => min_distance st = Inf
           end
}.

(** ** The main loop of [dijkstra_heap] with a record of the expansions

    [expanded] is not a variable of the source: it records [u] each time
    the lazy-deletion test of line 52 lets the popped entry through, that
    is each time the [for] loop over the adjacency list of [u] runs. *)
Definition is_stale (st : dstate) (current_dist : Z) (u : string) : bool :=
  match dist st !! u with
  | Some du => Dist_ltb du (Fin current_dist)
  | None => false
  end.

Fixpoint dijkstra_loop_traced (fuel : nat) (g : Graph) (st : dstate)
    (expanded : list string) : option (result (dstate * list string)) :=
  match fuel with
  | O => None
  | S fuel' =>
      match heappop (heap st) with
      | None => Some (Ret (st, expanded))
      | Some ((current_dist, u), h) =>
          match dijkstra_step g st current_dist u h with
          | Raise e => Some (Raise e)
          | Ret st' =>
              dijkstra_loop_traced fuel' g st'
                (if is_stale st current_dist u then expanded
                 else expanded ++ [u])
          end
      end
  end.

(** What holds of the heap and of the record between two iterations:
    a heap entry of an expanded vertex is stale; the entry that holds the
    current distance of a vertex is there at most once; the expanded
    vertices are recorded in the order of their distances; and the first
    of them is [start]. *)
Record SInv (start : string) (st : dstate) (expanded : list string)
  : Prop := mkSInv {
  s_stale : ∀ d u, (d, u) ∈ heap st → u ∈ expanded →
    ∃ du, dist st !! u = Some (Fin du) ∧ du < d;
  s_once : ∀ u du, dist st !! u = Some (Fin du) → u ∉ expanded →
    (length (filter (λ x, x = (du, u)) (heap st)) ≤ 1)%nat;
  s_sorted : ∀ i j u v, (i ≤ j)%nat →
    expanded !! i = Some u → expanded !! j = Some v →
    ∃ du dv, dist st !! u = Some (Fin du) ∧ dist st !! v = Some (Fin dv) ∧
             du ≤ dv;
  s_first : ∀ x, head expanded = Some x → x = start
}.

(** ** Hop distance, and the paths that [bfs_path] has enqueued *)

(** [n] is the least number of edges of a walk from [s] to [x]. *)
Definition hop_distance (G : nxGraph) (s x : string) (n : nat) : Prop :=
  nx_walk G s x n ∧ ∀ k, nx_walk G s x k → (n ≤ k)%nat.

(** [enq] lists the paths in the order in which they were put in the
    queue: the visit order lists their last vertices, the queue is what is
    left of them, and they were enqueued by increasing length. *)
Record BLev (st : bfs_state) (enq : list (list string)) (L : nat)
  : Prop := mkBLev {
  bl_order : bfs_visited_order st = lasts enq;
  bl_queue : ∃ pre, enq = pre ++ bfs_queue st;
  bl_bound : ∀ q, q ∈ enq → (length q ≤ S (S L))%nat;
  bl_sorted : ∀ i j p q, (i ≤ j)%nat →
    enq !! i = Some p → enq !! j = Some q → (length p ≤ length q)%nat
}.

(** ** The order in which [dfs_path] takes the neighbours *)

(** [l] is in ascending order: no element is smaller than one before it. *)
Fixpoint ascending (l : list string) : Prop :=
  match l with
  | [] => True
  | x :: rest => (∀ z, z ∈ rest → String.ltb z x = false) ∧ ascending rest
  end.

(** [v] may follow [u] in the visit order, [seen] being the vertices
    visited up to [u]: when [u] has a neighbour that is not in [seen], [v]
    is the least such neighbour. *)
Definition least_new_neighbor (G : nxGraph) (seen : list string)
    (u v : string) : Prop :=
  (∃ w, adjacent G u w ∧ w ∉ seen) →
  adjacent G u v ∧ (v ∉ seen) ∧
  ∀ w, adjacent G u w → w ∉ seen → String.ltb w v = false.

(** What the main loop of [dfs_path] keeps for the order of the visits:
    consecutive visits are as [least_new_neighbor] says, and when the
    vertex visited last has a neighbour that is not visited, the least
    such neighbour ends the path on top of the stack. *)
Record DOrd (G : nxGraph) (st : dfs_state) : Prop := mkDOrd {
  do_visited : ∀ x, x ∈ dfs_visited st ↔ x ∈ dfs_visited_order st;
  do_next : ∀ i u v,
    dfs_visited_order st !! i = Some u →
    dfs_visited_order st !! S i = Some v →
    least_new_neighbor G (take (S i) (dfs_visited_order st)) u v;
  do_top : ∀ u, last (dfs_visited_order st) = Some u →
    (∃ w, adjacent G u w ∧ w ∉ dfs_visited_order st) →
    ∃ p v rest, dfs_stack st = (p ++ [v]) :: rest ∧
      least_new_neighbor G (dfs_visited_order st) u v
}.

(** ** Properties of [add_edge] *)

Lemma setdefault_append_lookup k e d :
  setdefault_append k e d !! k = Some (default [] (d !! k) ++ [e]).
Proof. unfold setdefault_append. by rewrite lookup_insert_eq. Qed.

Lemma setdefault_append_lookup_ne k k' e d :
  k ≠ k' → setdefault_append k e d !! k' = d !! k'.
Proof. intros. unfold setdefault_append. by rewrite lookup_insert_ne. Qed.

Lemma setdefault_lookup k d :
  setdefault k d !! k = Some (default [] (d !! k)).
Proof.
  unfold setdefault. destruct (d !! k) eqn:E; simpl.
  - done.
  - by rewrite lookup_insert_eq.
Qed.

Lemma setdefault_lookup_ne k k' d :
  k ≠ k' → setdefault k d !! k' = d !! k'.
Proof.
  intros. unfold setdefault. destruct (d !! k); [done|].
  by rewrite lookup_insert_ne.
Qed.

(** What [add_edge] does to each adjacency list. *)
Lemma add_edge_lookup u v w b g x :
  adjacency_list (add_edge u v w b g) !! x =
    if decide (x = u) then
      Some (edges_of g u ++ [(v, w)] ++
            (if b then if decide (u = v) then [(u, w)] else [] else []))
    else if decide (x = v) then
      Some (edges_of g v ++ (if b then [(u, w)] else []))
    else adjacency_list g !! x.
Proof.
  unfold add_edge, edges_of.
  destruct b; simpl;
    destruct (decide (x = u)) as [->|Hxu];
    try destruct (decide (u = v)) as [->|Huv];
    try destruct (decide (x = v)) as [->|Hxv];
    rewrite ?setdefault_lookup, ?setdefault_lookup_ne by done;
    rewrite ?setdefault_append_lookup, ?setdefault_append_lookup_ne by done;
    rewrite ?setdefault_append_lookup; simpl;
    rewrite <- ?app_assoc, ?app_nil_r; done.
Qed.

Lemma build_graph_snoc calls c :
  build_graph (calls ++ [c]) = apply_call (build_graph calls) c.
Proof. unfold build_graph. by rewrite foldl_app. Qed.

Lemma apply_call_lookup g c x :
  adjacency_list (apply_call g c) !! x =
    if decide (x = call_u c) then
      Some (edges_of g (call_u c) ++ [(call_v c, call_w c)] ++
            (if call_undirected c
             then if decide (call_u c = call_v c)
                  then [(call_u c, call_w c)] else []
             else []))
    else if decide (x = call_v c) then
      Some (edges_of g (call_v c) ++
            (if call_undirected c then [(call_u c, call_w c)] else []))
    else adjacency_list g !! x.
Proof. apply add_edge_lookup. Qed.

(** Adjacency lists only grow, at their end. *)
Lemma apply_call_extends g c x l :
  adjacency_list g !! x = Some l →
  ∃ l', adjacency_list (apply_call g c) !! x = Some (l ++ l').
Proof.
  intros Hx. rewrite apply_call_lookup. unfold edges_of.
  repeat case_decide; subst; rewrite ?Hx; simpl; eauto.
  exists []. by rewrite app_nil_r.
Qed.

Lemma build_graph_extends calls calls' x l :
  adjacency_list (build_graph calls) !! x = Some l →
  ∃ l', adjacency_list (build_graph (calls ++ calls')) !! x = Some (l ++ l').
Proof.
  intros Hx. induction calls' as [|c calls' IH] using rev_ind.
  - exists []. by rewrite !app_nil_r.
  - destruct IH as [l1 IH]. rewrite app_assoc, build_graph_snoc.
    destruct (apply_call_extends _ c _ _ IH) as [l2 H2].
    exists (l1 ++ l2). by rewrite app_assoc.
Qed.

(** The state right after a call. *)
Lemma apply_call_effect g c :
  let g' := apply_call g c in
  is_Some (adjacency_list g' !! call_u c) ∧
  is_Some (adjacency_list g' !! call_v c) ∧
  (call_v c, call_w c) ∈ edges_of g' (call_u c) ∧
  (call_undirected c = true → (call_u c, call_w c) ∈ edges_of g' (call_v c)).
Proof.
  simpl. unfold edges_of. rewrite !apply_call_lookup.
  destruct (decide (call_u c = call_u c)); [|done].
  destruct (decide (call_v c = call_v c)); [|done].
  destruct (decide (call_v c = call_u c)) as [E|E]; simpl.
  - repeat split; eauto.
    + set_solver.
    + intros ->. rewrite E. destruct (decide (call_u c = call_u c)); [|done].
      set_solver.
  - repeat split; eauto.
    + set_solver.
    + intros ->. set_solver.
Qed.

Lemma only_directed_target_empty calls x l :
  only_directed_target calls x →
  adjacency_list (build_graph calls) !! x = Some l → l = [].
Proof.
  revert l. induction calls as [|c calls IH] using rev_ind; intros l Hx Hl.
  - by simpl in Hl; rewrite lookup_empty in Hl.
  - rewrite build_graph_snoc, apply_call_lookup in Hl.
    assert (only_directed_target calls x) as Hx'.
    { intros c' Hc'. apply Hx, elem_of_app. by left. }
    destruct (Hx c) as [Hu Hv].
    { apply elem_of_app. right. by apply list_elem_of_singleton. }
    destruct (decide (x = call_u c)); [done|].
    destruct (decide (x = call_v c)) as [->|].
    + destruct (call_undirected c); [by destruct Hv|].
      simplify_eq. rewrite app_nil_r. unfold edges_of.
      destruct (adjacency_list (build_graph calls) !! call_v c) eqn:E; [|done].
      simpl. by apply IH.
    + by apply IH.
Qed.

(** C9: after any sequence of [add_edge] calls on an empty [Graph], both
    endpoints of every call have an entry in the adjacency list, the list
    of [u] holds [(v, w)], for an undirected call the list of [v] holds
    [(u, w)] with the same weight, and the target of a directed call that has
    no other edges has an empty entry. *)
Theorem add_edge_entries_and_symmetry (calls : list edge_call) (c : edge_call) :
  c ∈ calls →
  is_Some (adjacency_list (build_graph calls) !! call_u c) ∧
  is_Some (adjacency_list (build_graph calls) !! call_v c) ∧
  (call_v c, call_w c) ∈ edges_of (build_graph calls) (call_u c) ∧
  (call_undirected c = true →
     (call_u c, call_w c) ∈ edges_of (build_graph calls) (call_v c)) ∧
  (call_undirected c = false → only_directed_target calls (call_v c) →
     adjacency_list (build_graph calls) !! call_v c = Some []).
Proof.
  intros Hc.
  apply list_elem_of_split in Hc as (l1 & l2 & ->).
  replace (l1 ++ c :: l2) with ((l1 ++ [c]) ++ l2) by (by rewrite <- app_assoc).
  pose proof (apply_call_effect (build_graph l1) c) as (Hu & Hv & Huv & Hvu).
  simpl in *. rewrite <- build_graph_snoc in *.
  destruct Hu as [lu Hu], Hv as [lv Hv].
  destruct (build_graph_extends _ l2 _ _ Hu) as [lu' Hu'].
  destruct (build_graph_extends _ l2 _ _ Hv) as [lv' Hv'].
  unfold edges_of in *. rewrite Hu, Hv in *. rewrite Hu', Hv'. simpl in *.
  repeat split; eauto.
  - set_solver.
  - intros Hb. specialize (Hvu Hb). set_solver.
  - intros _ Honly. f_equal.
    by eapply only_directed_target_empty.
Qed.

Lemma add_edge_entries_and_symmetry_witness :
  let calls := [EdgeCall "A" "B" 10 true; EdgeCall "B" "C" 15 false] in
  let c := EdgeCall "B" "C" 15 false in
  let g := build_graph calls in
  c ∈ calls ∧
  is_Some (adjacency_list g !! "B") ∧
  is_Some (adjacency_list g !! "C") ∧
  ("C", 15) ∈ edges_of g "B" ∧
  (false = true → ("B", 15) ∈ edges_of g "C") ∧
  (false = false → only_directed_target calls "C" →
     adjacency_list g !! "C" = Some []).
Proof.
  split.
  - set_solver.
  - apply (add_edge_entries_and_symmetry
             [EdgeCall "A" "B" 10 true; EdgeCall "B" "C" 15 false]
             (EdgeCall "B" "C" 15 false)).
    set_solver.
Defined.

Lemma occurrences_app e l1 l2 :
  occurrences e (l1 ++ l2) = (occurrences e l1 + occurrences e l2)%nat.
Proof. unfold occurrences. by rewrite filter_app, length_app. Qed.

Lemma occurrences_self e : occurrences e [e] = 1%nat.
Proof.
  unfold occurrences. rewrite filter_cons_True by done. done.
Qed.

Lemma occurrences_absent e l : e ∉ l → occurrences e l = 0%nat.
Proof.
  unfold occurrences. induction l as [|x l IH]; intros Hnot; [done|].
  apply not_elem_of_cons in Hnot as [Hne Hnot].
  rewrite filter_cons_False by done. by apply IH.
Qed.

Lemma occurrences_NoDup e l : NoDup l → (occurrences e l ≤ 1)%nat.
Proof.
  induction 1 as [|x l Hx Hl IH]; [unfold occurrences; simpl; lia|].
  change (x :: l) with ([x] ++ l). rewrite occurrences_app.
  destruct (decide (x = e)) as [->|Hne].
  - rewrite occurrences_self, occurrences_absent by done. lia.
  - rewrite (occurrences_absent e [x]); [lia|].
    intros ?%list_elem_of_singleton. done.
Qed.

Lemma edges_of_add_edge u v w b g x :
  edges_of (add_edge u v w b g) x =
    if decide (x = u) then
      edges_of g u ++ [(v, w)] ++
        (if b then if decide (u = v) then [(u, w)] else [] else [])
    else if decide (x = v) then
      edges_of g v ++ (if b then [(u, w)] else [])
    else edges_of g x.
Proof.
  unfold edges_of at 1. rewrite add_edge_lookup.
  by repeat case_decide.
Qed.

(** C10: [add_edge] never deduplicates.  Two calls with the same arguments
    append [(v, w)] twice to the list of [u] and, when undirected, [(u, w)]
    twice to the list of [v] (a self-loop [u = v] is appended four times to
    the one list), so the list of [u] has a repeated entry. *)
Theorem add_edge_no_dedup (g : Graph) (u v : string) (w : Z) (b : bool) :
  let g2 := add_edge u v w b (add_edge u v w b g) in
  edges_of g2 u =
    (if b && bool_decide (u = v)
     then edges_of g u ++ [(v, w); (u, w); (v, w); (u, w)]
     else edges_of g u ++ [(v, w); (v, w)]) ∧
  (if b && negb (bool_decide (u = v))
   then edges_of g2 v = edges_of g v ++ [(u, w); (u, w)]
   else True) ∧
  (occurrences (v, w) (edges_of g2 u) ≥ 2 + occurrences (v, w) (edges_of g u))%nat ∧
  (if b
   then (occurrences (u, w) (edges_of g2 v) ≥
           2 + occurrences (u, w) (edges_of g v))%nat
   else True) ∧
  ¬ NoDup (edges_of g2 u).
Proof.
  simpl.
  assert (edges_of (add_edge u v w b (add_edge u v w b g)) u =
    (if b && bool_decide (u = v)
     then edges_of g u ++ [(v, w); (u, w); (v, w); (u, w)]
     else edges_of g u ++ [(v, w); (v, w)])) as Hu.
  { rewrite !edges_of_add_edge. destruct (decide (u = u)); [|done].
    destruct b; simpl; [case_bool_decide; destruct (decide (u = v)); try done|];
      by rewrite <- ?app_assoc. }
  assert (b = true → u ≠ v →
    edges_of (add_edge u v w b (add_edge u v w b g)) v =
      edges_of g v ++ [(u, w); (u, w)]) as Hv.
  { intros -> Hne. rewrite !edges_of_add_edge.
    destruct (decide (v = u)); [done|]. destruct (decide (v = v)); [|done].
    by rewrite <- app_assoc. }
  assert (occurrences (v, w) (edges_of (add_edge u v w b (add_edge u v w b g)) u)
          ≥ 2 + occurrences (v, w) (edges_of g u))%nat as Hocc.
  { rewrite Hu. destruct (b && bool_decide (u = v));
      rewrite occurrences_app;
      change [(v, w); (u, w); (v, w); (u, w)]
        with ([(v, w)] ++ [(u, w)] ++ [(v, w)] ++ [(u, w)]);
      change [(v, w); (v, w)] with ([(v, w)] ++ [(v, w)]);
      rewrite ?occurrences_app, ?occurrences_self; lia. }
  split; [exact Hu|]. split; [|split; [exact Hocc|split]].
  - destruct b; simpl; [|done]. case_bool_decide; simpl; [done|]. by apply Hv.
  - destruct b; [|done]. destruct (decide (u = v)) as [->|Hne].
    + exact Hocc.
    + rewrite Hv by done. rewrite occurrences_app.
      change [(u, w); (u, w)] with ([(u, w)] ++ [(u, w)]).
      rewrite occurrences_app, occurrences_self. lia.
  - intros Hnd. apply (occurrences_NoDup (v, w)) in Hnd. lia.
Qed.

(** ** The priority queue *)

Lemma heap_min_spec best h :
  let m := heap_min best h in
  m ∈ best :: h ∧ ∀ x, x ∈ best :: h → m.1 ≤ x.1.
Proof.
  revert best. induction h as [|y h IH]; intros best; simpl.
  - split; [by left|]. intros x ?%list_elem_of_singleton. by subst.
  - destruct (IH (if entry_ltb y best then y else best)) as [Hin Hle].
    split.
    + apply elem_of_cons in Hin as [->|Hin].
      * destruct (entry_ltb y best); [right; left|left].
      * by do 2 right.
    + intros x Hx.
      assert ((if entry_ltb y best then y else best).1 ≤ best.1
              ∧ (if entry_ltb y best then y else best).1 ≤ y.1) as [H1 H2].
      { unfold entry_ltb. destruct (y.1 <? best.1) eqn:E1; simpl.
        - apply Z.ltb_lt in E1. lia.
        - apply Z.ltb_ge in E1.
          destruct (y.1 =? best.1) eqn:E2; simpl.
          + apply Z.eqb_eq in E2. destruct (String.ltb y.2 best.2); lia.
          + lia. }
      pose proof (Hle _ (list_elem_of_here _ _)) as H0.
      apply elem_of_cons in Hx as [->|Hx]; [lia|].
      apply elem_of_cons in Hx as [->|Hx]; [lia|].
      apply Hle. by right.
Qed.

Lemma remove_one_perm x h : x ∈ h → h ≡ₚ x :: remove_one x h.
Proof.
  induction h as [|y h IH]; intros Hx; [by apply elem_of_nil in Hx|].
  simpl. destruct (decide (y = x)) as [->|Hne]; [done|].
  apply elem_of_cons in Hx as [->|Hx]; [done|].
  rewrite (IH Hx) at 1. apply Permutation_swap.
Qed.

Lemma heappop_spec h m h' :
  heappop h = Some (m, h') →
  h ≡ₚ m :: h' ∧ ∀ x, x ∈ h → m.1 ≤ x.1.
Proof.
  destruct h as [|x rest]; [done|]. unfold heappop. intros [= <- <-].
  destruct (heap_min_spec x rest) as [Hin Hle]. split; [|done].
  by apply remove_one_perm.
Qed.

Lemma heappop_None h : heappop h = None → h = [].
Proof. by destruct h. Qed.

(** ** Walks *)

Create HintDb walks discriminated.
#[local] Hint Constructors walk : walks.

Lemma walk_nonneg g s v d : nonneg_weights g → walk g s v d → 0 ≤ d.
Proof.
  intros Hnn. induction 1 as [|u v w d _ IH Hin]; [done|].
  specialize (Hnn _ _ _ Hin). lia.
Qed.

Lemma edges_of_Some g u es :
  adjacency_list g !! u = Some es → edges_of g u = es.
Proof. unfold edges_of. by intros ->. Qed.

(** Graphs built with [add_edge] are closed. *)
Lemma apply_call_closed g c : graph_closed g → graph_closed (apply_call g c).
Proof.
  intros Hcl u v w. unfold apply_call. rewrite edges_of_add_edge.
  intros Hin.
  assert (v = call_u c ∨ v = call_v c ∨
          is_Some (adjacency_list g !! v)) as Hv.
  { repeat case_decide; destruct (call_undirected c);
      rewrite ?elem_of_app, ?elem_of_cons, ?elem_of_nil in Hin;
      naive_solver. }
  rewrite add_edge_lookup.
  repeat case_decide; naive_solver.
Qed.

Lemma build_graph_closed calls : graph_closed (build_graph calls).
Proof.
  induction calls as [|c calls IH] using rev_ind.
  - intros u v w. unfold edges_of, build_graph. simpl.
    rewrite lookup_empty. simpl. by intros ?%elem_of_nil.
  - rewrite build_graph_snoc. by apply apply_call_closed.
Qed.

(** ** The invariant is preserved *)

(** Name the fields of an invariant [HI : Inv g start st done todo]. *)
Ltac inv_fields HI :=
  destruct HI as [Hdd Hdp Hst Hwalk Hheap Hopen Hdone Hmono Htodo Hnd
                  Hps Hpi Hpf Hpo].

Lemma prev_ok_insert start prev done v p :
  v ∉ done → prev_ok start prev done → prev_ok start (<[v := p]> prev) done.
Proof.
  induction done as [|x rest IH]; intros Hv Hok; [done|].
  apply not_elem_of_cons in Hv as [Hvx Hv]. destruct Hok as [Hx Hok].
  simpl. rewrite lookup_insert_ne by done. split; [done|]. by apply IH.
Qed.

Lemma Dist_ltb_false c dv :
  Dist_ltb (Fin c) dv = false → ∃ d, dv = Fin d ∧ d ≤ c.
Proof.
  destruct dv as [d|]; simpl; [|done]. intros ?%Z.ltb_ge. eauto.
Qed.

Section main_loop.

Context (g : Graph) (start : string).
Hypothesis Hcl : graph_closed g.
Hypothesis Hnn : nonneg_weights g.

(** One execution of the body of the [for] loop. *)
Lemma relax_inv st u du done e todo :
  Inv g start st (u :: done) (e :: todo) →
  dist st !! u = Some (Fin du) →
  ∃ st', relax u du st e = Ret st' ∧
    Inv g start st' (u :: done) todo ∧
    dist st' !! u = Some (Fin du) ∧
    (length (heap st') ≤ S (length (heap st)))%nat.
Proof.
  intros HI Hu. destruct e as [v w]. inv_fields HI.
  destruct (Htodo (v, w)) as (u' & Hhd & Hin); [by left|].
  simpl in Hhd. injection Hhd as <-.
  assert (is_Some (dist st !! v)) as [dv Hdv].
  { apply elem_of_dom. rewrite Hdd. apply elem_of_dom. by eapply Hcl. }
  pose proof (Hnn _ _ _ Hin) as Hw.
  pose proof (walk_nonneg _ _ _ _ Hnn (Hwalk _ _ Hu)) as Hdu0.
  unfold relax. rewrite Hdv.
  destruct (Dist_ltb (Fin (du + w)) dv) eqn:Hlt.
  - (* the distance of [v] improves *)
    assert (v ∉ u :: done) as Hvnd.
    { intros Hvd. destruct (Hdone v Hvd) as (dv' & Hdv' & _).
      pose proof (Hmono u du v dv' eq_refl Hu Hvd Hdv') as Hle.
      rewrite Hdv in Hdv'. injection Hdv' as ->.
      simpl in Hlt. apply Z.ltb_lt in Hlt. lia. }
    assert (v ≠ start) as Hvs.
    { intros ->. rewrite Hst in Hdv. injection Hdv as <-.
      simpl in Hlt. apply Z.ltb_lt in Hlt. lia. }
    assert (v ≠ u) as Hvu.
    { intros ->. apply Hvnd. by left. }
    assert (∀ x, x ∈ u :: done → x ≠ v) as Hne.
    { intros x Hx ->. done. }
    eexists. split; [done|]. split; [|split].
    + constructor; simpl.
      * rewrite dom_insert_lookup_L; eauto.
      * rewrite dom_insert_lookup_L; [done|].
        apply elem_of_dom. rewrite Hdp, <- Hdd. apply elem_of_dom. eauto.
      * by rewrite lookup_insert_ne.
      * intros x d Hx. destruct (decide (x = v)) as [->|Hxv].
        -- rewrite lookup_insert_eq in Hx. injection Hx as <-.
           eauto with walks.
        -- rewrite lookup_insert_ne in Hx by done. by apply Hwalk.
      * intros d x Hx. unfold heappush in Hx.
        apply elem_of_cons in Hx as [[= -> ->]|Hx].
        { exists (du + w). rewrite lookup_insert_eq. split; [done|lia]. }
        destruct (decide (x = v)) as [->|Hxv].
        -- destruct (Hheap _ _ Hx) as (d' & Hd' & Hle).
           rewrite Hdv in Hd'. injection Hd' as ->.
           simpl in Hlt. apply Z.ltb_lt in Hlt.
           exists (du + w). rewrite lookup_insert_eq. split; [done|lia].
        -- rewrite lookup_insert_ne by done. by apply Hheap.
      * intros x d Hx. unfold heappush. destruct (decide (x = v)) as [->|Hxv].
        -- rewrite lookup_insert_eq in Hx. injection Hx as <-. right. by left.
        -- rewrite lookup_insert_ne in Hx by done.
           destruct (Hopen _ _ Hx); [by left|right; by right].
      * intros u' Hu'. pose proof (Hne _ Hu') as Hu'v.
        destruct (Hdone u' Hu') as (du' & Hdu' & Hhb & Hedges).
        exists du'. rewrite lookup_insert_ne by done. split; [done|]. split.
        -- intros d x Hx. unfold heappush in Hx.
           apply elem_of_cons in Hx as [[= -> ->]|Hx]; [|by eapply Hhb].
           pose proof (Hmono u du u' du' eq_refl Hu Hu' Hdu'). lia.
        -- intros v' w' Hin'.
           destruct (Hedges v' w' Hin') as [(dv' & Hdv' & Hle)|[Hhd' Hin2]].
           ++ left. destruct (decide (v' = v)) as [->|Hv'v].
              ** exists (du + w). rewrite lookup_insert_eq.
                 rewrite Hdv in Hdv'. injection Hdv' as ->.
                 simpl in Hlt. apply Z.ltb_lt in Hlt. split; [done|lia].
              ** exists dv'. by rewrite lookup_insert_ne.
           ++ simpl in Hhd'. injection Hhd' as <-.
              rewrite Hu in Hdu'. injection Hdu' as <-.
              apply elem_of_cons in Hin2 as [[= -> ->]|Hin2].
              ** left. exists (du + w). rewrite lookup_insert_eq.
                 split; [done|lia].
              ** right. done.
      * intros u0 d0 u1 d1 Hhd Hd0 Hu1 Hd1. simpl in Hhd. injection Hhd as <-.
        rewrite lookup_insert_ne in Hd0 by done.
        rewrite lookup_insert_ne in Hd1 by (by apply not_eq_sym, Hne).
        by eapply (Hmono u d0 u1 d1).
      * intros e He. apply Htodo. by right.
      * done.
      * by rewrite lookup_insert_ne.
      * intros x Hx. destruct (decide (x = v)) as [->|Hxv].
        -- by rewrite lookup_insert_eq in Hx.
        -- rewrite lookup_insert_ne in Hx by done.
           rewrite lookup_insert_ne by done. by apply Hpi.
      * intros x d Hx Hxs. destruct (decide (x = v)) as [->|Hxv].
        -- rewrite lookup_insert_eq in Hx. injection Hx as <-.
           exists u, w, du. rewrite lookup_insert_eq.
           rewrite lookup_insert_ne by done.
           repeat split; try done. by left.
        -- rewrite lookup_insert_ne in Hx by done.
           destruct (Hpf x d Hx Hxs) as (u' & w' & du' & Hp & Hud & Hin' & Hdu' & ->).
           exists u', w', du'. rewrite lookup_insert_ne by done.
           rewrite lookup_insert_ne by (by apply not_eq_sym, Hne).
           done.
      * by apply (prev_ok_insert _ _ (u :: done)).
    + simpl. by rewrite lookup_insert_ne.
    + simpl. lia.
  - (* no improvement *)
    apply Dist_ltb_false in Hlt as (dv' & -> & Hle).
    exists st. split; [done|]. split; [|split; [done|lia]].
    constructor; try done.
    + intros u' Hu'.
      destruct (Hdone u' Hu') as (du' & Hdu' & Hhb & Hedges).
      exists du'. split; [done|]. split; [done|].
      intros v' w' Hin'.
      destruct (Hedges v' w' Hin') as [?|[Hhd' Hin2]]; [by left|].
      simpl in Hhd'. injection Hhd' as <-.
      rewrite Hu in Hdu'. injection Hdu' as <-.
      apply elem_of_cons in Hin2 as [[= -> ->]|Hin2]; [left; eauto|by right].
    + intros e He. apply Htodo. by right.
Qed.

(** The whole [for] loop over what remains of the adjacency list of [u]. *)
Lemma for_each_relax_inv u du done todo :
  ∀ st, Inv g start st (u :: done) todo →
  dist st !! u = Some (Fin du) →
  ∃ st', for_each (relax u du) todo st = Ret st' ∧
    Inv g start st' (u :: done) [] ∧
    (length (heap st') ≤ length (heap st) + length todo)%nat.
Proof.
  induction todo as [|e todo IH]; intros st HI Hu.
  - exists st. simpl. split; [done|]. split; [done|lia].
  - destruct (relax_inv _ _ _ _ _ _ HI Hu)
      as (st1 & Hrelax & HI1 & Hu1 & Hlen1).
    destruct (IH st1 HI1 Hu1) as (st2 & Hrest & HI2 & Hlen2).
    exists st2. simpl. rewrite Hrelax. split; [done|]. split; [done|lia].
Qed.

(** Scanning the adjacency list of a vertex a second time changes nothing. *)
Lemma for_each_relax_done st done u du es :
  Inv g start st done [] → u ∈ done → dist st !! u = Some (Fin du) →
  (∀ e, e ∈ es → e ∈ edges_of g u) →
  for_each (relax u du) es st = Ret st.
Proof.
  intros HI Hud Hu. induction es as [|[v w] es IH]; intros Hes; [done|].
  simpl. destruct (inv_done _ _ _ _ _ HI u Hud) as (du' & Hdu' & _ & Hedges).
  rewrite Hu in Hdu'. injection Hdu' as <-.
  destruct (Hedges v w) as [(dv & Hdv & Hle)|[_ Hin]].
  - apply Hes. by left.
  - rewrite Hdv. simpl. destruct (du + w <? dv) eqn:E.
    + apply Z.ltb_lt in E. lia.
    + apply IH. intros e He. apply Hes. by right.
  - by apply elem_of_nil in Hin.
Qed.

(** Popping a stale entry, or an entry of a vertex that has been scanned. *)
Lemma Inv_pop_skip st done d u h :
  Inv g start st done [] →
  heap st ≡ₚ (d, u) :: h →
  (u ∈ done ∨ ∃ du, dist st !! u = Some (Fin du) ∧ du < d) →
  Inv g start {| dist := dist st; prev := prev st; heap := h |} done [].
Proof.
  intros HI Hperm Hskip. inv_fields HI.
  assert (∀ x, x ∈ h → x ∈ heap st) as Hsub.
  { intros x Hx. rewrite Hperm. by right. }
  constructor; simpl; try done.
  - intros d' v Hv. apply Hheap. by apply Hsub.
  - intros v dv Hv. destruct (Hopen v dv Hv) as [?|Hin]; [by left|].
    rewrite Hperm in Hin. apply elem_of_cons in Hin as [[= -> ->]|Hin].
    + destruct Hskip as [?|(du & Hdu & Hlt)]; [by left|].
      rewrite Hv in Hdu. injection Hdu as <-. lia.
    + by right.
  - intros u' Hu'. destruct (Hdone u' Hu') as (du' & Hdu' & Hhb & Hedges).
    exists du'. split; [done|]. split; [|done].
    intros d' x Hx. eapply Hhb. by apply Hsub.
Qed.

(** Popping the entry of a vertex that is scanned for the first time. *)
Lemma Inv_pop_new st done d u h :
  Inv g start st done [] →
  heap st ≡ₚ (d, u) :: h →
  (∀ x, x ∈ heap st → d ≤ x.1) →
  dist st !! u = Some (Fin d) →
  u ∉ done →
  Inv g start {| dist := dist st; prev := prev st; heap := h |}
    (u :: done) (edges_of g u).
Proof.
  intros HI Hperm Hmin Hu Hnew. inv_fields HI.
  assert (∀ x, x ∈ h → x ∈ heap st) as Hsub.
  { intros x Hx. rewrite Hperm. by right. }
  assert ((d, u) ∈ heap st) as Hpopped.
  { rewrite Hperm. by left. }
  constructor; simpl; try done.
  - intros d' v Hv. apply Hheap. by apply Hsub.
  - intros v dv Hv. destruct (Hopen v dv Hv) as [?|Hin]; [left; by right|].
    rewrite Hperm in Hin. apply elem_of_cons in Hin as [[= -> ->]|Hin].
    + left. by left.
    + by right.
  - intros u' Hu'. apply elem_of_cons in Hu' as [->|Hu'].
    + exists d. split; [done|]. split.
      * intros d' x Hx. apply (Hmin (d', x)). by apply Hsub.
      * intros v w Hin. by right.
    + destruct (Hdone u' Hu') as (du' & Hdu' & Hhb & Hedges).
      exists du'. split; [done|]. split.
      * intros d' x Hx. eapply Hhb. by apply Hsub.
      * intros v w Hin. destruct (Hedges v w Hin) as [?|[_ Hnil]]; [by left|].
        by apply elem_of_nil in Hnil.
  - intros u0 d0 u1 d1 [= <-] Hd0 Hu1 Hd1.
    rewrite Hu in Hd0. injection Hd0 as <-.
    apply elem_of_cons in Hu1 as [->|Hu1].
    + rewrite Hu in Hd1. injection Hd1 as <-. lia.
    + destruct (Hdone u1 Hu1) as (du' & Hdu' & Hhb & _).
      rewrite Hd1 in Hdu'. injection Hdu' as <-.
      by apply (Hhb d u).
  - intros e He. by exists u.
  - by apply NoDup_cons.
  - intros v dv Hv Hvs.
    destruct (Hpf v dv Hv Hvs) as (u' & w' & du' & Hp & Hud & Hrest).
    exists u', w', du'. split; [done|]. split; [by right|done].
  - split; [|done]. destruct (decide (u = start)) as [->|Hus].
    + by left.
    + right. destruct (Hpf u d Hu Hus) as (u' & w' & du' & Hp & Hud & _).
      by exists u'.
Qed.

Lemma budget_cons done u :
  u ∈ vertices g → u ∉ done →
  (budget g (u :: done) + length (edges_of g u) ≤ budget g done)%nat.
Proof.
  unfold budget. generalize (vertices g) as l.
  assert (∀ l : list string,
    (sum_list_with
       (λ x, if decide (x ∈ u :: done) then O else length (edges_of g x)) l
     ≤ sum_list_with
         (λ x, if decide (x ∈ done) then O else length (edges_of g x)) l)%nat)
    as Hle.
  { induction l as [|x l IH]; simpl; [lia|].
    destruct (decide (x ∈ u :: done)) as [Hx|Hx];
      destruct (decide (x ∈ done)) as [Hx'|Hx']; try lia.
    exfalso. apply Hx. by right. }
  induction l as [|x l IH]; intros Hin Hnew; [by apply elem_of_nil in Hin|].
  simpl. apply elem_of_cons in Hin as [<-|Hin].
  - destruct (decide (u ∈ u :: done)) as [_|Hx]; [|exfalso; apply Hx; by left].
    destruct (decide (u ∈ done)); [done|]. specialize (Hle l). lia.
  - specialize (IH Hin Hnew).
    destruct (decide (x ∈ u :: done)) as [Hx|Hx];
      destruct (decide (x ∈ done)) as [Hx'|Hx']; try lia.
    exfalso. apply Hx. by right.
Qed.

(** One iteration of [while heap]: the invariant is kept and the measure
    [length heap + budget] decreases. *)
Lemma dijkstra_step_inv st done d u h :
  Inv g start st done [] →
  heappop (heap st) = Some ((d, u), h) →
  ∃ st' done',
    dijkstra_step g st d u h = Ret st' ∧
    Inv g start st' done' [] ∧
    (length (heap st') + budget g done' < length (heap st) + budget g done)%nat.
Proof.
  intros HI Hpop.
  apply heappop_spec in Hpop as [Hperm Hmin].
  assert (length (heap st) = S (length h)) as Hlen.
  { by rewrite Hperm. }
  assert ((d, u) ∈ heap st) as Hpopped.
  { rewrite Hperm. by left. }
  destruct (inv_heap _ _ _ _ _ HI d u Hpopped) as (du & Hdu & Hle).
  unfold dijkstra_step. rewrite Hdu. simpl.
  destruct (du <? d) eqn:Hstale.
  - (* stale entry *)
    apply Z.ltb_lt in Hstale.
    eexists _, done. split; [done|]. split.
    + eapply Inv_pop_skip; eauto.
    + simpl. lia.
  - apply Z.ltb_ge in Hstale. assert (du = d) as -> by lia.
    assert (is_Some (adjacency_list g !! u)) as [es Hes].
    { apply elem_of_dom. rewrite <- (inv_dom_dist _ _ _ _ _ HI).
      apply elem_of_dom. eauto. }
    rewrite Hes. pose proof (edges_of_Some _ _ _ Hes) as Hes'.
    destruct (decide (u ∈ done)) as [Hud|Hud].
    + (* scanned before: nothing changes *)
      assert (Inv g start {| dist := dist st; prev := prev st; heap := h |}
                done []) as HI1.
      { eapply Inv_pop_skip; eauto. }
      exists {| dist := dist st; prev := prev st; heap := h |}, done.
      split; [|split; [done|simpl; lia]].
      eapply for_each_relax_done; eauto. intros e He. by rewrite Hes'.
    + (* scanned for the first time *)
      assert (Inv g start {| dist := dist st; prev := prev st; heap := h |}
                (u :: done) (edges_of g u)) as HI1.
      { eapply Inv_pop_new; eauto. }
      destruct (for_each_relax_inv _ d _ _ _ HI1)
        as (st' & Hfor & HI' & Hlen'); [done|].
      exists st', (u :: done). rewrite <- Hes'. split; [done|]. split; [done|].
      simpl in Hlen'.
      assert (u ∈ vertices g) as Huv.
      { unfold vertices. apply elem_of_elements, elem_of_dom. eauto. }
      pose proof (budget_cons done u Huv Hud). lia.
Qed.

(** The main loop terminates within the fuel given by the measure. *)
Lemma dijkstra_loop_inv :
  ∀ fuel st done,
    Inv g start st done [] →
    (length (heap st) + budget g done < fuel)%nat →
    ∃ st' done',
      dijkstra_loop fuel g st = Some (Ret st') ∧
      Inv g start st' done' [] ∧ heap st' = [].
Proof.
  induction fuel as [|fuel IH]; intros st done HI Hfuel; [lia|].
  simpl. destruct (heappop (heap st)) as [[[d u] h]|] eqn:Hpop.
  - destruct (dijkstra_step_inv _ _ _ _ _ HI Hpop)
      as (st1 & done1 & Hstep & HI1 & Hdec).
    rewrite Hstep. apply (IH st1 done1 HI1). lia.
  - apply heappop_None in Hpop. by exists st, done.
Qed.

End main_loop.

(** ** The initial state *)

Lemma const_map_lookup {A : Type} (c : A) (X : gset string) (x : string) :
  (list_to_map ((λ v, (v, c)) <$> elements X) : gmap string A) !! x =
    if decide (x ∈ X) then Some c else None.
Proof.
  assert (((λ v : string, (v, c)) <$> elements X).*1 = elements X) as Hfst.
  { rewrite <- list_fmap_compose. apply list_fmap_id. }
  destruct (decide (x ∈ X)) as [Hx|Hx].
  - apply elem_of_list_to_map_1.
    + rewrite Hfst. apply NoDup_elements.
    + apply list_elem_of_fmap. exists x. split; [done|].
      by apply elem_of_elements.
  - apply not_elem_of_list_to_map_1. rewrite Hfst.
    by rewrite elem_of_elements.
Qed.

Lemma dijkstra_init_dist g start v :
  dist (dijkstra_init g start) !! v =
    if decide (v = start) then Some (Fin 0)
    else if decide (v ∈ dom (adjacency_list g)) then Some Inf else None.
Proof.
  unfold dijkstra_init, vertices. simpl.
  destruct (decide (v = start)) as [->|Hne].
  - by rewrite lookup_insert_eq.
  - rewrite lookup_insert_ne by done. apply const_map_lookup.
Qed.

Lemma dijkstra_init_prev g start v :
  prev (dijkstra_init g start) !! v =
    if decide (v ∈ dom (adjacency_list g)) then Some None else None.
Proof. unfold dijkstra_init, vertices. simpl. apply const_map_lookup. Qed.

Lemma dijkstra_init_inv g start :
  is_Some (adjacency_list g !! start) →
  Inv g start (dijkstra_init g start) [] [].
Proof.
  intros Hstart. apply elem_of_dom in Hstart.
  assert (∀ v d, dist (dijkstra_init g start) !! v = Some (Fin d) →
                 v = start ∧ d = 0) as Hfin.
  { intros v d. rewrite dijkstra_init_dist.
    repeat case_decide; naive_solver. }
  constructor.
  - apply set_eq. intros x. rewrite !elem_of_dom, dijkstra_init_dist.
    rewrite <- elem_of_dom.
    repeat case_decide; subst; split; intros H'; try done;
      try (by eexists); by destruct H'.
  - apply set_eq. intros x. rewrite elem_of_dom, dijkstra_init_prev.
    case_decide; split; intros H'; try done; try (by eexists); by destruct H'.
  - rewrite dijkstra_init_dist. by case_decide.
  - intros v d Hv. apply Hfin in Hv as [-> ->]. auto with walks.
  - intros d v Hin. apply list_elem_of_singleton in Hin as [= -> ->].
    exists 0. rewrite dijkstra_init_dist. by case_decide.
  - intros v d Hv. apply Hfin in Hv as [-> ->]. right. by left.
  - intros u Hu. by apply elem_of_nil in Hu.
  - intros u0 d0 u du Hhd. done.
  - intros e He. by apply elem_of_nil in He.
  - constructor.
  - rewrite dijkstra_init_prev. by case_decide.
  - intros v. rewrite dijkstra_init_dist, dijkstra_init_prev.
    repeat case_decide; naive_solver.
  - intros v d Hv Hne. by apply Hfin in Hv as [-> ->].
  - done.
Qed.

Lemma budget_nil g : budget g [] = edge_count g.
Proof.
  unfold budget, edge_count. induction (vertices g) as [|x l IH]; [done|].
  simpl. destruct (decide (x ∈ [])) as [Hx|_].
  - by apply elem_of_nil in Hx.
  - by f_equal.
Qed.

(** ** Termination and the final state *)

(** On a closed graph with non-negative weights and a known start vertex
    the loop returns, and the final state satisfies the invariant with an
    empty heap. *)
Lemma dijkstra_loop_terminates g start fuel :
  graph_closed g → nonneg_weights g →
  is_Some (adjacency_list g !! start) →
  (dijkstra_fuel g ≤ fuel)%nat →
  ∃ st done,
    dijkstra_loop fuel g (dijkstra_init g start) = Some (Ret st) ∧
    Inv g start st done [] ∧ heap st = [].
Proof.
  intros Hcl Hnn Hstart Hfuel.
  apply (dijkstra_loop_inv g start Hcl Hnn fuel _ []).
  - by apply dijkstra_init_inv.
  - rewrite budget_nil. unfold dijkstra_fuel in Hfuel. simpl. lia.
Qed.

(** With an empty heap every vertex with a finite distance has been scanned,
    so every edge out of it is relaxed: no walk beats the stored distance. *)
Lemma Inv_final_lower g start st done v d :
  Inv g start st done [] → heap st = [] →
  walk g start v d →
  ∃ dv, dist st !! v = Some (Fin dv) ∧ dv ≤ d.
Proof.
  intros HI Hheap. induction 1 as [|u v w d _ (du & Hdu & Hle) Hin].
  - exists 0. split; [apply (inv_start _ _ _ _ _ HI)|done].
  - destruct (inv_open _ _ _ _ _ HI u du Hdu) as [Hud|Hin'].
    + destruct (inv_done _ _ _ _ _ HI u Hud) as (du' & Hdu' & _ & Hedges).
      rewrite Hdu in Hdu'. injection Hdu' as <-.
      destruct (Hedges v w Hin) as [(dv & Hdv & Hle')|[_ Hnil]].
      * exists dv. split; [done|lia].
      * by apply elem_of_nil in Hnil.
    + rewrite Hheap in Hin'. by apply elem_of_nil in Hin'.
Qed.

Lemma Inv_final_dist g start st done v :
  Inv g start st done [] → heap st = [] →
  is_Some (adjacency_list g !! v) →
  (reachable g start v →
     ∃ m, dist st !! v = Some (Fin m) ∧ shortest_distance g start v m) ∧
  (¬ reachable g start v → dist st !! v = Some Inf).
Proof.
  intros HI Hheap Hv. split.
  - intros [d Hd].
    destruct (Inv_final_lower _ _ _ _ _ _ HI Hheap Hd) as (m & Hm & _).
    exists m. split; [done|]. split.
    + by apply (inv_walk _ _ _ _ _ HI).
    + intros d' Hd'.
      destruct (Inv_final_lower _ _ _ _ _ _ HI Hheap Hd') as (m' & Hm' & Hle).
      rewrite Hm in Hm'. by injection Hm' as <-.
  - intros Hnot.
    assert (is_Some (dist st !! v)) as [[m|] Hm]; [|exfalso|done].
    { apply elem_of_dom. rewrite (inv_dom_dist _ _ _ _ _ HI).
      by apply elem_of_dom. }
    apply Hnot. exists m. by apply (inv_walk _ _ _ _ _ HI).
Qed.

(** ** Routes *)

Lemma last_cons_default {A : Type} (x y : A) (l : list A) :
  default x (last (y :: l)) = default y (last l).
Proof.
  destruct (last l) as [z|] eqn:E.
  - apply last_Some in E as [l' ->].
    change (y :: l' ++ [z]) with ((y :: l') ++ [z]). by rewrite last_snoc.
  - by apply last_None in E as ->.
Qed.

Lemma route_end_cons s e steps : route_end s (e :: steps) = route_end e.1 steps.
Proof. unfold route_end. rewrite fmap_cons. apply last_cons_default. Qed.

Lemma route_end_snoc s steps e : route_end s (steps ++ [e]) = e.1.
Proof. unfold route_end. rewrite fmap_app. simpl. by rewrite last_snoc. Qed.

Lemma route_weight_snoc steps e :
  route_weight (steps ++ [e]) = route_weight steps + e.2.
Proof.
  unfold route_weight. induction steps as [|e' steps IH]; simpl; [lia|].
  rewrite IH. lia.
Qed.

Lemma route_ok_snoc g s steps e :
  route_ok g s (steps ++ [e]) ↔
  route_ok g s steps ∧ e ∈ edges_of g (route_end s steps).
Proof.
  revert s. induction steps as [|e' steps IH]; intros s; simpl.
  - unfold route_end. simpl. tauto.
  - rewrite IH, route_end_cons. tauto.
Qed.

(** Walks and routes are the same thing. *)
Lemma route_walk g s steps :
  route_ok g s steps → walk g s (route_end s steps) (route_weight steps).
Proof.
  induction steps as [|e steps IH] using rev_ind; intros Hok.
  - constructor.
  - apply route_ok_snoc in Hok as [Hok He].
    rewrite route_end_snoc, route_weight_snoc. destruct e as [v w].
    apply walk_snoc with (route_end s steps); [by apply IH|done].
Qed.

Lemma walk_route g s v d :
  walk g s v d →
  ∃ steps, route_ok g s steps ∧ route_end s steps = v ∧ route_weight steps = d.
Proof.
  induction 1 as [|u v w d _ (steps & Hok & Hend & Hw) Hin].
  - by exists [].
  - exists (steps ++ [(v, w)]). split; [|split].
    + apply route_ok_snoc. by rewrite Hend.
    + by rewrite route_end_snoc.
    + rewrite route_weight_snoc. simpl. lia.
Qed.

(** Following the predecessors from a scanned vertex gives a simple path
    whose weight is the distance of the vertex. *)
Lemma prev_chain_simple_path g start (dist : gmap string Dist)
    (prev : gmap string (option string)) done :
  prev_ok start prev done → NoDup done →
  dist !! start = Some (Fin 0) → prev !! start = Some None →
  (∀ v d, v ∈ done → dist !! v = Some (Fin d) → v ≠ start →
     ∃ u w du, prev !! v = Some (Some u) ∧ (v, w) ∈ edges_of g u ∧
               dist !! u = Some (Fin du) ∧ d = du + w) →
  (∀ v, v ∈ done → ∃ d, dist !! v = Some (Fin d)) →
  ∀ x, x ∈ done →
    ∃ steps, route_ok g start steps ∧ route_end start steps = x ∧
      dist !! x = Some (Fin (route_weight steps)) ∧
      NoDup (start :: steps.*1) ∧
      ∀ y, y ∈ start :: steps.*1 → y ∈ done.
Proof.
  intros Hok Hnd Hstart Hpstart.
  induction done as [|y rest IH]; intros Hedge Hfin x Hx;
    [by apply elem_of_nil in Hx|].
  destruct Hok as [Hy Hok]. apply NoDup_cons in Hnd as [Hyrest Hnd].
  assert (∀ x, x ∈ rest →
    ∃ steps, route_ok g start steps ∧ route_end start steps = x ∧
      dist !! x = Some (Fin (route_weight steps)) ∧
      NoDup (start :: steps.*1) ∧
      ∀ y, y ∈ start :: steps.*1 → y ∈ rest) as IH'.
  { apply IH; try done.
    - intros v d Hv. apply Hedge. by right.
    - intros v Hv. apply Hfin. by right. }
  apply elem_of_cons in Hx as [->|Hx].
  - destruct Hy as [[-> _]|(u & Hu & Hin)].
    + exists []. repeat split; try done.
      * apply NoDup_singleton.
      * intros z ->%list_elem_of_singleton. by left.
    + destruct (Hfin y) as [d Hd]; [by left|].
      assert (y ≠ start) as Hne by (intros ->; congruence).
      destruct (Hedge y d) as (u' & w & du & Hu' & Hw & Hdu & ->);
        [by left|done|done|].
      rewrite Hu in Hu'. injection Hu' as <-.
      destruct (IH' u Hin) as (steps & Hrok & Hend & Hdist & Hnd' & Hsub).
      rewrite Hdu in Hdist. injection Hdist as ->.
      exists (steps ++ [(y, w)]). split; [|split; [|split; [|split]]].
      * apply route_ok_snoc. by rewrite Hend.
      * by rewrite route_end_snoc.
      * rewrite route_weight_snoc. by rewrite Hd.
      * rewrite fmap_app. simpl.
        change (start :: steps.*1 ++ [y]) with ((start :: steps.*1) ++ [y]).
        apply NoDup_app. split; [done|]. split; [|apply NoDup_singleton].
        intros z Hz ->%list_elem_of_singleton. by apply Hyrest, Hsub.
      * rewrite fmap_app. simpl.
        change (start :: steps.*1 ++ [y]) with ((start :: steps.*1) ++ [y]).
        intros z Hz. apply elem_of_app in Hz as [Hz|Hz].
        -- right. by apply Hsub.
        -- apply list_elem_of_singleton in Hz as ->. by left.
  - destruct (IH' x Hx) as (steps & Hrok & Hend & Hdist & Hnd' & Hsub).
    exists steps. repeat split; try done. intros z Hz. right. by apply Hsub.
Qed.

(** In the final state every finite distance is the weight of a simple
    path. *)
Lemma Inv_final_simple_path g start st done v m :
  Inv g start st done [] → heap st = [] →
  dist st !! v = Some (Fin m) → simple_path g start v m.
Proof.
  intros HI Hheap Hm.
  assert (v ∈ done) as Hv.
  { destruct (inv_open _ _ _ _ _ HI v m Hm) as [?|Hin]; [done|].
    rewrite Hheap in Hin. by apply elem_of_nil in Hin. }
  destruct (prev_chain_simple_path g start (dist st) (prev st) done)
    with (x := v) as (steps & Hrok & Hend & Hdist & Hnd & _); try done.
  - apply (inv_prev_ok _ _ _ _ _ HI).
  - apply (inv_nodup _ _ _ _ _ HI).
  - apply (inv_start _ _ _ _ _ HI).
  - apply (inv_prev_start _ _ _ _ _ HI).
  - intros x d Hx Hd Hne.
    destruct (inv_prev_fin _ _ _ _ _ HI x d Hd Hne)
      as (u & w & du & Hu & _ & Hw & Hdu & ->).
    by exists u, w, du.
  - intros x Hx. destruct (inv_done _ _ _ _ _ HI x Hx) as (d & Hd & _). eauto.
  - exists steps. rewrite Hm in Hdist. injection Hdist as ->. done.
Qed.

Lemma vertices_spec g v :
  v ∈ vertices g ↔ is_Some (adjacency_list g !! v).
Proof. unfold vertices. by rewrite elem_of_elements, elem_of_dom. Qed.

Lemma dijkstra_heap_unfold fuel g start st :
  dijkstra_loop fuel g (dijkstra_init g start) = Some (Ret st) →
  dijkstra_heap fuel g start = Some (Ret (dist st, prev st)).
Proof. unfold dijkstra_heap. by intros ->. Qed.

(** C1: on every graph built with [add_edge] whose weights are all
    non-negative, and for every start vertex of the graph, [dijkstra_heap]
    returns (given the fuel [dijkstra_fuel] or more) a distance map over the
    vertices of the graph that gives every vertex reachable from [start]
    the least total weight of a walk from [start] to it, which is also the
    weight of a path without a repeated vertex, and [Inf] to every vertex
    that is not reachable. *)
Theorem dijkstra_heap_correct (calls : list edge_call) (start : string)
    (fuel : nat) :
  nonneg_weights (build_graph calls) →
  start ∈ vertices (build_graph calls) →
  (dijkstra_fuel (build_graph calls) ≤ fuel)%nat →
  ∃ dist prev,
    dijkstra_heap fuel (build_graph calls) start = Some (Ret (dist, prev)) ∧
    dom dist = dom (adjacency_list (build_graph calls)) ∧
    ∀ v, v ∈ vertices (build_graph calls) →
      (reachable (build_graph calls) start v →
         ∃ m, dist !! v = Some (Fin m) ∧
              shortest_distance (build_graph calls) start v m ∧
              simple_path (build_graph calls) start v m) ∧
      (¬ reachable (build_graph calls) start v → dist !! v = Some Inf).
Proof.
  intros Hnn Hstart Hfuel.
  apply vertices_spec in Hstart.
  destruct (dijkstra_loop_terminates _ start fuel
              (build_graph_closed calls) Hnn Hstart Hfuel)
    as (st & done & Hloop & HI & Hheap).
  exists (dist st), (prev st). split; [by apply dijkstra_heap_unfold|].
  split; [apply (inv_dom_dist _ _ _ _ _ HI)|].
  intros v Hv. apply vertices_spec in Hv.
  destruct (Inv_final_dist _ start st done v HI Hheap Hv) as [Hreach Hun].
  split; [|done]. intros Hre. destruct (Hreach Hre) as (m & Hm & Hshort).
  exists m. split; [done|]. split; [done|].
  by eapply Inv_final_simple_path.
Qed.

(** A check of [nonneg_weights] that computes. *)
Lemma nonneg_weights_check g :
  forallb (λ x, forallb (λ e : string * Z, 0 <=? e.2) (edges_of g x))
          (vertices g) = true →
  nonneg_weights g.
Proof.
  intros Hall u v w Hin.
  destruct (adjacency_list g !! u) as [es|] eqn:Hu.
  - rewrite forallb_forall in Hall.
    assert (u ∈ vertices g) as Huv by (apply vertices_spec; eauto).
    apply list_elem_of_In, Hall in Huv.
    rewrite forallb_forall in Huv.
    apply list_elem_of_In, Huv in Hin. simpl in Hin. lia.
  - unfold edges_of in Hin. rewrite Hu in Hin. by apply elem_of_nil in Hin.
Qed.

Lemma vertices_check g v :
  bool_decide (v ∈ dom (adjacency_list g)) = true → v ∈ vertices g.
Proof.
  intros H%bool_decide_eq_true. unfold vertices. by apply elem_of_elements.
Qed.

Lemma dijkstra_heap_correct_witness :
  ∃ dist prev,
    dijkstra_heap 40 build_sample_graph "A" = Some (Ret (dist, prev)) ∧
    dom dist = dom (adjacency_list build_sample_graph) ∧
    ∀ v, v ∈ vertices build_sample_graph →
      (reachable build_sample_graph "A" v →
         ∃ m, dist !! v = Some (Fin m) ∧
              shortest_distance build_sample_graph "A" v m ∧
              simple_path build_sample_graph "A" v m) ∧
      (¬ reachable build_sample_graph "A" v → dist !! v = Some Inf).
Proof.
  apply (dijkstra_heap_correct _ "A" 40).
  - apply nonneg_weights_check. vm_compute. reflexivity.
  - apply vertices_check. vm_compute. reflexivity.
  - vm_compute. lia.
Defined.

(** ** Distances never grow *)

Lemma Dist_le_refl d : Dist_le d d.
Proof. destruct d; simpl; [lia|done]. Qed.

Lemma Dist_le_trans a b c : Dist_le a b → Dist_le b c → Dist_le a c.
Proof. destruct a, b, c; simpl; try done; lia. Qed.

Lemma Dist_ltb_le a b : Dist_ltb a b = true → Dist_le a b ∧ a ≠ b.
Proof.
  destruct a as [x|], b as [y|]; simpl; try done.
  intros ?%Z.ltb_lt. split; [lia|]. intros [= ->]. lia.
Qed.

Lemma dist_map_le_refl m : dist_map_le m m.
Proof. intros x old Hx. exists old. split; [done|apply Dist_le_refl]. Qed.

Lemma dist_map_le_trans m1 m2 m3 :
  dist_map_le m1 m2 → dist_map_le m2 m3 → dist_map_le m1 m3.
Proof.
  intros H12 H23 x old Hx.
  destruct (H23 x old Hx) as (mid & Hmid & Hle2).
  destruct (H12 x mid Hmid) as (new & Hnew & Hle1).
  exists new. split; [done|]. by eapply Dist_le_trans.
Qed.

(** The only assignment to [dist] (line 59) strictly lowers the entry. *)
Lemma relax_assignment u d st v w st' :
  relax u d st (v, w) = Ret st' →
  st' = st ∨
  ∃ old, dist st !! v = Some old ∧
         Dist_ltb (Fin (d + w)) old = true ∧
         dist st' = <[v := Fin (d + w)]> (dist st).
Proof.
  unfold relax. destruct (dist st !! v) as [old|] eqn:Hv; [|done].
  destruct (Dist_ltb (Fin (d + w)) old) eqn:Hlt; intros [= <-].
  - right. by exists old.
  - by left.
Qed.

Lemma relax_dist_le u d st e st' :
  relax u d st e = Ret st' → dist_map_le (dist st') (dist st).
Proof.
  destruct e as [v w]. intros Hrelax.
  apply relax_assignment in Hrelax as [->|(old & Hv & Hlt & ->)].
  - apply dist_map_le_refl.
  - intros x old' Hx. destruct (decide (x = v)) as [->|Hne].
    + rewrite lookup_insert_eq. eexists. split; [done|].
      rewrite Hv in Hx. injection Hx as <-. by apply Dist_ltb_le.
    + rewrite lookup_insert_ne by done. exists old'.
      split; [done|apply Dist_le_refl].
Qed.

Lemma for_each_relax_dist_le u d es st st' :
  for_each (relax u d) es st = Ret st' → dist_map_le (dist st') (dist st).
Proof.
  revert st. induction es as [|e es IH]; intros st; simpl.
  - intros [= <-]. apply dist_map_le_refl.
  - destruct (relax u d st e) as [st1|] eqn:Hrelax; [|done].
    intros Hrest. eapply dist_map_le_trans; [by apply IH|].
    by eapply relax_dist_le.
Qed.

Lemma dijkstra_step_dist_le g st d u h st' :
  dijkstra_step g st d u h = Ret st' → dist_map_le (dist st') (dist st).
Proof.
  unfold dijkstra_step. destruct (dist st !! u) as [du|]; [|done].
  destruct (Dist_ltb du (Fin d)).
  - intros [= <-]. apply dist_map_le_refl.
  - destruct (adjacency_list g !! u) as [es|]; [|done].
    intros Hfor. by apply for_each_relax_dist_le in Hfor.
Qed.

Lemma dijkstra_loop_dist_le g fuel st st' :
  dijkstra_loop fuel g st = Some (Ret st') → dist_map_le (dist st') (dist st).
Proof.
  revert st. induction fuel as [|fuel IH]; intros st; [done|]. simpl.
  destruct (heappop (heap st)) as [[[d u] h]|].
  - destruct (dijkstra_step g st d u h) as [st1|] eqn:Hstep; [|done].
    intros Hrest. eapply dist_map_le_trans; [by apply IH|].
    by eapply dijkstra_step_dist_le.
  - intros [= <-]. apply dist_map_le_refl.
Qed.

(** C8: in a run of [dijkstra_heap] the distance map starts with [0] for
    the source and [Inf] for every other vertex; the one assignment to
    [dist[v]] stores a value strictly below the one it replaces, as it is
    guarded by [distance_through_u < dist[v]]; hence over the [for] loop,
    over one iteration of [while], and over the rest of the run from any
    state, no entry of the distance map grows. *)
Theorem dijkstra_dist_monotone (g : Graph) (start : string) :
  (∀ v, v ∈ vertices g →
     dist (dijkstra_init g start) !! v =
       Some (if decide (v = start) then Fin 0 else Inf)) ∧
  (∀ u d st v w st',
     relax u d st (v, w) = Ret st' →
     st' = st ∨
     ∃ old, dist st !! v = Some old ∧
            Dist_ltb (Fin (d + w)) old = true ∧
            dist st' = <[v := Fin (d + w)]> (dist st)) ∧
  (∀ u d es st st',
     for_each (relax u d) es st = Ret st' →
     dist_map_le (dist st') (dist st)) ∧
  (∀ st d u h st',
     dijkstra_step g st d u h = Ret st' →
     dist_map_le (dist st') (dist st)) ∧
  (∀ fuel st st',
     dijkstra_loop fuel g st = Some (Ret st') →
     dist_map_le (dist st') (dist st)).
Proof.
  split; [|split; [|split; [|split]]].
  - intros v Hv. rewrite dijkstra_init_dist.
    destruct (decide (v = start)); [done|].
    unfold vertices in Hv. apply elem_of_elements in Hv. by case_decide.
  - apply relax_assignment.
  - apply for_each_relax_dist_le.
  - apply dijkstra_step_dist_le.
  - intros fuel st st'. apply dijkstra_loop_dist_le.
Qed.

Lemma dijkstra_dist_monotone_witness :
  dijkstra_loop 4 (build_graph [EdgeCall "A" "B" 1 true])
    (dijkstra_init (build_graph [EdgeCall "A" "B" 1 true]) "A")
    = Some (Ret {| dist := {["A" := Fin 0; "B" := Fin 1]};
                   prev := {["A" := None; "B" := Some "A"]};
                   heap := [] |}) ∧
  dist_map_le
    {["A" := Fin 0; "B" := Fin 1]}
    (dist (dijkstra_init (build_graph [EdgeCall "A" "B" 1 true]) "A")).
Proof.
  destruct (dijkstra_dist_monotone (build_graph [EdgeCall "A" "B" 1 true]) "A")
    as (_ & _ & _ & _ & Hloop).
  split.
  - vm_compute. reflexivity.
  - refine (Hloop 4%nat
              (dijkstra_init (build_graph [EdgeCall "A" "B" 1 true]) "A")
              {| dist := {["A" := Fin 0; "B" := Fin 1]};
                 prev := {["A" := None; "B" := Some "A"]};
                 heap := [] |} _).
    vm_compute. reflexivity.
Defined.

(** ** [reconstruct_path] on the output of [dijkstra_heap] *)

(** From a scanned vertex the backward walk exists, stays among the scanned
    vertices and ends at [start]. *)
Lemma prev_ok_backward_walk start prev done x :
  prev_ok start prev done → x ∈ done →
  ∃ p, backward_walk prev x p ∧ head p = Some x ∧ last p = Some start ∧
       (length p ≤ length done)%nat.
Proof.
  revert x. induction done as [|y rest IH]; intros x Hok Hx.
  - by apply elem_of_nil in Hx.
  - destruct Hok as [Hy Hok]. apply elem_of_cons in Hx as [->|Hx].
    + destruct Hy as [[-> Hnone]|(u & Hu & Hin)].
      * exists [start]. repeat split; try done.
        -- by constructor.
        -- simpl. lia.
      * destruct (IH u Hok Hin) as (p & Hp & Hhd & Hlast & Hlen).
        exists (y :: p). repeat split.
        -- by apply backward_step with u.
        -- destruct p; [done|]. by rewrite last_cons_cons.
        -- simpl. lia.
    + destruct (IH x Hok Hx) as (p & Hp & Hhd & Hlast & Hlen).
      exists p. repeat split; try done. simpl. lia.
Qed.

(** The [while] loop of [reconstruct_path] follows the backward walk. *)
Lemma walk_back_backward_walk prev x p :
  backward_walk prev x p →
  ∀ fuel acc, (length p ≤ fuel)%nat →
    walk_back fuel prev (Some x) acc = Some (Ret (acc ++ p)).
Proof.
  induction 1 as [x Hx|x u p Hx _ IH]; intros fuel acc Hfuel.
  - destruct fuel as [|fuel]; [simpl in Hfuel; lia|].
    simpl. rewrite Hx. by destruct fuel.
  - destruct fuel as [|fuel]; [simpl in Hfuel; lia|].
    simpl. rewrite Hx. rewrite IH by (simpl in Hfuel; lia).
    by rewrite <- app_assoc.
Qed.

Lemma Inv_done_length g start st done todo :
  Inv g start st done todo → (length done ≤ length (vertices g))%nat.
Proof.
  intros HI. apply submseteq_length, NoDup_submseteq.
  - apply (inv_nodup _ _ _ _ _ HI).
  - intros x Hx. destruct (inv_done _ _ _ _ _ HI x Hx) as (dx & Hdx & _).
    apply vertices_spec, elem_of_dom.
    rewrite <- (inv_dom_dist _ _ _ _ _ HI). apply elem_of_dom. eauto.
Qed.

(** What [reconstruct_path] returns on a final state of the main loop. *)
Lemma Inv_final_reconstruct g start st done target fuel :
  Inv g start st done [] → heap st = [] →
  is_Some (adjacency_list g !! target) →
  (length (vertices g) ≤ fuel)%nat →
  (¬ reachable g start target →
     reconstruct_path fuel (prev st) start target = Some (Ret None) ∧
     dist st !! target = Some Inf) ∧
  (reachable g start target →
     ∃ back, backward_walk (prev st) target back ∧
       reconstruct_path fuel (prev st) start target
         = Some (Ret (Some (reverse back))) ∧
       head (reverse back) = Some start ∧
       last (reverse back) = Some target).
Proof.
  intros HI Hheap Htarget Hfuel.
  destruct (Inv_final_dist _ _ _ _ target HI Hheap Htarget) as [Hreach Hnot].
  split.
  - intros Hun. pose proof (Hnot Hun) as Hinf. split; [|done].
    unfold reconstruct_path.
    rewrite (inv_prev_inf _ _ _ _ _ HI target Hinf).
    assert (start ≠ target) as Hne.
    { intros ->. apply Hun. exists 0. constructor. }
    rewrite bool_decide_eq_true_2 by done.
    by rewrite bool_decide_eq_false_2 by done.
  - intros Hre. destruct (Hreach Hre) as (m & Hm & _).
    assert (target ∈ done) as Hdone.
    { destruct (inv_open _ _ _ _ _ HI target m Hm) as [?|Hin]; [done|].
      rewrite Hheap in Hin. by apply elem_of_nil in Hin. }
    destruct (prev_ok_backward_walk _ _ _ target
                (inv_prev_ok _ _ _ _ _ HI) Hdone)
      as (p & Hp & Hhd & Hlast & Hlen).
    pose proof (Inv_done_length _ _ _ _ _ HI) as Hdl.
    exists p. split; [done|]. split; [|split].
    + unfold reconstruct_path.
      rewrite (walk_back_backward_walk _ _ _ Hp fuel []) by lia. simpl.
      destruct (decide (target = start)) as [->|Hne].
      * rewrite (inv_prev_start _ _ _ _ _ HI).
        rewrite (bool_decide_eq_true_2 (start = start)) by done.
        simpl. by rewrite ?andb_false_r.
      * destruct (inv_prev_fin _ _ _ _ _ HI target m Hm Hne)
          as (u & w & du & Hprev & _).
        rewrite Hprev. by rewrite bool_decide_eq_false_2.
    + by rewrite head_reverse.
    + by rewrite last_reverse.
Qed.

(** C6: on a graph built with [add_edge] with non-negative weights, with
    [start] and [target] vertices of the graph and [(dist, prev)] the
    result of [dijkstra_heap]: if [target] is not reachable from [start]
    (so that [target ≠ start]) then [reconstruct_path] returns [None] and
    [dist[target]] is [Inf]; otherwise it returns the backward walk through
    [prev] from [target], reversed, and this sequence begins at [start] and
    ends at [target]. *)
Theorem reconstruct_path_correct (calls : list edge_call)
    (start target : string) (fuel fuel' : nat) :
  nonneg_weights (build_graph calls) →
  start ∈ vertices (build_graph calls) →
  target ∈ vertices (build_graph calls) →
  (dijkstra_fuel (build_graph calls) ≤ fuel)%nat →
  (length (vertices (build_graph calls)) ≤ fuel')%nat →
  ∃ dist prev,
    dijkstra_heap fuel (build_graph calls) start = Some (Ret (dist, prev)) ∧
    ((¬ reachable (build_graph calls) start target ∧ target ≠ start) →
       reconstruct_path fuel' prev start target = Some (Ret None) ∧
       dist !! target = Some Inf) ∧
    (¬ (¬ reachable (build_graph calls) start target ∧ target ≠ start) →
       ∃ back, backward_walk prev target back ∧
         reconstruct_path fuel' prev start target
           = Some (Ret (Some (reverse back))) ∧
         head (reverse back) = Some start ∧
         last (reverse back) = Some target).
Proof.
  intros Hnn Hstart Htarget Hfuel Hfuel'.
  apply vertices_spec in Hstart. apply vertices_spec in Htarget.
  destruct (dijkstra_loop_terminates _ start fuel
              (build_graph_closed calls) Hnn Hstart Hfuel)
    as (st & done & Hloop & HI & Hheap).
  exists (dist st), (prev st). split; [by apply dijkstra_heap_unfold|].
  destruct (Inv_final_reconstruct _ _ _ _ target fuel' HI Hheap Htarget Hfuel')
    as [Hun Hre].
  split.
  - intros [Hnot _]. by apply Hun.
  - intros Hnn'. apply Hre.
    destruct (decide (target = start)) as [->|Hne].
    + exists 0. constructor.
    + destruct (Inv_final_dist _ _ _ _ target HI Hheap Htarget) as [_ Hinf].
      destruct (dist st !! target) as [[m|]|] eqn:Hd.
      * exists m. by apply (inv_walk _ _ _ _ _ HI).
      * exfalso. apply Hnn'. split; [|done]. intros [d Hd'].
        destruct (Inv_final_lower _ _ _ _ _ _ HI Hheap Hd') as (m & Hm & _).
        by rewrite Hd in Hm.
      * exfalso. apply Hnn'. split; [|done]. intros [d Hd'].
        destruct (Inv_final_lower _ _ _ _ _ _ HI Hheap Hd') as (m & Hm & _).
        by rewrite Hd in Hm.
Qed.

Lemma reconstruct_path_correct_witness :
  ∃ dist prev,
    dijkstra_heap 40 build_sample_graph "A" = Some (Ret (dist, prev)) ∧
    ((¬ reachable build_sample_graph "A" "J" ∧ "J" ≠ "A") →
       reconstruct_path 10 prev "A" "J" = Some (Ret None) ∧
       dist !! "J" = Some Inf) ∧
    (¬ (¬ reachable build_sample_graph "A" "J" ∧ "J" ≠ "A") →
       ∃ back, backward_walk prev "J" back ∧
         reconstruct_path 10 prev "A" "J"
           = Some (Ret (Some (reverse back))) ∧
         head (reverse back) = Some "A" ∧
         last (reverse back) = Some "J").
Proof.
  apply (reconstruct_path_correct _ "A" "J" 40 10).
  - apply nonneg_weights_check. vm_compute. reflexivity.
  - apply vertices_check. vm_compute. reflexivity.
  - apply vertices_check. vm_compute. reflexivity.
  - vm_compute. lia.
  - vm_compute. lia.
Defined.

(** ** Sorting and neighbours *)

Lemma insert_sorted_perm x l : insert_sorted x l ≡ₚ x :: l.
Proof.
  induction l as [|y l IH]; simpl; [done|].
  destruct (String.ltb x y); [done|].
  rewrite IH. apply Permutation_swap.
Qed.

Lemma sorted_perm l : sorted l ≡ₚ l.
Proof.
  induction l as [|x l IH]; simpl; [done|].
  by rewrite insert_sorted_perm, IH.
Qed.

Lemma elem_of_sorted x l : x ∈ sorted l ↔ x ∈ l.
Proof. by rewrite sorted_perm. Qed.

Lemma neighbors_spec G u ns v :
  neighbors G u = Ret ns → v ∈ ns ↔ adjacent G u v.
Proof.
  unfold neighbors, adjacent. destruct (G !! u) as [m|]; [|done].
  intros [= <-]. rewrite elem_of_elements. naive_solver.
Qed.

Lemma neighbors_Ret G u :
  is_Some (G !! u) → ∃ ns, neighbors G u = Ret ns.
Proof. intros [m Hm]. unfold neighbors. rewrite Hm. eauto. Qed.

Lemma neighbors_Raise G u :
  G !! u = None → neighbors G u = Raise (NetworkXError u).
Proof. intros Hu. unfold neighbors. by rewrite Hu. Qed.

(** ** Paths and walks *)

Lemma is_path_snoc G p u v :
  is_path G p → last p = Some u → adjacent G u v → is_path G (p ++ [v]).
Proof.
  induction p as [|x p IH]; [done|]. intros Hp Hlast Hadj.
  destruct p as [|y p].
  - simpl in *. injection Hlast as ->. done.
  - destruct Hp as [Hxy Hp]. rewrite last_cons_cons in Hlast.
    split; [done|]. by apply IH.
Qed.

Lemma path_from_to_snoc G s u v p :
  path_from_to G s u p → adjacent G u v → path_from_to G s v (p ++ [v]).
Proof.
  intros (Hp & Hhd & Hlast) Hadj. split; [|split].
  - by eapply is_path_snoc.
  - destruct p; [done|]. done.
  - apply last_snoc.
Qed.

Lemma path_from_to_singleton G s : path_from_to G s s [s].
Proof. done. Qed.

Lemma nx_walk_cons G s s' t n :
  adjacent G s s' → nx_walk G s' t n → nx_walk G s t (S n).
Proof.
  intros Hadj. induction 1 as [|u v n _ IH Huv].
  - apply nx_walk_snoc with s; [constructor|done].
  - by apply nx_walk_snoc with u.
Qed.

Lemma path_from_to_nx_walk G s t p :
  path_from_to G s t p → nx_walk G s t (hops p).
Proof.
  revert s. induction p as [|x p IH]; intros s (Hp & Hhd & Hlast); [done|].
  simpl in Hhd. injection Hhd as ->.
  destruct p as [|y p].
  - simpl in Hlast. injection Hlast as ->. constructor.
  - destruct Hp as [Hxy Hp]. rewrite last_cons_cons in Hlast.
    apply nx_walk_cons with y; [done|]. by apply (IH y).
Qed.

Lemma nx_walk_path_from_to G s t n :
  nx_walk G s t n → ∃ p, path_from_to G s t p ∧ hops p = n.
Proof.
  induction 1 as [|u v n _ (p & Hp & Hn) Hadj].
  - by exists [s].
  - exists (p ++ [v]). split; [by eapply path_from_to_snoc|].
    unfold hops in *. rewrite length_app. simpl.
    destruct Hp as (Hp & _). destruct p; [done|]. simpl in *. lia.
Qed.

(** A walk from inside a set to outside of it crosses its border. *)
Lemma nx_walk_leaves_set G s t n (X : gset string) :
  nx_walk G s t n → s ∈ X → t ∉ X →
  ∃ x y k, x ∈ X ∧ (y ∉ X) ∧ adjacent G x y ∧ nx_walk G s x k ∧ (k < n)%nat.
Proof.
  induction 1 as [|u v n Hwalk IH Hadj]; intros Hs Ht; [done|].
  destruct (decide (u ∈ X)) as [Hu|Hu].
  - exists u, v, n. repeat split; try done. lia.
  - destruct (IH Hs Hu) as (x & y & k & Hx & Hy & Hxy & Hk & Hlt).
    exists x, y, k. repeat split; try done. lia.
Qed.

(** ** The invariant of [bfs_path] is preserved *)

(** Name the fields of an invariant [HI : BInv G start st deq todo L]. *)
Ltac binv_fields HI :=
  destruct HI as [Hord Hvis Hst Hpaths (A & B & HAB & HA & HB) Hcl Hcur].

Lemma lasts_snoc q p x : last p = Some x → lasts (q ++ [p]) = lasts q ++ [x].
Proof. intros Hx. unfold lasts. rewrite omap_app. simpl. by rewrite Hx. Qed.

Lemma elem_of_lasts q x : x ∈ lasts q ↔ ∃ p, p ∈ q ∧ last p = Some x.
Proof. unfold lasts. apply list_elem_of_omap. Qed.

Section bfs_invariant.

Context (G : nxGraph) (start : string).

(** One execution of the body of the [for] loop. *)
Lemma bfs_neighbor_inv st deq u p v todo L :
  BInv G start st (deq ++ [u]) (v :: todo) L →
  path_from_to G start u p → NoDup p →
  (∀ y, y ∈ p → y ∈ bfs_visited st) →
  length p = S L → adjacent G u v →
  BInv G start (bfs_neighbor p st v) (deq ++ [u]) todo L.
Proof.
  intros HI Hp Hnd Hpv Hlen Hadj. binv_fields HI.
  unfold bfs_neighbor. destruct (decide (v ∈ bfs_visited st)) as [Hv|Hv].
  - constructor; try done.
    + by exists A, B.
    + intros u' v' Hu' Hadj'.
      destruct (Hcl u' v' Hu' Hadj') as [?|[Hl Hin]]; [by left|].
      apply elem_of_cons in Hin as [->|Hin]; [by left|by right].
    + intros u' n Hne. by apply Hcur.
  - assert (last (p ++ [v]) = Some v) as Hlastv by apply last_snoc.
    constructor; simpl.
    + rewrite (lasts_snoc _ _ v) by done. rewrite Hord.
      by rewrite <- !app_assoc.
    + intros x. rewrite elem_of_union, elem_of_singleton, elem_of_app,
        list_elem_of_singleton. by rewrite Hvis.
    + apply elem_of_union. by left.
    + intros p' Hp'. apply elem_of_app in Hp' as [Hp'|Hp'].
      { destruct (Hpaths p' Hp') as (x & Hx1 & Hx2 & Hx3 & Hx4).
        exists x. split; [done|]. split; [done|]. split; [|done].
        intros y Hy. apply elem_of_union. left. by apply Hx3. }
      apply list_elem_of_singleton in Hp' as ->.
      exists v. split; [by eapply path_from_to_snoc|].
      split.
      { apply NoDup_app. split; [done|]. split; [|apply NoDup_singleton].
        intros y Hy ->%list_elem_of_singleton. by apply Hv, Hpv. }
      split.
      { intros y Hy. apply elem_of_union.
        apply elem_of_app in Hy as [Hy|Hy]; [left; by apply Hpv|].
        right. apply list_elem_of_singleton in Hy.
        by apply elem_of_singleton. }
      intros n Hwalk. rewrite length_app, Hlen. simpl.
      destruct (decide (n ≤ L)%nat) as [Hle|]; [exfalso|lia].
      destruct (nx_walk_leaves_set _ _ _ _ _ Hwalk Hst Hv)
        as (x & y & k & Hx & Hy & Hxy & Hk & Hlt).
      apply Hvis in Hx. rewrite Hord in Hx.
      apply elem_of_app in Hx as [Hx|Hx].
      * destruct (Hcl x y Hx Hxy) as [?|[Hl _]]; [done|].
        rewrite last_snoc in Hl. injection Hl as ->.
        assert (L ≤ k)%nat; [|lia].
        apply (Hcur x k); [done|apply last_snoc|done].
      * apply elem_of_lasts in Hx as (p' & Hp' & Hl').
        destruct (Hpaths p' Hp') as (x' & (_ & _ & Hl'') & _ & _ & Hmin).
        rewrite Hl' in Hl''. injection Hl'' as <-.
        specialize (Hmin k Hk).
        assert (S L ≤ length p')%nat; [|lia].
        rewrite HAB in Hp'. apply elem_of_app in Hp' as [Hp'|Hp'].
        -- rewrite (HA _ Hp'). lia.
        -- rewrite (HB _ Hp'). lia.
    + exists A, (B ++ [p ++ [v]]). split; [by rewrite HAB, app_assoc|].
      split; [done|]. intros b Hb. apply elem_of_app in Hb as [Hb|Hb].
      * by apply HB.
      * apply list_elem_of_singleton in Hb as ->.
        rewrite length_app, Hlen. simpl. lia.
    + intros u' v' Hu' Hadj'.
      destruct (Hcl u' v' Hu' Hadj') as [?|[Hl Hin]].
      * left. apply elem_of_union. by left.
      * apply elem_of_cons in Hin as [->|Hin]; [|by right].
        left. apply elem_of_union. right. by apply elem_of_singleton.
    + intros u' n Hne. by apply Hcur.
Qed.

Lemma bfs_neighbor_visited p st v y :
  y ∈ bfs_visited st → y ∈ bfs_visited (bfs_neighbor p st v).
Proof.
  intros Hy. unfold bfs_neighbor.
  destruct (decide (v ∈ bfs_visited st)); [done|].
  apply elem_of_union. by left.
Qed.

(** The whole [for] loop over the remaining neighbours of [u]. *)
Lemma bfs_for_inv deq u p L todo :
  path_from_to G start u p → NoDup p → length p = S L →
  ∀ st, (∀ v, v ∈ todo → adjacent G u v) →
  (∀ y, y ∈ p → y ∈ bfs_visited st) →
  BInv G start st (deq ++ [u]) todo L →
  BInv G start (foldl (bfs_neighbor p) st todo) (deq ++ [u]) [] L.
Proof.
  intros Hp Hnd Hlen.
  induction todo as [|v todo IH]; intros st Hadj Hpv HI; [done|].
  simpl. apply IH.
  - intros v' Hv'. apply Hadj. by right.
  - intros y Hy. by apply bfs_neighbor_visited, Hpv.
  - eapply bfs_neighbor_inv; eauto. apply Hadj. by left.
Qed.

(** Dequeuing the path at the front. *)
Lemma bfs_pop_inv st deq L p rest u ns :
  BInv G start st deq [] L →
  bfs_queue st = p :: rest → last p = Some u →
  neighbors G u = Ret ns →
  ∃ L', BInv G start
          {| bfs_visited := bfs_visited st; bfs_queue := rest;
             bfs_visited_order := bfs_visited_order st |}
          (deq ++ [u]) (sorted ns) L' ∧
        length p = S L' ∧ path_from_to G start u p ∧ NoDup p ∧
        (∀ y, y ∈ p → y ∈ bfs_visited st).
Proof.
  intros HI Hq Hlast Hns. binv_fields HI.
  destruct (Hpaths p) as (u' & Hp & Hnd & Hpv & Hmin); [rewrite Hq; by left|].
  assert (u' = u) as ->.
  { destruct Hp as (_ & _ & Hl). rewrite Hlast in Hl. by injection Hl. }
  assert (∃ L' A' B', rest = A' ++ B' ∧ length p = S L' ∧
            (∀ a, a ∈ A' → length a = S L') ∧
            (∀ b, b ∈ B' → length b = S (S L'))) as
    (L' & A' & B' & Hrest & Hlen & HA' & HB').
  { rewrite Hq in HAB. destruct A as [|a A]; simpl in HAB.
    - exists (S L), rest, []. rewrite app_nil_r.
      split; [done|]. split; [apply HB; rewrite <- HAB; by left|].
      split; [|by intros b ?%elem_of_nil].
      intros a Ha. apply HB. rewrite <- HAB. by right.
    - injection HAB as <- ->. exists L, A, B.
      split; [done|]. split; [apply HA; by left|].
      split; [|done]. intros a' Ha'. apply HA. by right. }
  exists L'. split; [|done]. constructor; simpl.
  - rewrite Hord, Hq. unfold lasts. simpl. rewrite Hlast.
    by rewrite <- app_assoc.
  - done.
  - done.
  - intros p' Hp'. apply Hpaths. rewrite Hq. by right.
  - by exists A', B'.
  - intros x y Hx Hxy. apply elem_of_app in Hx as [Hx|Hx].
    + destruct (Hcl x y Hx Hxy) as [?|[_ Hnil]]; [by left|].
      by apply elem_of_nil in Hnil.
    + apply list_elem_of_singleton in Hx as ->. right.
      split; [apply last_snoc|].
      apply elem_of_sorted. by apply (neighbors_spec _ _ _ _ Hns).
  - intros x n _ Hl Hwalk. rewrite last_snoc in Hl. injection Hl as <-.
    specialize (Hmin n Hwalk). lia.
Qed.

Lemma bfs_init_inv : BInv G start (bfs_init start) [] [] 0.
Proof.
  constructor; simpl.
  - done.
  - intros x. by rewrite elem_of_singleton, list_elem_of_singleton.
  - by apply elem_of_singleton.
  - intros p ->%list_elem_of_singleton. exists start.
    split; [done|]. split; [apply NoDup_singleton|]. split.
    + intros y ->%list_elem_of_singleton. by apply elem_of_singleton.
    + intros n _. simpl. lia.
  - exists [[start]], []. split; [done|]. split.
    + by intros a ->%list_elem_of_singleton.
    + by intros b ?%elem_of_nil.
  - intros u v Hu. by apply elem_of_nil in Hu.
  - done.
Qed.

(** When the queue is empty every vertex reachable from [start] has been
    dequeued. *)
Lemma BInv_final_reach st deq L t n :
  BInv G start st deq [] L → bfs_queue st = [] →
  nx_walk G start t n → t ∈ deq.
Proof.
  intros HI Hq.
  assert (∀ x, x ∈ bfs_visited st ↔ x ∈ deq) as Hvis.
  { intros x. rewrite (b_visited _ _ _ _ _ _ HI), (b_order _ _ _ _ _ _ HI), Hq.
    simpl. by rewrite app_nil_r. }
  induction 1 as [|u v n _ IH Hadj].
  - apply Hvis, (b_start _ _ _ _ _ _ HI).
  - destruct (b_closed _ _ _ _ _ _ HI u v IH Hadj) as [?|[_ Hnil]].
    + by apply Hvis.
    + by apply elem_of_nil in Hnil.
Qed.

(** What the main loop returns, when it returns. *)
Lemma bfs_loop_correct goal fuel :
  ∀ st deq L res order deq',
    BInv G start st deq [] L → goal ∉ deq →
    bfs_loop fuel G goal st deq = Some (Ret (res, order, deq')) →
    (∃ rest, order = deq' ++ rest ∧ (res = None → rest = [])) ∧
    match res with
    | Some path =>
        path_from_to G start goal path ∧ NoDup path ∧
        ∀ n, nx_walk G start goal n → (length path ≤ S n)%nat
    | None => ∀ n, ¬ nx_walk G start goal n
    end.
Proof.
  induction fuel as [|fuel IH]; intros st deq L res order deq' HI Hgoal;
    [done|].
  simpl. destruct (bfs_queue st) as [|p rest] eqn:Hq.
  - intros [= <- <- <-]. split.
    + exists []. rewrite (b_order _ _ _ _ _ _ HI), Hq. simpl.
      by rewrite !app_nil_r.
    + intros n Hwalk. apply Hgoal.
      by eapply BInv_final_reach.
  - destruct (b_paths _ _ _ _ _ _ HI p) as (u & Hp & Hnd & Hpv & Hmin);
      [rewrite Hq; by left|].
    pose proof Hp as (_ & _ & Hlast). rewrite Hlast.
    destruct (decide (u = goal)) as [->|Hne].
    + intros [= <- <- <-]. split; [|done].
      exists (lasts rest). split; [|done].
      rewrite (b_order _ _ _ _ _ _ HI), Hq. unfold lasts. simpl.
      rewrite Hlast. by rewrite <- app_assoc.
    + destruct (neighbors G u) as [ns|e] eqn:Hns; [|done].
      destruct (bfs_pop_inv _ _ _ _ _ _ _ HI Hq Hlast Hns)
        as (L' & HI1 & Hlen & _).
      apply (IH _ _ L').
      * apply bfs_for_inv; try done.
        intros v Hv. apply (neighbors_spec _ _ _ _ Hns).
        by apply elem_of_sorted.
      * intros Hin. apply elem_of_app in Hin as [?|Hin]; [done|].
        apply list_elem_of_singleton in Hin. by subst.
Qed.

End bfs_invariant.

(** ** NetworkX graphs are closed *)

Lemma adjacent_nbrs G u v : adjacent G u v ↔ v ∈ nbrs G u.
Proof.
  unfold adjacent, nbrs. destruct (G !! u) as [m|]; simpl.
  - naive_solver.
  - rewrite dom_empty_L. split; [by intros (m & ? & _)|by intros ?%elem_of_empty].
Qed.

Lemma nx_add_node_default n G x :
  default ∅ (nx_add_node n G !! x) = default ∅ (G !! x).
Proof.
  unfold nx_add_node. destruct (G !! n) eqn:Hn; [done|].
  destruct (decide (n = x)) as [->|Hne].
  - by rewrite lookup_insert_eq, Hn.
  - by rewrite lookup_insert_ne.
Qed.

Lemma nx_add_node_dom n G : dom (nx_add_node n G) = {[n]} ∪ dom G.
Proof.
  unfold nx_add_node. destruct (G !! n) eqn:Hn.
  - assert (n ∈ dom G) by (apply elem_of_dom; eauto). set_solver.
  - by rewrite dom_insert_L.
Qed.

Lemma nx_add_edge_dom u v w G :
  dom (nx_add_edge u v w G) = {[u; v]} ∪ dom G.
Proof.
  unfold nx_add_edge. rewrite !dom_insert_L, !nx_add_node_dom. set_solver.
Qed.

Lemma nx_add_edge_nbrs u v w G x :
  nbrs (nx_add_edge u v w G) x =
    nbrs G x ∪ (if decide (x = u) then {[v]} else ∅)
             ∪ (if decide (x = v) then {[u]} else ∅).
Proof.
  unfold nbrs, nx_add_edge.
  destruct (decide (x = v)) as [->|Hxv].
  - rewrite lookup_insert_eq. simpl. rewrite dom_insert_L.
    destruct (decide (v = u)) as [->|Hvu].
    + rewrite lookup_insert_eq. simpl. rewrite dom_insert_L.
      rewrite !nx_add_node_default. set_solver.
    + rewrite lookup_insert_ne by done.
      rewrite !nx_add_node_default. set_solver.
  - rewrite lookup_insert_ne by done.
    destruct (decide (x = u)) as [->|Hxu].
    + rewrite lookup_insert_eq. simpl. rewrite dom_insert_L.
      rewrite !nx_add_node_default. set_solver.
    + rewrite lookup_insert_ne by done.
      rewrite !nx_add_node_default. set_solver.
Qed.

Lemma nx_closed_nbrs G :
  nx_closed G ↔ ∀ u v, v ∈ nbrs G u → v ∈ dom G.
Proof.
  unfold nx_closed. split; intros H u v Huv.
  - apply elem_of_dom, (H u v). by apply adjacent_nbrs.
  - apply elem_of_dom, (H u v). by apply adjacent_nbrs.
Qed.

Lemma nx_apply_closed G op : nx_closed G → nx_closed (nx_apply G op).
Proof.
  rewrite !nx_closed_nbrs. intros Hcl x y. destruct op as [n|u v w]; simpl.
  - unfold nbrs. rewrite nx_add_node_default, nx_add_node_dom.
    intros Hy. apply elem_of_union. right. by apply (Hcl x y).
  - rewrite nx_add_edge_nbrs, nx_add_edge_dom.
    intros Hy. apply elem_of_union in Hy as [Hy|Hy];
      [apply elem_of_union in Hy as [Hy|Hy]|].
    + apply elem_of_union. right. by apply (Hcl x y).
    + case_decide; [|by apply elem_of_empty in Hy]. set_solver.
    + case_decide; [|by apply elem_of_empty in Hy]. set_solver.
Qed.

Lemma nx_build_snoc ops op :
  nx_build (ops ++ [op]) = nx_apply (nx_build ops) op.
Proof. unfold nx_build. by rewrite foldl_app. Qed.

Lemma nx_build_closed ops : nx_closed (nx_build ops).
Proof.
  induction ops as [|op ops IH] using rev_ind.
  - intros u v (m & Hm & _). unfold nx_build in Hm. simpl in Hm.
    by rewrite lookup_empty in Hm.
  - rewrite nx_build_snoc. by apply nx_apply_closed.
Qed.

(** ** Termination of [bfs_path] *)

Lemma bfs_neighbor_measure (G : nxGraph) p st v :
  is_Some (G !! v) →
  (length (bfs_queue (bfs_neighbor p st v))
     + size (dom G ∖ bfs_visited (bfs_neighbor p st v))
   ≤ length (bfs_queue st) + size (dom G ∖ bfs_visited st))%nat.
Proof.
  intros Hv%elem_of_dom. unfold bfs_neighbor.
  destruct (decide (v ∈ bfs_visited st)) as [Hin|Hin]; [done|]. simpl.
  assert (dom G ∖ bfs_visited st
          = {[v]} ∪ dom G ∖ (bfs_visited st ∪ {[v]})) as ->.
  { apply set_eq. intros x. destruct (decide (x = v)); set_solver. }
  rewrite (size_union (C:=gset string) {[v]}) by set_solver.
  rewrite size_singleton, length_app.
  simpl. lia.
Qed.

Lemma bfs_for_measure (G : nxGraph) p todo :
  ∀ st, (∀ v, v ∈ todo → is_Some (G !! v)) →
  (length (bfs_queue (foldl (bfs_neighbor p) st todo))
     + size (dom G ∖ bfs_visited (foldl (bfs_neighbor p) st todo))
   ≤ length (bfs_queue st) + size (dom G ∖ bfs_visited st))%nat.
Proof.
  induction todo as [|v todo IH]; intros st Hin; simpl; [done|].
  etrans; [apply IH|apply bfs_neighbor_measure].
  - intros v' Hv'. apply Hin. by right.
  - apply Hin. by left.
Qed.

Lemma bfs_loop_terminates (G : nxGraph) goal :
  nx_closed G →
  ∀ fuel st deq,
    (length (bfs_queue st) + size (dom G ∖ bfs_visited st) < fuel)%nat →
    ∃ r, bfs_loop fuel G goal st deq = Some r.
Proof.
  intros Hcl. induction fuel as [|fuel IH]; intros st deq Hfuel; [lia|].
  simpl. destruct (bfs_queue st) as [|p rest] eqn:Hq; [eauto|].
  destruct (last p) as [u|]; [|eauto].
  destruct (decide (u = goal)); [eauto|].
  destruct (neighbors G u) as [ns|e] eqn:Hns; [|eauto].
  apply IH.
  eapply Nat.le_lt_trans; [apply bfs_for_measure|].
  - intros v Hv. apply (Hcl u v), (neighbors_spec _ _ _ _ Hns).
    by apply elem_of_sorted.
  - simpl. simpl in Hfuel. lia.
Qed.

(** ** No error is raised when every path ends in a node or in [goal] *)

Lemma bfs_neighbor_queue_ok G goal p st v :
  is_Some (G !! v) → queue_ok G goal (bfs_queue st) →
  queue_ok G goal (bfs_queue (bfs_neighbor p st v)).
Proof.
  intros Hv Hok. unfold bfs_neighbor.
  destruct (decide (v ∈ bfs_visited st)); [done|]. simpl.
  intros p' Hp'. apply elem_of_app in Hp' as [Hp'|Hp']; [by apply Hok|].
  apply list_elem_of_singleton in Hp' as ->. exists v.
  split; [apply last_snoc|by left].
Qed.

Lemma bfs_for_queue_ok G goal p todo :
  ∀ st, (∀ v, v ∈ todo → is_Some (G !! v)) →
  queue_ok G goal (bfs_queue st) →
  queue_ok G goal (bfs_queue (foldl (bfs_neighbor p) st todo)).
Proof.
  induction todo as [|v todo IH]; intros st Hin Hok; simpl; [done|].
  apply IH.
  - intros v' Hv'. apply Hin. by right.
  - apply bfs_neighbor_queue_ok; [|done]. apply Hin. by left.
Qed.

Lemma bfs_loop_no_raise (G : nxGraph) goal :
  nx_closed G →
  ∀ fuel st deq e,
    queue_ok G goal (bfs_queue st) →
    bfs_loop fuel G goal st deq ≠ Some (Raise e).
Proof.
  intros Hcl. induction fuel as [|fuel IH]; intros st deq e Hok; [done|].
  simpl. destruct (bfs_queue st) as [|p rest] eqn:Hq; [done|].
  destruct (Hok p) as (u & Hlast & Hu); [by left|]. rewrite Hlast.
  destruct (decide (u = goal)) as [|Hne]; [done|].
  destruct Hu as [Hu|Hu]; [|done].
  destruct (neighbors_Ret _ _ Hu) as [ns Hns]. rewrite Hns.
  apply IH. apply bfs_for_queue_ok.
  - intros v Hv. apply (Hcl u v), (neighbors_spec _ _ _ _ Hns).
    by apply elem_of_sorted.
  - simpl. intros p' Hp'. apply Hok. by right.
Qed.

Lemma bfs_init_measure (G : nxGraph) start :
  (length (bfs_queue (bfs_init start))
     + size (dom G ∖ bfs_visited (bfs_init start)) < bfs_fuel G)%nat.
Proof.
  unfold bfs_fuel. simpl.
  assert (size (dom G ∖ {[start]}) ≤ size (dom G))%nat; [|lia].
  apply subseteq_size. set_solver.
Qed.

(** [bfs_path] returns, with or without a path, whenever [start] is a node
    of the graph or is [goal] itself. *)
Lemma bfs_path_traced_returns ops start goal fuel :
  is_Some (nx_build ops !! start) ∨ start = goal →
  (bfs_fuel (nx_build ops) ≤ fuel)%nat →
  ∃ res order deq,
    bfs_path_traced fuel (nx_build ops) start goal
      = Some (Ret (res, order, deq)).
Proof.
  intros Hstart Hfuel. unfold bfs_path_traced.
  destruct (bfs_loop_terminates _ goal (nx_build_closed ops) fuel
              (bfs_init start) []) as [r Hr].
  { pose proof (bfs_init_measure (nx_build ops) start). lia. }
  destruct r as [[[res order] deq]|e].
  - by exists res, order, deq.
  - exfalso. eapply (bfs_loop_no_raise _ goal (nx_build_closed ops)); [|done].
    intros p ->%list_elem_of_singleton. by exists start.
Qed.

Lemma path_from_to_start_node G s t p :
  path_from_to G s t p → is_Some (G !! s) ∨ s = t.
Proof.
  intros (Hp & Hhd & Hlast). destruct p as [|x [|y p]]; [done|..].
  - right. simpl in *. congruence.
  - left. simpl in Hhd. injection Hhd as ->.
    destruct Hp as [(m & Hm & _) _]. eauto.
Qed.

Lemma bfs_path_unfold fuel G start goal res order deq :
  bfs_path_traced fuel G start goal = Some (Ret (res, order, deq)) →
  bfs_path fuel G start goal = Some (Ret (res, order)).
Proof. unfold bfs_path. by intros ->. Qed.

(** [bfs_path] finds a path with the fewest hops. *)
Lemma bfs_path_traced_shortest ops start goal fuel :
  nx_reachable (nx_build ops) start goal →
  (bfs_fuel (nx_build ops) ≤ fuel)%nat →
  ∃ path order deq,
    bfs_path_traced fuel (nx_build ops) start goal
      = Some (Ret (Some path, order, deq)) ∧
    path_from_to (nx_build ops) start goal path ∧ NoDup path ∧
    ∀ q, path_from_to (nx_build ops) start goal q → (hops path ≤ hops q)%nat.
Proof.
  intros [q Hq] Hfuel.
  destruct (bfs_path_traced_returns ops start goal fuel)
    as (res & order & deq & Hrun); [by eapply path_from_to_start_node|done|].
  pose proof (bfs_loop_correct _ start goal fuel _ _ 0%nat _ _ _
                (bfs_init_inv _ start) (not_elem_of_nil goal) Hrun)
    as [_ Hres].
  destruct res as [path|].
  - exists path, order, deq. split; [done|].
    destruct Hres as (Hpath & Hnd & Hmin).
    split; [done|]. split; [done|]. intros q' Hq'.
    specialize (Hmin _ (path_from_to_nx_walk _ _ _ _ Hq')).
    unfold hops in *. lia.
  - exfalso. eapply Hres. by eapply path_from_to_nx_walk.
Qed.

(** C2: on every NetworkX graph, when [goal] is reachable from [start],
    [bfs_path] returns (given the fuel [bfs_fuel] or more) a path from
    [start] to [goal] without a repeated vertex, and no sequence of adjacent
    vertices from [start] to [goal] has fewer hops. *)
Theorem bfs_path_shortest (ops : list nx_op) (start goal : string)
    (fuel : nat) :
  nx_reachable (nx_build ops) start goal →
  (bfs_fuel (nx_build ops) ≤ fuel)%nat →
  ∃ path order,
    bfs_path fuel (nx_build ops) start goal = Some (Ret (Some path, order)) ∧
    path_from_to (nx_build ops) start goal path ∧ NoDup path ∧
    ∀ q, path_from_to (nx_build ops) start goal q → (hops path ≤ hops q)%nat.
Proof.
  intros Hreach Hfuel.
  destruct (bfs_path_traced_shortest ops start goal fuel Hreach Hfuel)
    as (path & order & deq & Hrun & Hpath & Hnd & Hmin).
  exists path, order. split; [by eapply bfs_path_unfold|done].
Qed.

(** A check of [adjacent] that computes. *)
Lemma adjacent_check G u v :
  bool_decide (v ∈ nbrs G u) = true → adjacent G u v.
Proof. intros H%bool_decide_eq_true. by apply adjacent_nbrs. Qed.

Lemma bfs_path_shortest_witness :
  ∃ path order,
    bfs_path 5 (nx_build [AddEdge "A" "B" 2; AddEdge "B" "C" 3]) "A" "C"
      = Some (Ret (Some path, order)) ∧
    path_from_to (nx_build [AddEdge "A" "B" 2; AddEdge "B" "C" 3])
      "A" "C" path ∧ NoDup path ∧
    ∀ q, path_from_to (nx_build [AddEdge "A" "B" 2; AddEdge "B" "C" 3])
           "A" "C" q → (hops path ≤ hops q)%nat.
Proof.
  apply (bfs_path_shortest [AddEdge "A" "B" 2; AddEdge "B" "C" 3] "A" "C" 5).
  - exists ["A"; "B"; "C"]. repeat split; try reflexivity;
      apply adjacent_check; vm_compute; reflexivity.
  - vm_compute. lia.
Defined.

(** ** The visit order of [dfs_path] *)

Lemma first_occurrences_from_snoc seen l x :
  first_occurrences_from seen (l ++ [x]) =
    first_occurrences_from seen l ++
      (if decide (x ∈ seen ++ l) then [] else [x]).
Proof.
  revert seen. induction l as [|y l IH]; intros seen; simpl.
  - rewrite app_nil_r. by destruct (decide (x ∈ seen)).
  - destruct (decide (y ∈ seen)) as [Hy|Hy].
    + rewrite IH. f_equal.
      destruct (decide (x ∈ seen ++ l)) as [H1|H1];
        destruct (decide (x ∈ seen ++ y :: l)) as [H2|H2]; try done;
        exfalso; set_solver.
    + simpl. rewrite IH. do 2 f_equal.
      destruct (decide (x ∈ (seen ++ [y]) ++ l)) as [H1|H1];
        destruct (decide (x ∈ seen ++ y :: l)) as [H2|H2]; try done;
        exfalso; set_solver.
Qed.

Lemma first_occurrences_snoc l x :
  first_occurrences (l ++ [x]) =
    first_occurrences l ++ (if decide (x ∈ l) then [] else [x]).
Proof. apply (first_occurrences_from_snoc [] l x). Qed.

(** The visit order lists each popped node once, at its first pop. *)
Lemma dfs_loop_order G goal fuel :
  ∀ st popped res order popped',
    dfs_visited_order st = first_occurrences popped →
    (∀ x, x ∈ dfs_visited st ↔ x ∈ popped) →
    dfs_loop fuel G goal st popped = Some (Ret (res, order, popped')) →
    order = first_occurrences popped'.
Proof.
  induction fuel as [|fuel IH]; intros st popped res order popped' Hord Hvis;
    [done|].
  simpl. destruct (dfs_stack st) as [|p rest]; [by intros [= <- <- <-]|].
  destruct (last p) as [u|]; [|done].
  assert (∀ x, x ∈ popped ++ [u] ↔ x ∈ popped ∨ x = u) as Happ.
  { intros x. by rewrite elem_of_app, list_elem_of_singleton. }
  destruct (decide (u ∈ dfs_visited st)) as [Hu|Hu].
  - apply IH; simpl.
    + rewrite first_occurrences_snoc, Hord.
      rewrite decide_True by (by apply Hvis). by rewrite app_nil_r.
    + intros x. rewrite Happ, Hvis. split; [by left|].
      intros [?| ->]; [done|]. by apply Hvis.
  - assert (dfs_visited_order st ++ [u] = first_occurrences (popped ++ [u]))
      as Hord'.
    { rewrite first_occurrences_snoc, Hord.
      by rewrite decide_False by (by rewrite <- Hvis). }
    destruct (decide (u = goal)); [by intros [= <- <- <-]|].
    destruct (neighbors G u) as [ns|]; [|done].
    apply IH; simpl; [done|].
    intros x. rewrite Happ, elem_of_union, elem_of_singleton. by rewrite Hvis.
Qed.

(** ** Termination of [dfs_path] *)

Lemma sum_list_with_lower {A : Type} (f f' : A → nat) (u : A) (c : nat)
    (l : list A) :
  (∀ x, f' x ≤ f x)%nat → (f' u + c ≤ f u)%nat → u ∈ l →
  (sum_list_with f' l + c ≤ sum_list_with f l)%nat.
Proof.
  intros Hle Hu. induction l as [|x l IH]; intros Hin;
    [by apply elem_of_nil in Hin|].
  simpl. apply elem_of_cons in Hin as [<-|Hin].
  - assert (sum_list_with f' l ≤ sum_list_with f l)%nat; [|lia].
    clear IH. induction l as [|y l IH]; simpl; [lia|].
    specialize (Hle y). lia.
  - specialize (IH Hin). specialize (Hle x). lia.
Qed.

Lemma dfs_budget_visit G visited u :
  is_Some (G !! u) → u ∉ visited →
  (dfs_budget G (visited ∪ {[u]}) + degree G u ≤ dfs_budget G visited)%nat.
Proof.
  intros Hu Hnew. unfold dfs_budget. apply (sum_list_with_lower _ _ u).
  - intros x. repeat case_decide; try lia. exfalso. set_solver.
  - rewrite decide_True by set_solver. by rewrite decide_False.
  - unfold nx_nodes. by apply elem_of_elements, elem_of_dom.
Qed.

Lemma dfs_for_length p visited todo :
  ∀ stack,
    (length (foldl (dfs_neighbor p visited) stack todo)
     ≤ length stack + length todo)%nat.
Proof.
  induction todo as [|v todo IH]; intros stack; simpl; [lia|].
  etrans; [apply IH|]. unfold dfs_neighbor.
  destruct (decide (v ∈ visited)); simpl; lia.
Qed.

Lemma neighbors_length G u ns :
  neighbors G u = Ret ns → length ns = degree G u.
Proof.
  unfold neighbors, degree. destruct (G !! u) as [m|]; [|done].
  by intros [= <-].
Qed.

Lemma dfs_loop_terminates (G : nxGraph) goal :
  ∀ fuel st popped,
    (length (dfs_stack st) + dfs_budget G (dfs_visited st) < fuel)%nat →
    ∃ r, dfs_loop fuel G goal st popped = Some r.
Proof.
  induction fuel as [|fuel IH]; intros st popped Hfuel; [lia|].
  simpl. destruct (dfs_stack st) as [|p rest] eqn:Hs; [eauto|].
  destruct (last p) as [u|]; [|eauto]. simpl in Hfuel.
  destruct (decide (u ∈ dfs_visited st)) as [Hu|Hu].
  - apply IH. simpl. lia.
  - destruct (decide (u = goal)); [eauto|].
    destruct (neighbors G u) as [ns|e] eqn:Hns; [|eauto].
    apply IH. simpl.
    pose proof (dfs_for_length p (dfs_visited st ∪ {[u]})
                  (reverse (sorted ns)) rest) as Hlen.
    rewrite length_reverse, (Permutation_length (sorted_perm ns)) in Hlen.
    rewrite (neighbors_length _ _ _ Hns) in Hlen.
    assert (is_Some (G !! u)) as HuG.
    { unfold neighbors in Hns. destruct (G !! u); [eauto|done]. }
    pose proof (dfs_budget_visit G (dfs_visited st) u HuG Hu). lia.
Qed.

Lemma dfs_budget_empty G :
  dfs_budget G ∅ = sum_list_with (degree G) (nx_nodes G).
Proof.
  unfold dfs_budget. induction (nx_nodes G) as [|x l IH]; [done|].
  simpl. rewrite decide_False by set_solver. by f_equal.
Qed.

(** ** The visit order against the nodes taken from the frontier *)

Lemma bfs_path_traced_order G start goal fuel res order deq :
  bfs_path_traced fuel G start goal = Some (Ret (res, order, deq)) →
  ∃ rest, order = deq ++ rest ∧ (res = None → rest = []).
Proof.
  intros Hrun.
  by destruct (bfs_loop_correct _ start goal fuel _ _ 0%nat _ _ _
                 (bfs_init_inv G start) (not_elem_of_nil goal) Hrun).
Qed.

Lemma dfs_path_traced_order G start goal fuel res order popped :
  dfs_path_traced fuel G start goal = Some (Ret (res, order, popped)) →
  order = first_occurrences popped.
Proof.
  intros Hrun.
  apply (dfs_loop_order G goal fuel (dfs_init start) [] res order popped);
    [done| |done].
  intros x. simpl. split; [by intros ?%elem_of_empty|by intros ?%elem_of_nil].
Qed.

Lemma dfs_path_unfold fuel G start goal res order popped :
  dfs_path_traced fuel G start goal = Some (Ret (res, order, popped)) →
  dfs_path fuel G start goal = Some (Ret (res, order)).
Proof. unfold dfs_path. by intros ->. Qed.

(** ** The queue of [bfs_path] on record *)

Lemma bfs_for_queue p todo :
  ∀ st enq,
    bfs_visited_order st = lasts enq →
    (foldl (bfs_neighbor_queue p) (st, enq) todo).1
      = foldl (bfs_neighbor p) st todo ∧
    bfs_visited_order (foldl (bfs_neighbor p) st todo)
      = lasts (foldl (bfs_neighbor_queue p) (st, enq) todo).2 ∧
    ∃ new,
      bfs_queue (foldl (bfs_neighbor p) st todo) = bfs_queue st ++ new ∧
      bfs_visited_order (foldl (bfs_neighbor p) st todo)
        = bfs_visited_order st ++ lasts new.
Proof.
  induction todo as [|v todo IH]; intros st enq Henq; simpl.
  - split; [done|]. split; [done|]. exists []. by rewrite !app_nil_r.
  - destruct (decide (v ∈ bfs_visited st)) as [Hv|Hv].
    + assert (bfs_neighbor_queue p (st, enq) v = (st, enq)) as ->.
      { unfold bfs_neighbor_queue. simpl. by rewrite decide_True. }
      assert (bfs_neighbor p st v = st) as ->.
      { unfold bfs_neighbor. by rewrite decide_True. }
      by apply IH.
    + set (st1 := {| bfs_visited := bfs_visited st ∪ {[v]};
                     bfs_queue := bfs_queue st ++ [p ++ [v]];
                     bfs_visited_order := bfs_visited_order st ++ [v] |}).
      assert (bfs_neighbor p st v = st1) as Hst1.
      { unfold bfs_neighbor. by rewrite decide_False. }
      assert (bfs_neighbor_queue p (st, enq) v = (st1, enq ++ [p ++ [v]]))
        as ->.
      { unfold bfs_neighbor_queue. simpl. rewrite decide_False by done.
        by rewrite Hst1. }
      rewrite Hst1.
      assert (last (p ++ [v]) = Some v) as Hlast by apply last_snoc.
      destruct (IH st1 (enq ++ [p ++ [v]])) as (H1 & H2 & new & Hq & Ho).
      { simpl. by rewrite (lasts_snoc _ _ _ Hlast), Henq. }
      split; [done|]. split; [done|]. exists ((p ++ [v]) :: new).
      simpl in Hq, Ho. rewrite Hq, Ho, <- !app_assoc. split; [done|].
      unfold lasts. simpl. by rewrite Hlast.
Qed.

Lemma bfs_loop_queue_spec G goal fuel :
  ∀ st deq enq,
    bfs_visited_order st = lasts enq →
    bfs_visited_order st = deq ++ lasts (bfs_queue st) →
    match bfs_loop_queue fuel G goal st deq enq with
    | None => bfs_loop fuel G goal st deq = None
    | Some (Raise e) => bfs_loop fuel G goal st deq = Some (Raise e)
    | Some (Ret r) =>
        bfs_loop fuel G goal st deq
          = Some (Ret (rec_path r, rec_visited_order r, rec_dequeued r)) ∧
        rec_visited_order r = lasts (rec_enqueued r) ∧
        rec_visited_order r = rec_dequeued r ++ lasts (rec_queue r) ∧
        (rec_path r = None → rec_queue r = [])
    end.
Proof.
  induction fuel as [|fuel IH]; intros st deq enq Henq Hdeq; [done|].
  simpl. destruct (bfs_queue st) as [|path rest] eqn:Hq.
  { simpl. repeat split; try done. }
  destruct (last path) as [node|] eqn:Hlast; [|done].
  assert (lasts (path :: rest) = node :: lasts rest) as Hlasts.
  { unfold lasts. simpl. by rewrite Hlast. }
  rewrite Hlasts in Hdeq.
  destruct (decide (node = goal)) as [->|Hne].
  { simpl. split; [done|]. split; [done|].
    split; [by rewrite <- app_assoc|done]. }
  destruct (neighbors G node) as [ns|e]; [|done].
  set (st0 := {| bfs_visited := bfs_visited st; bfs_queue := rest;
                 bfs_visited_order := bfs_visited_order st |}).
  destruct (bfs_for_queue path (sorted ns) st0 enq Henq)
    as (H1 & H2 & new & Hq' & Ho).
  rewrite <- H1 in H2, Hq', Ho |- *. apply IH; [done|].
  rewrite Ho, Hq'. simpl. unfold lasts. rewrite omap_app.
  fold (lasts rest) (lasts new). by rewrite Hdeq, <- !app_assoc.
Qed.

(** C4, as the code has it: both searches end within their fuel.  The visit
    order of [bfs_path] lists the vertices as they were put on the queue:
    it is the list of the last vertices of the enqueued paths.  So it
    begins with the dequeued vertices in dequeue order and goes on with the
    vertices that are still in the queue when the function returns, in
    queue order; when no path is found the queue is empty and the visit
    order is the dequeue order.  The visit order of [dfs_path] lists the
    popped vertices at their first pop. *)
Theorem visit_order_of_searches (ops : list nx_op) (start goal : string)
    (fuel : nat) :
  (bfs_fuel (nx_build ops) ≤ fuel)%nat →
  (dfs_fuel (nx_build ops) ≤ fuel)%nat →
  (∃ r, bfs_path_queue fuel (nx_build ops) start goal = Some r ∧
     ∀ b, r = Ret b →
       bfs_path fuel (nx_build ops) start goal
         = Some (Ret (rec_path b, rec_visited_order b)) ∧
       bfs_path_traced fuel (nx_build ops) start goal
         = Some (Ret (rec_path b, rec_visited_order b, rec_dequeued b)) ∧
       rec_visited_order b = lasts (rec_enqueued b) ∧
       rec_visited_order b = rec_dequeued b ++ lasts (rec_queue b) ∧
       (rec_path b = None →
        rec_queue b = [] ∧ rec_visited_order b = rec_dequeued b)) ∧
  (∃ r, dfs_path_traced fuel (nx_build ops) start goal = Some r ∧
     ∀ res order popped, r = Ret (res, order, popped) →
       dfs_path fuel (nx_build ops) start goal = Some (Ret (res, order)) ∧
       order = first_occurrences popped).
Proof.
  intros Hbfs Hdfs. split.
  - destruct (bfs_loop_terminates _ goal (nx_build_closed ops) fuel
                (bfs_init start) []) as [r Hr].
    { pose proof (bfs_init_measure (nx_build ops) start). lia. }
    pose proof (bfs_loop_queue_spec (nx_build ops) goal fuel
                  (bfs_init start) [] [[start]] eq_refl eq_refl) as Hspec.
    unfold bfs_path_queue, bfs_path, bfs_path_traced.
    destruct (bfs_loop_queue fuel _ goal _ _ _) as [[b|e]|].
    + destruct Hspec as (Hrun & Henq & Hdeq & Hnone).
      exists (Ret b). split; [done|]. intros ? [= <-].
      rewrite Hrun. split; [done|]. split; [done|]. split; [done|].
      split; [done|]. intros Hres. specialize (Hnone Hres).
      split; [done|]. by rewrite Hdeq, Hnone, app_nil_r.
    + exists (Raise e). split; [done|]. by intros ? [=].
    + by rewrite Hspec in Hr.
  - destruct (dfs_loop_terminates (nx_build ops) goal fuel
                (dfs_init start) []) as [r Hr].
    { simpl. rewrite dfs_budget_empty. unfold dfs_fuel in Hdfs. lia. }
    exists r. split; [done|]. intros res order popped ->.
    split; [by eapply dfs_path_unfold|by eapply dfs_path_traced_order].
Qed.

Lemma visit_order_of_searches_witness :
  (∃ r, bfs_path_queue 8 (nx_build [AddEdge "A" "B" 2; AddEdge "A" "C" 3])
          "A" "B" = Some r ∧
     ∀ b, r = Ret b →
       bfs_path 8 (nx_build [AddEdge "A" "B" 2; AddEdge "A" "C" 3]) "A" "B"
         = Some (Ret (rec_path b, rec_visited_order b)) ∧
       bfs_path_traced 8 (nx_build [AddEdge "A" "B" 2; AddEdge "A" "C" 3])
         "A" "B"
         = Some (Ret (rec_path b, rec_visited_order b, rec_dequeued b)) ∧
       rec_visited_order b = lasts (rec_enqueued b) ∧
       rec_visited_order b = rec_dequeued b ++ lasts (rec_queue b) ∧
       (rec_path b = None →
        rec_queue b = [] ∧ rec_visited_order b = rec_dequeued b)) ∧
  (∃ r, dfs_path_traced 8 (nx_build [AddEdge "A" "B" 2; AddEdge "A" "C" 3])
          "A" "B" = Some r ∧
     ∀ res order popped, r = Ret (res, order, popped) →
       dfs_path 8 (nx_build [AddEdge "A" "B" 2; AddEdge "A" "C" 3]) "A" "B"
         = Some (Ret (res, order)) ∧
       order = first_occurrences popped).
Proof.
  apply (visit_order_of_searches
           [AddEdge "A" "B" 2; AddEdge "A" "C" 3] "A" "B" 8).
  - vm_compute. lia.
  - vm_compute. lia.
Defined.

(** C4 as stated fails for [bfs_path]: with edges A-B and A-C and goal B,
    the search dequeues A and B only, yet the visit order also lists C,
    which was enqueued and never dequeued. *)
Lemma visit_order_is_not_dequeue_order :
  ¬ (∀ ops start goal fuel res order dequeued,
       bfs_path_traced fuel (nx_build ops) start goal
         = Some (Ret (res, order, dequeued)) →
       order = dequeued).
Proof.
  intros H.
  specialize (H [AddEdge "A" "B" 2; AddEdge "A" "C" 3] "A" "B" 8%nat
                (Some ["A"; "B"]) ["A"; "B"; "C"] ["A"; "B"]).
  discriminate H. vm_compute. reflexivity.
Qed.

(** ** Unreachable goals and unknown vertices *)

(** A vertex that is not a node cannot be reached from a node. *)
Lemma nx_walk_unknown G s t n :
  nx_closed G → is_Some (G !! s) → G !! t = None → ¬ nx_walk G s t n.
Proof.
  intros Hcl Hs Ht Hwalk. destruct Hwalk as [|u v n _ Hadj].
  - rewrite Ht in Hs. by destruct Hs.
  - apply Hcl in Hadj. rewrite Ht in Hadj. by destruct Hadj.
Qed.

Lemma nx_nodes_spec (G : nxGraph) x : x ∈ nx_nodes G ↔ is_Some (G !! x).
Proof. unfold nx_nodes. by rewrite elem_of_elements, elem_of_dom. Qed.

(** An unreachable goal makes [bfs_path] return [None]. *)
Lemma bfs_path_unreachable ops start goal fuel :
  is_Some (nx_build ops !! start) →
  ¬ nx_reachable (nx_build ops) start goal →
  (bfs_fuel (nx_build ops) ≤ fuel)%nat →
  ∃ order, bfs_path fuel (nx_build ops) start goal = Some (Ret (None, order)).
Proof.
  intros Hstart Hun Hfuel.
  destruct (bfs_path_traced_returns ops start goal fuel)
    as (res & order & deq & Hrun); [by left|done|].
  pose proof (bfs_loop_correct _ start goal fuel _ _ 0%nat _ _ _
                (bfs_init_inv _ start) (not_elem_of_nil goal) Hrun)
    as [_ Hres].
  destruct res as [path|].
  - exfalso. apply Hun. exists path. by destruct Hres.
  - exists order. by eapply bfs_path_unfold.
Qed.

(** An unknown start, other than the goal, makes [bfs_path] raise. *)
Lemma bfs_path_unknown_start (G : nxGraph) start goal fuel :
  G !! start = None → start ≠ goal →
  bfs_path (S fuel) G start goal = Some (Raise (NetworkXError start)).
Proof.
  intros Hstart Hne. unfold bfs_path, bfs_path_traced. simpl.
  rewrite decide_False by done. by rewrite (neighbors_Raise _ _ Hstart).
Qed.

(** An unknown start makes [dijkstra_heap] raise. *)
Lemma dijkstra_heap_unknown_start g start fuel :
  adjacency_list g !! start = None →
  dijkstra_heap (S fuel) g start = Some (Raise (KeyError start)).
Proof.
  intros Hstart. unfold dijkstra_heap. simpl.
  rewrite decide_True by done. unfold dijkstra_step. simpl.
  rewrite lookup_insert_eq. simpl. by rewrite Hstart.
Qed.

(** An unknown target makes [reconstruct_path] raise. *)
Lemma reconstruct_path_unknown_target g start st done target fuel :
  Inv g start st done [] →
  adjacency_list g !! target = None →
  reconstruct_path fuel (prev st) start target
    = Some (Raise (KeyError target)).
Proof.
  intros HI Htarget. unfold reconstruct_path.
  assert (prev st !! target = None) as ->; [|done].
  apply not_elem_of_dom. rewrite (inv_dom_prev _ _ _ _ _ HI).
  by apply not_elem_of_dom.
Qed.

(** C7, as the code has it: an unreachable goal is a normal return value
    ([bfs_path] returns a [None] path; [dijkstra_heap] gives the distance
    [Inf] and [reconstruct_path] returns [None]).  A vertex that was never
    added raises an error when it is the start of [bfs_path] and differs from
    the goal, the start of [dijkstra_heap], or the target of
    [reconstruct_path]; as the goal of [bfs_path] it is reported as no path,
    like an unreachable goal. *)
Theorem unreachable_and_unknown_vertices (calls : list edge_call)
    (ops : list nx_op) (start goal : string) (fuel : nat) :
  nonneg_weights (build_graph calls) →
  (dijkstra_fuel (build_graph calls) ≤ fuel)%nat →
  (length (vertices (build_graph calls)) ≤ fuel)%nat →
  (bfs_fuel (nx_build ops) ≤ fuel)%nat →
  (start ∈ nx_nodes (nx_build ops) →
   ¬ nx_reachable (nx_build ops) start goal →
   ∃ order,
     bfs_path fuel (nx_build ops) start goal = Some (Ret (None, order))) ∧
  (start ∈ nx_nodes (nx_build ops) → goal ∉ nx_nodes (nx_build ops) →
   ∃ order,
     bfs_path fuel (nx_build ops) start goal = Some (Ret (None, order))) ∧
  (start ∉ nx_nodes (nx_build ops) → start ≠ goal →
   bfs_path fuel (nx_build ops) start goal
     = Some (Raise (NetworkXError start))) ∧
  (start ∈ vertices (build_graph calls) →
   ∃ dist prev,
     dijkstra_heap fuel (build_graph calls) start = Some (Ret (dist, prev)) ∧
     (goal ∈ vertices (build_graph calls) →
      ¬ reachable (build_graph calls) start goal →
      dist !! goal = Some Inf ∧
      reconstruct_path fuel prev start goal = Some (Ret None)) ∧
     (goal ∉ vertices (build_graph calls) →
      reconstruct_path fuel prev start goal = Some (Raise (KeyError goal)))) ∧
  (start ∉ vertices (build_graph calls) →
   dijkstra_heap fuel (build_graph calls) start
     = Some (Raise (KeyError start))).
Proof.
  intros Hnn Hfuel Hfuel' Hbfs.
  assert (∃ fuel', fuel = S fuel') as [fuel' ->].
  { unfold bfs_fuel in Hbfs. destruct fuel; [lia|eauto]. }
  split; [|split; [|split; [|split]]].
  - intros Hstart%nx_nodes_spec Hun. by apply bfs_path_unreachable.
  - intros Hstart%nx_nodes_spec Hgoal. apply bfs_path_unreachable; try done.
    intros [q Hq]. apply path_from_to_nx_walk in Hq.
    eapply (nx_walk_unknown _ start goal); eauto.
    + apply nx_build_closed.
    + rewrite nx_nodes_spec in Hgoal.
      by apply eq_None_not_Some.
  - intros Hstart Hne. apply bfs_path_unknown_start; [|done].
    rewrite nx_nodes_spec in Hstart. by apply eq_None_not_Some.
  - intros Hstart%vertices_spec.
    destruct (dijkstra_loop_terminates _ start (S fuel')
                (build_graph_closed calls) Hnn Hstart Hfuel)
      as (st & done & Hloop & HI & Hheap).
    exists (dist st), (prev st). split; [by apply dijkstra_heap_unfold|].
    split.
    + intros Hgoal%vertices_spec Hun.
      destruct (Inv_final_reconstruct _ _ _ _ goal (S fuel') HI Hheap
                  Hgoal Hfuel') as [Hnone _].
      by destruct (Hnone Hun).
    + intros Hgoal. eapply reconstruct_path_unknown_target; [done|].
      rewrite vertices_spec in Hgoal. by apply eq_None_not_Some.
  - intros Hstart. apply dijkstra_heap_unknown_start.
    rewrite vertices_spec in Hstart. by apply eq_None_not_Some.
Qed.

Lemma unreachable_and_unknown_vertices_witness :
  (bfs_path 6 (nx_build [AddEdge "A" "B" 2; AddNode "C"]) "Z" "A"
     = Some (Raise (NetworkXError "Z"))) ∧
  (dijkstra_heap 6
     (build_graph [EdgeCall "A" "B" 2 true; EdgeCall "D" "C" 1 false]) "Z"
     = Some (Raise (KeyError "Z"))).
Proof.
  destruct (unreachable_and_unknown_vertices
              [EdgeCall "A" "B" 2 true; EdgeCall "D" "C" 1 false]
              [AddEdge "A" "B" 2; AddNode "C"] "Z" "A" 6)
    as (_ & _ & Hbfs & _ & Hdijkstra).
  - apply nonneg_weights_check. vm_compute. reflexivity.
  - vm_compute. lia.
  - vm_compute. lia.
  - vm_compute. lia.
  - split.
    + apply Hbfs; [|done].
      intros Hin%nx_nodes_spec. revert Hin. vm_compute.
      intros [x Hx]. discriminate Hx.
    + apply Hdijkstra.
      intros Hin%vertices_spec. revert Hin. vm_compute.
      intros [x Hx]. discriminate Hx.
Defined.

(** C7 as stated fails: a goal that was never added to the graph does not
    make [bfs_path] raise; the call returns the [None] path, which is also
    what an unreachable goal gives. *)
Lemma unknown_goal_is_not_an_error :
  ¬ (∀ ops start goal fuel,
       goal ∉ nx_nodes (nx_build ops) →
       (bfs_fuel (nx_build ops) ≤ fuel)%nat →
       ∃ e, bfs_path fuel (nx_build ops) start goal = Some (Raise e)).
Proof.
  intros H.
  destruct (H [AddEdge "A" "B" 2] "A" "Z" 4%nat) as [e He].
  - intros Hin%nx_nodes_spec. revert Hin. vm_compute.
    intros [x Hx]. discriminate Hx.
  - vm_compute. lia.
  - revert He. vm_compute. discriminate.
Qed.

(** ** Dijkstra on unit weights against the hop count of [bfs_path] *)

Lemma unit_weights_nonneg g : unit_weights g → nonneg_weights g.
Proof. intros Hunit u v w Hin. rewrite (Hunit u v w Hin). lia. Qed.

Lemma walk_nx_walk G g s v d :
  unit_weights g → same_edges G g →
  walk g s v d → ∃ n, nx_walk G s v n ∧ d = Z.of_nat n.
Proof.
  intros Hunit Hsame. induction 1 as [|u v w d _ (n & Hn & ->) Hin].
  - exists O. split; [constructor|done].
  - exists (S n). split.
    + apply nx_walk_snoc with u; [done|]. apply Hsame. eauto.
    + rewrite (Hunit u v w Hin). lia.
Qed.

Lemma nx_walk_walk G g s v n :
  unit_weights g → same_edges G g →
  nx_walk G s v n → walk g s v (Z.of_nat n).
Proof.
  intros Hunit Hsame. induction 1 as [|u v n _ IH Hadj].
  - constructor.
  - apply Hsame in Hadj as [w Hin].
    replace (Z.of_nat (S n)) with (Z.of_nat n + w).
    + by apply walk_snoc with u.
    + rewrite (Hunit u v w Hin). lia.
Qed.

(** C5: when every edge weight is 1 and the NetworkX graph has the same
    edges as the [Graph], the distance that [dijkstra_heap] computes for a
    reachable [goal] is the number of edges of the path that [bfs_path]
    returns. *)
Theorem dijkstra_unit_weights_equals_bfs_hops (calls : list edge_call)
    (ops : list nx_op) (start goal : string) (fuel : nat) :
  unit_weights (build_graph calls) →
  same_edges (nx_build ops) (build_graph calls) →
  start ∈ vertices (build_graph calls) →
  reachable (build_graph calls) start goal →
  (dijkstra_fuel (build_graph calls) ≤ fuel)%nat →
  (bfs_fuel (nx_build ops) ≤ fuel)%nat →
  ∃ dist prev path order,
    dijkstra_heap fuel (build_graph calls) start = Some (Ret (dist, prev)) ∧
    bfs_path fuel (nx_build ops) start goal = Some (Ret (Some path, order)) ∧
    dist !! goal = Some (Fin (Z.of_nat (hops path))).
Proof.
  intros Hunit Hsame Hstart [d Hd] Hfuel Hbfs.
  apply vertices_spec in Hstart.
  destruct (dijkstra_loop_terminates _ start fuel
              (build_graph_closed calls) (unit_weights_nonneg _ Hunit)
              Hstart Hfuel)
    as (st & done & Hloop & HI & Hheap).
  destruct (walk_nx_walk _ _ _ _ _ Hunit Hsame Hd) as (n & Hn & ->).
  destruct (nx_walk_path_from_to _ _ _ _ Hn) as (q & Hq & Hqn).
  destruct (bfs_path_traced_shortest ops start goal fuel) as
    (path & order & deq & Hrun & Hpath & _ & Hmin); [by exists q|done|].
  exists (dist st), (prev st), path, order.
  split; [by apply dijkstra_heap_unfold|].
  split; [by eapply bfs_path_unfold|].
  destruct (Inv_final_lower _ _ _ _ _ _ HI Hheap Hd) as (m & Hm & _).
  rewrite Hm. do 2 f_equal. apply Z.le_antisymm.
  - (* the path of [bfs_path] is a walk of the [Graph] *)
    pose proof (nx_walk_walk _ _ _ _ _ Hunit Hsame
                  (path_from_to_nx_walk _ _ _ _ Hpath)) as Hw.
    destruct (Inv_final_lower _ _ _ _ _ _ HI Hheap Hw) as (m' & Hm' & Hle).
    rewrite Hm in Hm'. by injection Hm' as <-.
  - (* the walk behind the distance is a path of the NetworkX graph *)
    pose proof (inv_walk _ _ _ _ _ HI _ _ Hm) as Hw.
    destruct (walk_nx_walk _ _ _ _ _ Hunit Hsame Hw) as (k & Hk & ->).
    destruct (nx_walk_path_from_to _ _ _ _ Hk) as (q' & Hq' & <-).
    specialize (Hmin q' Hq'). lia.
Qed.

(** Checks of [unit_weights] and [same_edges] that compute. *)
Lemma unit_weights_check g :
  forallb (λ x, forallb (λ e : string * Z, e.2 =? 1) (edges_of g x))
          (vertices g) = true →
  unit_weights g.
Proof.
  intros Hall u v w Hin.
  destruct (adjacency_list g !! u) as [es|] eqn:Hu.
  - rewrite forallb_forall in Hall.
    assert (u ∈ vertices g) as Huv by (apply vertices_spec; eauto).
    apply list_elem_of_In, Hall in Huv.
    rewrite forallb_forall in Huv.
    apply list_elem_of_In, Huv in Hin. simpl in Hin. lia.
  - unfold edges_of in Hin. rewrite Hu in Hin. by apply elem_of_nil in Hin.
Qed.

Lemma same_edges_check (G : nxGraph) g :
  forallb (λ x, bool_decide (nbrs G x = list_to_set (edges_of g x).*1))
          (nx_nodes G ++ vertices g) = true →
  same_edges G g.
Proof.
  intros Hall u v. rewrite forallb_forall in Hall.
  assert (nbrs G u = list_to_set (edges_of g u).*1) as Heq.
  { destruct (G !! u) as [m|] eqn:HG.
    - eapply bool_decide_eq_true, Hall, list_elem_of_In, elem_of_app.
      left. apply nx_nodes_spec. eauto.
    - destruct (adjacency_list g !! u) as [es|] eqn:Hg.
      + eapply bool_decide_eq_true, Hall, list_elem_of_In, elem_of_app.
        right. apply vertices_spec. eauto.
      + unfold nbrs, edges_of. rewrite HG, Hg. simpl. by rewrite dom_empty_L. }
  rewrite adjacent_nbrs, Heq, elem_of_list_to_set, list_elem_of_fmap.
  split.
  - intros ([v' w] & -> & Hin). by exists w.
  - intros [w Hin]. by exists (v, w).
Qed.

Lemma dijkstra_unit_weights_equals_bfs_hops_witness :
  ∃ dist prev path order,
    dijkstra_heap 8
      (build_graph [EdgeCall "A" "B" 1 true; EdgeCall "B" "C" 1 true])
      "A" = Some (Ret (dist, prev)) ∧
    bfs_path 8 (nx_build [AddEdge "A" "B" 1; AddEdge "B" "C" 1]) "A" "C"
      = Some (Ret (Some path, order)) ∧
    dist !! "C" = Some (Fin (Z.of_nat (hops path))).
Proof.
  apply (dijkstra_unit_weights_equals_bfs_hops
           [EdgeCall "A" "B" 1 true; EdgeCall "B" "C" 1 true]
           [AddEdge "A" "B" 1; AddEdge "B" "C" 1] "A" "C" 8).
  - apply unit_weights_check. vm_compute. reflexivity.
  - apply same_edges_check. vm_compute. reflexivity.
  - apply vertices_check. vm_compute. reflexivity.
  - exists (0 + 1 + 1). apply walk_snoc with "B".
    + apply walk_snoc with "A"; [constructor|].
      apply list_elem_of_In. vm_compute. tauto.
    + apply list_elem_of_In. vm_compute. tauto.
  - vm_compute. lia.
  - vm_compute. lia.
Defined.

(** ** The NetworkX graph read as a [Graph] *)

Lemma nx_to_Graph_edges G u v w :
  (v, w) ∈ edges_of (nx_to_Graph G) u ↔
  ∃ m, G !! u = Some m ∧ m !! v = Some w.
Proof.
  unfold edges_of, nx_to_Graph. simpl. rewrite lookup_fmap.
  destruct (G !! u) as [m|]; simpl.
  - rewrite elem_of_map_to_list. naive_solver.
  - split; [by intros ?%elem_of_nil|by intros (m & ? & _)].
Qed.

Lemma walk_nx_wwalk G s v d :
  walk (nx_to_Graph G) s v d ↔ nx_wwalk G s v d.
Proof.
  split.
  - induction 1 as [|u v w d _ IH Hin]; [constructor|].
    apply nx_to_Graph_edges in Hin as (m & Hm & Hw).
    by apply nx_wwalk_snoc with u m.
  - induction 1 as [|u v m w d _ IH Hm Hw]; [constructor|].
    apply walk_snoc with u; [done|]. apply nx_to_Graph_edges. eauto.
Qed.

Lemma nx_to_Graph_closed G : nx_closed G → graph_closed (nx_to_Graph G).
Proof.
  intros Hcl u v w Hin. apply nx_to_Graph_edges in Hin as (m & Hm & Hw).
  unfold nx_to_Graph. simpl. rewrite lookup_fmap.
  destruct (Hcl u v) as [m' ->]; [|by eexists].
  exists m. split; [done|]. apply elem_of_dom. eauto.
Qed.

Lemma nx_to_Graph_nonneg G : nx_nonneg G → nonneg_weights (nx_to_Graph G).
Proof.
  intros Hnn u v w Hin. apply nx_to_Graph_edges in Hin as (m & Hm & Hw).
  by eapply Hnn.
Qed.

Lemma nx_walk_wwalk G s t n : nx_walk G s t n → ∃ d, nx_wwalk G s t d.
Proof.
  induction 1 as [|u v n _ [d IH] (m & Hm & Hv)].
  - exists 0. constructor.
  - apply elem_of_dom in Hv as [w Hw]. exists (d + w).
    by apply nx_wwalk_snoc with u m.
Qed.

Lemma nx_wwalk_walk G s t d : nx_wwalk G s t d → ∃ n, nx_walk G s t n.
Proof.
  induction 1 as [|u v m w d _ [n IH] Hm Hw].
  - exists O. constructor.
  - exists (S n). apply nx_walk_snoc with u; [done|].
    exists m. split; [done|]. apply elem_of_dom. eauto.
Qed.

Lemma nx_reachable_wwalk G s t :
  nx_reachable G s t ↔ ∃ d, nx_wwalk G s t d.
Proof.
  split.
  - intros [p Hp]. eapply nx_walk_wwalk, path_from_to_nx_walk, Hp.
  - intros [d Hd]. destruct (nx_wwalk_walk _ _ _ _ Hd) as [n Hn].
    destruct (nx_walk_path_from_to _ _ _ _ Hn) as (p & Hp & _). by exists p.
Qed.

Lemma nx_wwalk_nonneg G s t d : nx_nonneg G → nx_wwalk G s t d → 0 ≤ d.
Proof.
  intros Hnn. induction 1 as [|u v m w d _ IH Hm Hw]; [done|].
  specialize (Hnn _ _ _ _ Hm Hw). lia.
Qed.

(** ** The contract of [single_source_dijkstra_path_length] *)

Lemma finite_lengths_lookup dist t m :
  finite_lengths dist !! t = Some m ↔ dist !! t = Some (Fin m).
Proof.
  unfold finite_lengths. rewrite lookup_omap.
  destruct (dist !! t) as [[z|]|]; simpl; naive_solver.
Qed.

Lemma single_source_lengths_spec G s :
  nx_closed G → nx_nonneg G → is_Some (G !! s) →
  ∃ lengths,
    single_source_dijkstra_path_length G s = Ret lengths ∧
    (∀ t m, lengths !! t = Some m → nx_shortest_distance G s t m) ∧
    (∀ t d, nx_wwalk G s t d → is_Some (lengths !! t)).
Proof.
  intros Hcl Hnn [ms Hs].
  destruct (dijkstra_loop_terminates (nx_to_Graph G) s
              (dijkstra_fuel (nx_to_Graph G))
              (nx_to_Graph_closed _ Hcl) (nx_to_Graph_nonneg _ Hnn))
    as (st & scanned & Hloop & HI & Hheap); [|done|].
  { unfold nx_to_Graph. simpl. rewrite lookup_fmap, Hs. by eexists. }
  exists (finite_lengths (dist st)).
  unfold single_source_dijkstra_path_length.
  rewrite Hs, (dijkstra_heap_unfold _ _ _ _ Hloop).
  split; [done|]. split.
  - intros t m Hm%finite_lengths_lookup. split.
    + by apply walk_nx_wwalk, (inv_walk _ _ _ _ _ HI).
    + intros d Hd%walk_nx_wwalk.
      destruct (Inv_final_lower _ _ _ _ _ _ HI Hheap Hd) as (m' & Hm' & Hle).
      rewrite Hm in Hm'. by injection Hm' as <-.
  - intros t d Hd%walk_nx_wwalk.
    destruct (Inv_final_lower _ _ _ _ _ _ HI Hheap Hd) as (m & Hm & _).
    exists m. by apply finite_lengths_lookup.
Qed.

(** ** [for] loops that fill a dictionary *)

Lemma for_each_Ret_inv {A S : Type} (body : S → A → result S) l :
  ∀ acc acc', for_each body l acc = Ret acc' →
  ∀ x, x ∈ l → ∃ a a', body a x = Ret a'.
Proof.
  induction l as [|y l IH]; intros acc acc' Hrun x Hx;
    [by apply elem_of_nil in Hx|].
  simpl in Hrun. destruct (body acc y) as [acc1|] eqn:Hy; [|done].
  apply elem_of_cons in Hx as [->|Hx]; [eauto|].
  by eapply IH.
Qed.

Lemma for_each_Raise_inv {A S : Type} (body : S → A → result S) l :
  ∀ acc e, for_each body l acc = Raise e →
  ∃ x a, x ∈ l ∧ body a x = Raise e.
Proof.
  induction l as [|y l IH]; intros acc e Hrun; [done|].
  simpl in Hrun. destruct (body acc y) as [acc1|e'] eqn:Hy.
  - destruct (IH _ _ Hrun) as (x & a & Hx & Hbody).
    exists x, a. split; [by right|done].
  - injection Hrun as <-. exists y, acc. split; [by left|done].
Qed.

Lemma find_all_shortest_paths_spec G :
  nx_closed G → nx_nonneg G →
  ∃ all_lengths,
    find_all_shortest_paths G = Ret all_lengths ∧
    ∀ s, s ∈ nx_nodes G →
      ∃ lengths, all_lengths !! s = Some lengths ∧
                 single_source_dijkstra_path_length G s = Ret lengths.
Proof.
  intros Hcl Hnn. unfold find_all_shortest_paths.
  assert (∀ s, s ∈ nx_nodes G →
            ∃ lengths, single_source_dijkstra_path_length G s = Ret lengths)
    as Hall.
  { intros s Hs%nx_nodes_spec.
    destruct (single_source_lengths_spec G s Hcl Hnn Hs) as (ls & Hls & _).
    eauto. }
  revert Hall. generalize (nx_nodes G) as l.
  generalize (∅ : gmap string (gmap string Z)) as acc.
  intros acc l. revert acc.
  induction l as [|x l IH]; intros acc Hall.
  - exists acc. split; [done|]. by intros s ?%elem_of_nil.
  - destruct (Hall x) as [lx Hx]; [by left|].
    destruct (IH (<[x := lx]> acc)) as (all & Hrun & Hspec).
    { intros s Hs. apply Hall. by right. }
    exists all. simpl. rewrite Hx. split; [done|].
    intros s Hs. destruct (decide (s ∈ l)) as [Hin|Hin]; [by apply Hspec|].
    apply elem_of_cons in Hs as [->|Hs]; [|done].
    exists lx. split; [|done].
    clear IH Hspec Hall. revert all acc Hrun.
    induction l as [|y l IH]; intros all acc Hrun.
    + simpl in Hrun. injection Hrun as <-. by rewrite lookup_insert_eq.
    + apply not_elem_of_cons in Hin as [Hne Hin]. simpl in Hrun.
      destruct (single_source_dijkstra_path_length G y) as [ly|]; [|done].
      rewrite insert_insert_ne in Hrun by done.
      by apply (IH Hin all (<[y := ly]> acc)).
Qed.

(** ** The conversion to float64 *)

Lemma float64_of_nonneg_small a : 0 ≤ a < 2 ^ 53 → float64_of_nonneg a = a.
Proof.
  intros [H0 Hlt]. unfold float64_of_nonneg.
  destruct (decide (a = 0)) as [->|Hne]; [done|].
  assert (Z.log2 a < 53) by (apply Z.log2_lt_pow2; lia).
  destruct (0 <? Z.log2 a - 52) eqn:Hk; [lia|done].
Qed.

(** Rounding moves a number by half a unit of the last place kept, at
    most. *)
Lemma round_half_even_near n k :
  0 ≤ n → 0 < k →
  n / 2 ^ k * 2 ^ k ≤ round_half_even n k ≤ (n / 2 ^ k + 1) * 2 ^ k ∧
  Z.abs (round_half_even n k - n) ≤ 2 ^ (k - 1).
Proof.
  intros Hn Hk. unfold round_half_even.
  assert (0 < 2 ^ (k - 1)) as Hhalf by (apply Z.pow_pos_nonneg; lia).
  assert (2 ^ k = 2 * 2 ^ (k - 1)) as Hpow.
  { rewrite <- (Z.pow_succ_r 2 (k - 1)) by lia. f_equal. lia. }
  pose proof (Z.div_mod n (2 ^ k) ltac:(lia)) as Hdm.
  pose proof (Z.mod_pos_bound n (2 ^ k) ltac:(lia)) as Hr.
  remember (n / 2 ^ k) as q. remember (n mod 2 ^ k) as r.
  remember (2 ^ (k - 1)) as half. rewrite Hpow in *.
  destruct (half <? r) eqn:Hlt; simpl.
  { apply Z.ltb_lt in Hlt. lia. }
  apply Z.ltb_ge in Hlt.
  destruct (r =? half) eqn:Heq; simpl.
  - apply Z.eqb_eq in Heq. destruct (Z.odd q); lia.
  - lia.
Qed.

Lemma float64_exact n : Z.abs n ≤ 2 ^ 53 → float64 n = Ret n.
Proof.
  intros Hn.
  destruct (decide (Z.abs n = 2 ^ 53)) as [Heq|Hne].
  - assert (n = 2 ^ 53 ∨ n = - 2 ^ 53) as [->| ->] by lia;
      vm_compute; reflexivity.
  - unfold float64. rewrite float64_of_nonneg_small by lia.
    assert (Z.abs n ≤ float64_max) as Hle.
    { etrans; [exact Hn|]. vm_compute. discriminate. }
    apply Z.leb_le in Hle. rewrite Hle. f_equal. lia.
Qed.

(** No integer up to the largest float64 overflows. *)
Lemma float64_in_range n :
  Z.abs n ≤ float64_max → ∃ f, float64 n = Ret f.
Proof.
  intros Hn. unfold float64.
  assert (float64_of_nonneg (Z.abs n) ≤ float64_max) as Hle;
    [|apply Z.leb_le in Hle; rewrite Hle; eauto].
  remember (Z.abs n) as a eqn:Ha.
  assert (0 ≤ a) as H0 by lia. clear Ha n.
  unfold float64_of_nonneg.
  destruct (0 <? Z.log2 a - 52) eqn:Hk; [|done].
  apply Z.ltb_lt in Hk.
  assert (0 < a) as Hpos by (destruct (decide (a = 0)) as [->|]; [done|lia]).
  destruct (Z.log2_spec a Hpos) as [Hlo Hhi].
  set (L := Z.log2 a) in *.
  assert (2 ^ L = 2 ^ 52 * 2 ^ (L - 52)) as HL.
  { rewrite <- Z.pow_add_r by lia. f_equal. lia. }
  assert (2 ^ Z.succ L = 2 ^ 53 * 2 ^ (L - 52)) as HL'.
  { rewrite <- Z.pow_add_r by lia. f_equal. lia. }
  assert (0 < 2 ^ (L - 52)) as HP by (apply Z.pow_pos_nonneg; lia).
  pose proof (Z.div_mod a (2 ^ (L - 52)) ltac:(lia)) as Hdm.
  pose proof (Z.mod_pos_bound a (2 ^ (L - 52)) HP) as Hr.
  assert (L < 1024) as HL1024.
  { apply Z.log2_lt_pow2; [done|].
    eapply Z.le_lt_trans; [exact Hn|]. vm_compute. reflexivity. }
  destruct (decide (L = 1023)) as [HL1023|Hne].
  - unfold round_half_even.
    assert (L - 52 = 971) as Hk971 by lia. rewrite Hk971 in *.
    unfold float64_max in *.
    assert (2 ^ 1024 = 2 ^ 53 * 2 ^ 971) as H1024 by (vm_compute; reflexivity).
    assert (2 ^ 53 = 9007199254740992) as H53 by (vm_compute; reflexivity).
    assert (0 < 2 ^ (971 - 1)) as Hhalf by (apply Z.pow_pos_nonneg; lia).
    remember (2 ^ 971) as P. remember (2 ^ (971 - 1)) as Hf.
    remember (a / P) as q. remember (a mod P) as r.
    destruct (decide (q = 2 ^ 53 - 1)) as [Hq|Hq].
    + assert (r = 0) by nia. subst r.
      replace (Hf <? a mod P) with false by (symmetry; apply Z.ltb_ge; lia).
      replace (a mod P =? Hf) with false by (symmetry; apply Z.eqb_neq; lia).
      simpl. nia.
    + assert (q ≤ 2 ^ 53 - 2) by nia.
      destruct (_ || _); nia.
  - pose proof (round_half_even_near a (L - 52) H0 Hk) as [[_ Hup] _].
    etrans; [exact Hup|].
    assert (a / 2 ^ (L - 52) + 1 ≤ 2 ^ 53) as Hq.
    { assert (2 ^ 53 = 9007199254740992) as H53 by (vm_compute; reflexivity).
      nia. }
    assert (2 ^ Z.succ L ≤ 2 ^ 1023) as Hpow.
    { apply Z.pow_le_mono_r; lia. }
    assert (2 ^ 1023 ≤ float64_max) as Hmax by (vm_compute; discriminate).
    nia.
Qed.

(** The float64 of an integer is the integer up to one part in [2^53]. *)
Lemma float64_near n f :
  float64 n = Ret f → Z.abs (f - n) * 2 ^ 53 ≤ Z.abs n.
Proof.
  unfold float64. destruct (_ <=? _); [|done]. intros [= <-].
  assert (Z.abs (Z.sgn n * float64_of_nonneg (Z.abs n) - n)
          = Z.abs (float64_of_nonneg (Z.abs n) - Z.abs n)) as ->.
  { destruct (Z.sgn_spec n) as [[? ->]|[[<- ->]|[? ->]]];
      [lia|vm_compute; reflexivity|lia]. }
  remember (Z.abs n) as a eqn:Ha.
  assert (0 ≤ a) as H0 by lia. clear Ha n.
  unfold float64_of_nonneg.
  destruct (0 <? Z.log2 a - 52) eqn:Hk; [|lia].
  apply Z.ltb_lt in Hk.
  assert (0 < a) as Hpos by (destruct (decide (a = 0)) as [->|]; [done|lia]).
  destruct (Z.log2_spec a Hpos) as [Hlo _].
  pose proof (round_half_even_near a _ H0 Hk) as [_ Hnear].
  assert (2 ^ Z.log2 a = 2 ^ 53 * 2 ^ (Z.log2 a - 52 - 1)) as HL.
  { rewrite <- Z.pow_add_r by lia. f_equal. lia. }
  assert (0 < 2 ^ 53) by (apply Z.pow_pos_nonneg; lia).
  nia.
Qed.

Example float64_rounds :
  float64 (2 ^ 53 + 1) = Ret (2 ^ 53) ∧
  float64 (2 ^ 53 + 3) = Ret (2 ^ 53 + 4) ∧
  float64 (- (2 ^ 53 + 1)) = Ret (- 2 ^ 53) ∧
  float64 (2 ^ 1024 - 2 ^ 970 - 1) = Ret float64_max ∧
  float64 (2 ^ 1024 - 2 ^ 970) = Raise OverflowError.
Proof. vm_compute. done. Qed.

(** ** Filling the matrix *)

Lemma fill_cell_expected all_lengths s t c df :
  expected_cell all_lengths s t = Some c →
  fill_cell all_lengths s df t = Ret (<[(s, t) := c]> df).
Proof.
  unfold expected_cell, fill_cell. destruct (decide (s = t)).
  - by intros [= <-].
  - destruct (all_lengths !! s) as [ls|]; [|done].
    destruct (ls !! t) as [d|]; [|done].
    destruct (float64 d); [|done]. by intros [= <-].
Qed.

Lemma fill_cell_Ret all_lengths s t df df' :
  fill_cell all_lengths s df t = Ret df' →
  is_Some (expected_cell all_lengths s t).
Proof.
  unfold expected_cell, fill_cell. destruct (decide (s = t)); [eauto|].
  destruct (all_lengths !! s) as [ls|]; [|done].
  destruct (ls !! t) as [d|]; [|done].
  destruct (float64 d); [eauto|done].
Qed.

(** [fill_cell] raises [KeyError], or the [OverflowError] of a length that
    is beyond the range of float64. *)
Lemma fill_cell_Raise all_lengths s t df e :
  fill_cell all_lengths s df t = Raise e →
  (∃ k, e = KeyError k) ∨
  (s ≠ t ∧ ∃ lengths d, all_lengths !! s = Some lengths ∧
             lengths !! t = Some d ∧ float64 d = Raise e).
Proof.
  unfold fill_cell. destruct (decide (s = t)); [done|].
  destruct (all_lengths !! s) as [ls|]; [|intros [= <-]; eauto].
  destruct (ls !! t) as [d|] eqn:Hd; [|intros [= <-]; eauto].
  destruct (float64 d) as [f|e'] eqn:Hf; [done|].
  intros [= <-]. right. split; [done|]. by exists ls, d.
Qed.

Lemma fill_row all_lengths s targets :
  ∀ df,
    (∀ t, t ∈ targets → is_Some (expected_cell all_lengths s t)) →
    ∃ df', for_each (fill_cell all_lengths s) targets df = Ret df' ∧
      ∀ s' t', df' !! (s', t') =
        if decide (s' = s ∧ t' ∈ targets) then expected_cell all_lengths s t'
        else df !! (s', t').
Proof.
  induction targets as [|t targets IH]; intros df Hall.
  - exists df. split; [done|]. intros s' t'.
    rewrite decide_False; [done|]. intros [_ ?%elem_of_nil]. done.
  - destruct (Hall t) as [c Hc]; [by left|].
    destruct (IH (<[(s, t) := c]> df)) as (df' & Hrun & Hspec).
    { intros t' Ht'. apply Hall. by right. }
    exists df'. simpl. rewrite (fill_cell_expected _ _ _ _ _ Hc).
    split; [done|]. intros s' t'. rewrite Hspec.
    destruct (decide (s' = s ∧ t' ∈ targets)) as [[-> Hin]|Hno].
    + rewrite decide_True; [done|]. split; [done|by right].
    + destruct (decide (s' = s ∧ t' ∈ t :: targets)) as [[-> Hin]|Hno'].
      * apply elem_of_cons in Hin as [->|Hin]; [|by destruct Hno].
        by rewrite lookup_insert_eq.
      * rewrite lookup_insert_ne; [done|]. intros [= <- <-].
        apply Hno'. split; [done|by left].
Qed.

Lemma fill_matrix all_lengths targets sources :
  ∀ df,
    (∀ s t, s ∈ sources → t ∈ targets →
            is_Some (expected_cell all_lengths s t)) →
    ∃ df',
      for_each (λ df s, for_each (fill_cell all_lengths s) targets df)
        sources df = Ret df' ∧
      ∀ s' t', df' !! (s', t') =
        if decide (s' ∈ sources ∧ t' ∈ targets)
        then expected_cell all_lengths s' t'
        else df !! (s', t').
Proof.
  induction sources as [|s sources IH]; intros df Hall.
  - exists df. split; [done|]. intros s' t'.
    rewrite decide_False; [done|]. intros [?%elem_of_nil _]. done.
  - destruct (fill_row all_lengths s targets df) as (df1 & Hrow & Hspec1).
    { intros t Ht. apply Hall; [by left|done]. }
    destruct (IH df1) as (df' & Hrun & Hspec).
    { intros s' t' Hs' Ht'. apply Hall; [by right|done]. }
    exists df'. simpl. rewrite Hrow. split; [done|].
    intros s' t'. rewrite Hspec, Hspec1.
    destruct (decide (s' ∈ sources ∧ t' ∈ targets)) as [[Hs Ht]|Hno].
    + rewrite decide_True; [done|]. split; [by right|done].
    + destruct (decide (s' = s ∧ t' ∈ targets)) as [[-> Ht]|Hno'].
      * rewrite decide_True; [done|]. split; [by left|done].
      * rewrite decide_False; [done|]. intros [Hs Ht].
        apply elem_of_cons in Hs as [->|Hs]; [by apply Hno'|by apply Hno].
Qed.

Lemma DataFrame_new_None index columns s t :
  ¬ (s ∈ index ∧ t ∈ columns) → DataFrame_new index columns !! (s, t) = None.
Proof.
  intros Hno. unfold DataFrame_new. apply not_elem_of_list_to_map_1.
  intros Hin. apply list_elem_of_fmap in Hin as ([[s' t'] c] & Heq & Hin).
  simpl in Heq. injection Heq as <- <-.
  apply list_elem_of_bind in Hin as (i & Hin & Hi).
  apply list_elem_of_fmap in Hin as (c' & [= -> -> _] & Hc').
  by apply Hno.
Qed.

(** The matrix when every lookup of [fill_cell] succeeds. *)
Lemma create_distance_matrix_filled G all_lengths :
  (∀ s t, s ∈ nx_nodes G → t ∈ nx_nodes G →
          is_Some (expected_cell all_lengths s t)) →
  ∃ M, create_distance_matrix G all_lengths = Ret M ∧
    ∀ s t, M !! (s, t) =
      if decide (s ∈ nx_nodes G ∧ t ∈ nx_nodes G)
      then expected_cell all_lengths s t else None.
Proof.
  intros Hall. unfold create_distance_matrix.
  destruct (fill_matrix all_lengths (nx_nodes G) (nx_nodes G)
              (DataFrame_new (nx_nodes G) (nx_nodes G)) Hall)
    as (M & Hrun & Hspec).
  exists M. split; [done|]. intros s t. rewrite Hspec.
  case_decide; [done|]. by apply DataFrame_new_None.
Qed.

(** The call raises [KeyError] when a lookup of [fill_cell] fails and the
    lengths that are there fit a float64. *)
Lemma create_distance_matrix_raises G all_lengths s t :
  lengths_in_float64_range (nx_nodes G) all_lengths →
  s ∈ nx_nodes G → t ∈ nx_nodes G →
  expected_cell all_lengths s t = None →
  ∃ k, create_distance_matrix G all_lengths = Raise (KeyError k).
Proof.
  intros Hrange Hs Ht Hnone. unfold create_distance_matrix.
  destruct (for_each _ (nx_nodes G) (DataFrame_new _ _)) as [M|e] eqn:Hrun.
  - exfalso.
    destruct (for_each_Ret_inv _ _ _ _ Hrun s Hs) as (df & df' & Hrow).
    destruct (for_each_Ret_inv _ _ _ _ Hrow t Ht) as (df1 & df1' & Hcell).
    apply fill_cell_Ret in Hcell as [c Hc]. congruence.
  - destruct (for_each_Raise_inv _ _ _ _ Hrun) as (s' & df & Hs' & Hrow).
    destruct (for_each_Raise_inv _ _ _ _ Hrow) as (t' & df1 & Ht' & Hcell).
    apply fill_cell_Raise in Hcell
      as [[k ->]|(Hne & ls & d & Hls & Hd & Hover)]; [by exists k|].
    destruct (float64_in_range d) as [f Hf];
      [exact (Hrange s' t' ls d Hs' Ht' Hne Hls Hd)|].
    congruence.
Qed.

(** What [find_all_shortest_paths] has stored for a node. *)
Lemma find_all_shortest_paths_lookup ops all_lengths s :
  nx_nonneg (nx_build ops) →
  find_all_shortest_paths (nx_build ops) = Ret all_lengths →
  s ∈ nx_nodes (nx_build ops) →
  ∃ lengths, all_lengths !! s = Some lengths ∧
    (∀ t m, lengths !! t = Some m →
            nx_shortest_distance (nx_build ops) s t m) ∧
    (∀ t, nx_reachable (nx_build ops) s t → is_Some (lengths !! t)).
Proof.
  intros Hnn Hall Hs.
  destruct (find_all_shortest_paths_spec _ (nx_build_closed ops) Hnn)
    as (all & Hall' & Hspec).
  rewrite Hall in Hall'. injection Hall' as <-.
  destruct (Hspec s Hs) as (lengths & Hl & Hrun). exists lengths.
  split; [done|].
  destruct (single_source_lengths_spec _ s (nx_build_closed ops) Hnn)
    as (lengths' & Hrun' & Hshort & Hreach); [by apply nx_nodes_spec|].
  rewrite Hrun in Hrun'. injection Hrun' as <-. split; [done|].
  intros t [d Hd]%nx_reachable_wwalk. by eapply Hreach.
Qed.

(** C3, as the code has it: on a NetworkX graph with non-negative weights
    whose shortest distances do not exceed the largest float64, when every
    node is reachable from every node the distance matrix is a table over
    the pairs of nodes whose diagonal entries are 0 and whose entry
    [(s, t)] is the float64 of the shortest weighted distance from [s] to
    [t]: the distance itself up to [2^53], and beyond that the distance
    rounded to 53 significant bits, which is off by one part in [2^53] at
    most.  When some node [t] is not reachable from a node [s], no table is
    produced: the call raises [KeyError]. *)
Theorem distance_matrix_of_connected_graph (ops : list nx_op) :
  nx_nonneg (nx_build ops) →
  (∀ s t m, s ∈ nx_nodes (nx_build ops) → t ∈ nx_nodes (nx_build ops) →
            nx_shortest_distance (nx_build ops) s t m → m ≤ float64_max) →
  (nx_connected (nx_build ops) →
   ∃ M, distance_matrix_of (nx_build ops) = Ret M ∧
     (∀ s t, is_Some (M !! (s, t)) ↔
             s ∈ nx_nodes (nx_build ops) ∧ t ∈ nx_nodes (nx_build ops)) ∧
     (∀ s, s ∈ nx_nodes (nx_build ops) → M !! (s, s) = Some (Val (Fin 0))) ∧
     (∀ s t, s ∈ nx_nodes (nx_build ops) → t ∈ nx_nodes (nx_build ops) →
        ∃ m f, nx_shortest_distance (nx_build ops) s t m ∧
               float64 m = Ret f ∧
               M !! (s, t) = Some (Val (Fin f)) ∧
               (m ≤ 2 ^ 53 → f = m) ∧
               Z.abs (f - m) * 2 ^ 53 ≤ m)) ∧
  (∀ s t, s ∈ nx_nodes (nx_build ops) → t ∈ nx_nodes (nx_build ops) →
     ¬ nx_reachable (nx_build ops) s t →
     ∃ k, distance_matrix_of (nx_build ops) = Raise (KeyError k)).
Proof.
  intros Hnn Hbound. pose proof (nx_build_closed ops) as Hcl.
  destruct (find_all_shortest_paths_spec _ Hcl Hnn) as (all & Hall & _).
  unfold distance_matrix_of. rewrite Hall.
  assert (lengths_in_float64_range (nx_nodes (nx_build ops)) all) as Hrange.
  { intros s t ls d Hs Ht Hne Hls Hd.
    destruct (find_all_shortest_paths_lookup _ _ _ Hnn Hall Hs)
      as (ls' & Hls' & Hshort & _).
    rewrite Hls in Hls'. injection Hls' as <-.
    pose proof (Hshort t d Hd) as Hsd.
    pose proof (nx_wwalk_nonneg _ _ _ _ Hnn (proj1 Hsd)).
    pose proof (Hbound s t d Hs Ht Hsd). lia. }
  assert (∀ s t, s ∈ nx_nodes (nx_build ops) → t ∈ nx_nodes (nx_build ops) →
     nx_reachable (nx_build ops) s t →
     ∃ m f, nx_shortest_distance (nx_build ops) s t m ∧
            float64 m = Ret f ∧
            expected_cell all s t = Some (Val (Fin f)) ∧
            (m ≤ 2 ^ 53 → f = m) ∧ Z.abs (f - m) * 2 ^ 53 ≤ m) as Hcell.
  { intros s t Hs Ht Hreach. unfold expected_cell.
    destruct (decide (s = t)) as [->|Hne].
    - exists 0, 0. split; [|done]. split; [constructor|].
      intros d Hd. by eapply nx_wwalk_nonneg.
    - destruct (find_all_shortest_paths_lookup _ _ _ Hnn Hall Hs)
        as (ls & Hls & Hshort & Hkeys).
      rewrite Hls. destruct (Hkeys t Hreach) as [m Hm]. rewrite Hm.
      pose proof (Hshort t m Hm) as Hsd.
      pose proof (nx_wwalk_nonneg _ _ _ _ Hnn (proj1 Hsd)) as H0.
      destruct (float64_in_range m) as [f Hf].
      { pose proof (Hbound s t m Hs Ht Hsd). lia. }
      exists m, f. rewrite Hf. split; [done|]. split; [done|].
      split; [done|]. split.
      + intros Hle. rewrite float64_exact in Hf by lia. by injection Hf.
      + pose proof (float64_near _ _ Hf). lia. }
  split.
  - intros Hconn.
    destruct (create_distance_matrix_filled (nx_build ops) all)
      as (M & Hrun & HM).
    { intros s t Hs Ht.
      destruct (Hcell s t Hs Ht (Hconn s t Hs Ht)) as (m & f & _ & _ & -> & _).
      by eexists. }
    exists M. split; [done|]. split; [|split].
    + intros s t. rewrite HM. case_decide as Hin; [|split; [by intros []|done]].
      destruct Hin as [Hs Ht].
      destruct (Hcell s t Hs Ht (Hconn s t Hs Ht)) as (m & f & _ & _ & -> & _).
      split; [done|by eexists].
    + intros s Hs. rewrite HM, decide_True by done.
      unfold expected_cell. by rewrite decide_True.
    + intros s t Hs Ht. rewrite HM, decide_True by done.
      destruct (Hcell s t Hs Ht (Hconn s t Hs Ht))
        as (m & f & ? & ? & ? & ? & ?).
      by exists m, f.
  - intros s t Hs Ht Hun.
    apply (create_distance_matrix_raises _ _ s t Hrange Hs Ht).
    unfold expected_cell. destruct (decide (s = t)) as [->|Hne].
    { exfalso. apply Hun. exists [t]. done. }
    destruct (find_all_shortest_paths_lookup _ _ _ Hnn Hall Hs)
      as (ls & Hls & Hshort & _).
    rewrite Hls. destruct (ls !! t) as [m|] eqn:Hm; [exfalso|done].
    apply Hun, nx_reachable_wwalk. exists m. by apply (Hshort t m Hm).
Qed.

(** A check of [nx_nonneg] that computes. *)
Lemma nx_nonneg_check (G : nxGraph) :
  forallb (λ x, forallb (λ e : string * Z, 0 <=? e.2)
                  (edges_of (nx_to_Graph G) x))
          (nx_nodes G) = true →
  nx_nonneg G.
Proof.
  intros Hall u m v w Hm Hw. rewrite forallb_forall in Hall.
  assert (u ∈ nx_nodes G) as Hu by (apply nx_nodes_spec; eauto).
  apply list_elem_of_In, Hall in Hu. rewrite forallb_forall in Hu.
  assert ((v, w) ∈ edges_of (nx_to_Graph G) u) as Hin.
  { apply nx_to_Graph_edges. eauto. }
  apply list_elem_of_In, Hu in Hin. simpl in Hin. lia.
Qed.

(** A check that computes of a bound on the shortest distances: the bound
    holds for every length that [find_all_shortest_paths] returns. *)
Lemma nx_distances_check (ops : list nx_op) (B : Z) :
  nx_nonneg (nx_build ops) →
  match find_all_shortest_paths (nx_build ops) with
  | Ret all =>
      forallb (λ p : string * gmap string Z,
                 forallb (λ e : string * Z, e.2 <=? B) (map_to_list p.2))
              (map_to_list all)
  | Raise _ => false
  end = true →
  ∀ s t m, s ∈ nx_nodes (nx_build ops) → t ∈ nx_nodes (nx_build ops) →
    nx_shortest_distance (nx_build ops) s t m → m ≤ B.
Proof.
  intros Hnn Hcheck s t m Hs Ht [Hwalk Hmin].
  destruct (find_all_shortest_paths (nx_build ops)) as [all|] eqn:Hall;
    [|done].
  destruct (find_all_shortest_paths_lookup _ _ _ Hnn Hall Hs)
    as (ls & Hls & Hshort & Hkeys).
  destruct (Hkeys t) as [m' Hm']; [apply nx_reachable_wwalk; eauto|].
  destruct (Hshort t m' Hm') as [Hwalk' _].
  rewrite forallb_forall in Hcheck.
  apply elem_of_map_to_list, list_elem_of_In, Hcheck in Hls. simpl in Hls.
  rewrite forallb_forall in Hls.
  apply elem_of_map_to_list, list_elem_of_In, Hls in Hm'. simpl in Hm'.
  pose proof (Hmin _ Hwalk'). lia.
Qed.

Lemma distance_matrix_of_connected_graph_witness :
  ∃ M, distance_matrix_of (nx_build [AddEdge "A" "B" 2]) = Ret M ∧
    (∀ s t, is_Some (M !! (s, t)) ↔
            s ∈ nx_nodes (nx_build [AddEdge "A" "B" 2]) ∧
            t ∈ nx_nodes (nx_build [AddEdge "A" "B" 2])) ∧
    (∀ s, s ∈ nx_nodes (nx_build [AddEdge "A" "B" 2]) →
          M !! (s, s) = Some (Val (Fin 0))) ∧
    (∀ s t,
       s ∈ nx_nodes (nx_build [AddEdge "A" "B" 2]) →
       t ∈ nx_nodes (nx_build [AddEdge "A" "B" 2]) →
       ∃ m f, nx_shortest_distance (nx_build [AddEdge "A" "B" 2]) s t m ∧
              float64 m = Ret f ∧
              M !! (s, t) = Some (Val (Fin f)) ∧
              (m ≤ 2 ^ 53 → f = m) ∧
              Z.abs (f - m) * 2 ^ 53 ≤ m).
Proof.
  destruct (distance_matrix_of_connected_graph [AddEdge "A" "B" 2])
    as [Hconnected _].
  - apply nx_nonneg_check. vm_compute. reflexivity.
  - apply nx_distances_check.
    + apply nx_nonneg_check. vm_compute. reflexivity.
    + vm_compute. reflexivity.
  - apply Hconnected. intros s t Hs Ht.
    assert (nx_nodes (nx_build [AddEdge "A" "B" 2]) = ["A"; "B"]) as Hnodes
      by (vm_compute; reflexivity).
    rewrite Hnodes in Hs, Ht.
    apply elem_of_cons in Hs as [->|Hs%list_elem_of_singleton];
      apply elem_of_cons in Ht as [->|Ht%list_elem_of_singleton]; subst.
    + by exists ["A"].
    + exists ["A"; "B"]. repeat split.
      apply adjacent_check. vm_compute. reflexivity.
    + exists ["B"; "A"]. repeat split.
      apply adjacent_check. vm_compute. reflexivity.
    + by exists ["B"].
Defined.

(** C3 as stated fails: with two nodes and no edge the call raises
    [KeyError] instead of returning a table that holds [Inf] for the
    unreachable pair. *)
Lemma distance_matrix_has_no_infinity :
  ¬ (∀ ops s t,
       nx_nonneg (nx_build ops) →
       s ∈ nx_nodes (nx_build ops) → t ∈ nx_nodes (nx_build ops) →
       ¬ nx_reachable (nx_build ops) s t →
       ∃ M, distance_matrix_of (nx_build ops) = Ret M ∧
            M !! (s, t) = Some (Val Inf)).
Proof.
  intros H.
  destruct (H [AddNode "A"; AddNode "B"] "A" "B") as (M & HM & _).
  - apply nx_nonneg_check. vm_compute. reflexivity.
  - apply nx_nodes_spec. vm_compute. eauto.
  - apply nx_nodes_spec. vm_compute. eauto.
  - intros [p (Hp & Hhd & Hlast)].
    destruct p as [|x [|y p]]; [done|..].
    + simpl in *. congruence.
    + simpl in Hhd. injection Hhd as ->.
      destruct Hp as [Hadj%adjacent_nbrs _].
      revert Hadj. vm_compute. discriminate.
  - revert HM. vm_compute. discriminate.
Qed.

(** ** The scenarios of the specification, run on the embedding *)

(** [main] of [task_3.py]: the sample graph from A. *)
Example dijkstra_sample_graph :
  match dijkstra_heap 40 build_sample_graph "A" with
  | Some (Ret (dist, prev)) =>
      Some (dist !! "G", dist !! "J", reconstruct_path 10 prev "A" "J")
  | _ => None
  end
  = Some (Some (Fin 14), Some (Fin 21),
          Some (Ret (Some ["A"; "E"; "F"; "G"; "J"]))).
Proof. vm_compute. reflexivity. Qed.

(** A 3-cycle with unit weights: both other vertices are one edge away. *)
Example dijkstra_three_cycle :
  match dijkstra_heap 10
          (build_graph [EdgeCall "A" "B" 1 true; EdgeCall "B" "C" 1 true;
                        EdgeCall "C" "A" 1 true]) "A" with
  | Some (Ret (dist, prev)) => Some (dist !! "B", dist !! "C")
  | _ => None
  end
  = Some (Some (Fin 1), Some (Fin 1)).
Proof. vm_compute. reflexivity. Qed.

(** A vertex Z without edges: no path to it, and it is never visited. *)
Example searches_with_isolated_vertex :
  bfs_path 10 (nx_build [AddEdge "A" "B" 1; AddEdge "B" "C" 1; AddNode "Z"])
    "A" "Z" = Some (Ret (None, ["A"; "B"; "C"])) ∧
  dfs_path 10 (nx_build [AddEdge "A" "B" 1; AddEdge "B" "C" 1; AddNode "Z"])
    "A" "Z" = Some (Ret (None, ["A"; "B"; "C"])).
Proof. split; vm_compute; reflexivity. Qed.

(** [heappop] takes the least tuple, the vertex name breaking ties. *)
Example heappop_order :
  heappop [(7, "E"); (5, "D"); (10, "B"); (5, "C")]
    = Some ((5, "C"), [(7, "E"); (5, "D"); (10, "B")]).
Proof. reflexivity. Qed.

(** [dfs_path] pops the neighbours in ascending order. *)
Example dfs_visits_in_ascending_order :
  dfs_path 10 (nx_build [AddEdge "A" "C" 1; AddEdge "A" "B" 1]) "A" "Z"
    = Some (Ret (None, ["A"; "B"; "C"])).
Proof. vm_compute. reflexivity. Qed.
(** ** The graph store in terms of the calls that built it *)

Lemma edges_of_apply_call g c x :
  edges_of (apply_call g c) x = edges_of g x ++ contribution x c.
Proof.
  unfold edges_of at 1. rewrite apply_call_lookup. unfold contribution.
  destruct (call_undirected c);
    repeat case_decide; simplify_eq; simpl;
    rewrite ?app_nil_r; try done; try congruence;
    by rewrite <- ?app_assoc.
Qed.

(** X1: The vertices of a graph are the endpoints of the [add_edge] calls that
    built it: a vertex has an entry as soon as a call names it, as source
    or as target, and nothing else ever has one. *)
Theorem vertices_are_the_endpoints (calls : list edge_call) (x : string) :
  x ∈ vertices (build_graph calls) ↔
  ∃ c, c ∈ calls ∧ (call_u c = x ∨ call_v c = x).
Proof.
  rewrite vertices_spec.
  induction calls as [|c calls IH] using rev_ind.
  - simpl. rewrite lookup_empty. split.
    + by intros [? ?].
    + by intros (c & ?%elem_of_nil & _).
  - rewrite build_graph_snoc, apply_call_lookup. split.
    + intros Hx.
      destruct (decide (x = call_u c)) as [->|Hu].
      { exists c. split; [|by left].
        apply elem_of_app. right. by apply list_elem_of_singleton. }
      destruct (decide (x = call_v c)) as [->|Hv].
      { exists c. split; [|by right].
        apply elem_of_app. right. by apply list_elem_of_singleton. }
      apply IH in Hx as (c' & Hc' & Hx). exists c'. split; [|done].
      apply elem_of_app. by left.
    + intros (c' & Hc' & Hx).
      destruct (decide (x = call_u c)); [eauto|].
      destruct (decide (x = call_v c)); [eauto|].
      apply IH. apply elem_of_app in Hc' as [Hc'|Hc'].
      * by exists c'.
      * apply list_elem_of_singleton in Hc' as ->. destruct Hx; congruence.
Qed.

(** X2: The adjacency list of a vertex is the concatenation, in call order, of
    what each [add_edge] call contributed to it: nothing is reordered,
    merged or dropped. *)
Theorem adjacency_list_in_call_order (calls : list edge_call) (x : string) :
  edges_of (build_graph calls) x = calls ≫= contribution x.
Proof.
  induction calls as [|c calls IH] using rev_ind.
  - unfold edges_of. simpl. by rewrite lookup_empty.
  - rewrite build_graph_snoc, edges_of_apply_call, IH.
    rewrite bind_app. simpl. by rewrite app_nil_r.
Qed.
(** ** [dfs_path] finds a path whenever there is one *)

(** The stack after the [for] loop over the neighbours. *)
Lemma dfs_for_elem path visited todo :
  ∀ stack p',
    p' ∈ foldl (dfs_neighbor path visited) stack todo ↔
    p' ∈ stack ∨ ∃ n, n ∈ todo ∧ (n ∉ visited) ∧ p' = path ++ [n].
Proof.
  induction todo as [|v todo IH]; intros stack p'; simpl.
  - split; [by left|]. intros [?|(n & ?%elem_of_nil & _)]; done.
  - rewrite IH. unfold dfs_neighbor.
    destruct (decide (v ∈ visited)) as [Hv|Hv].
    + split.
      * intros [?|(n & Hn & Hnv & ->)]; [by left|].
        right. exists n. split; [by right|done].
      * intros [?|(n & Hn & Hnv & ->)]; [by left|].
        apply elem_of_cons in Hn as [->|Hn]; [done|].
        right. by exists n.
    + split.
      * intros [Hp'|(n & Hn & Hnv & ->)].
        -- apply elem_of_cons in Hp' as [->|?]; [|by left].
           right. exists v. split; [by left|done].
        -- right. exists n. split; [by right|done].
      * intros [?|(n & Hn & Hnv & ->)].
        -- left. by right.
        -- apply elem_of_cons in Hn as [->|Hn].
           ++ left. by left.
           ++ right. by exists n.
Qed.

Lemma dfs_init_inv G start goal : DInv G start goal (dfs_init start).
Proof.
  constructor; simpl.
  - intros x. split; [by intros ?%elem_of_empty|by intros ?%elem_of_nil].
  - apply NoDup_nil_2.
  - by intros x ?%elem_of_empty.
  - intros p ->%list_elem_of_singleton. exists [], start.
    split; [done|]. split; [done|]. split; [apply NoDup_singleton|].
    by intros y ?%elem_of_nil.
  - by intros u v ?%elem_of_empty.
  - right. by apply list_elem_of_singleton.
  - by intros ?%elem_of_empty.
  - done.
Qed.

(** Popping a path whose last vertex is visited already. *)
Lemma DInv_pop_visited G start goal st p rest u :
  DInv G start goal st → dfs_stack st = p :: rest → last p = Some u →
  u ∈ dfs_visited st →
  DInv G start goal
    {| dfs_visited := dfs_visited st; dfs_stack := rest;
       dfs_visited_order := dfs_visited_order st |}.
Proof.
  intros [Hvis Hnd Hre Hpaths Hcl Hst Hgoal Hfirst] Hs Hlast Hu.
  assert (∀ v, v ∈ lasts (dfs_stack st) → v ∈ dfs_visited st ∨ v ∈ lasts rest)
    as Hlasts.
  { intros v. rewrite Hs. unfold lasts. simpl. rewrite Hlast.
    intros [->|?]%elem_of_cons; [by left|by right]. }
  constructor; simpl; try done.
  - intros p' Hp'. apply Hpaths. rewrite Hs. by right.
  - intros x y Hx Hxy. destruct (Hcl x y Hx Hxy) as [?|?]; [by left|].
    by apply Hlasts.
  - destruct Hst as [?|?]; [by left|]. by apply Hlasts.
Qed.

(** Popping a path whose last vertex is new, and pushing its neighbours. *)
Lemma DInv_pop_new G start goal st p rest u ns :
  DInv G start goal st → dfs_stack st = p :: rest → last p = Some u →
  u ∉ dfs_visited st → u ≠ goal → neighbors G u = Ret ns →
  DInv G start goal
    {| dfs_visited := dfs_visited st ∪ {[u]};
       dfs_stack := foldl (dfs_neighbor p (dfs_visited st ∪ {[u]})) rest
                      (reverse (sorted ns));
       dfs_visited_order := dfs_visited_order st ++ [u] |}.
Proof.
  intros [Hvis Hnd Hre Hpaths Hcl Hst Hgoal Hfirst] Hs Hlast Hu Hne Hns.
  destruct (Hpaths p) as (q & u' & Hpq & Hp & Hpnd & Hq); [rewrite Hs; by left|].
  assert (u' = u) as ->.
  { rewrite Hpq, last_snoc in Hlast. by injection Hlast. }
  assert (∀ n, n ∈ reverse (sorted ns) ↔ adjacent G u n) as Hadj.
  { intros n. rewrite elem_of_reverse, elem_of_sorted.
    apply (neighbors_spec _ _ _ _ Hns). }
  assert (∀ y, y ∈ p → y ∈ dfs_visited st ∪ {[u]}) as Hpv.
  { intros y. rewrite Hpq. intros [?| ->%list_elem_of_singleton]%elem_of_app.
    - apply elem_of_union. left. by apply Hq.
    - apply elem_of_union. right. by apply elem_of_singleton. }
  assert (∀ v, v ∈ lasts (dfs_stack st) →
            v ∈ dfs_visited st ∪ {[u]} ∨
            v ∈ lasts (foldl (dfs_neighbor p (dfs_visited st ∪ {[u]})) rest
                         (reverse (sorted ns)))) as Hlasts.
  { intros v. rewrite Hs. unfold lasts at 1. simpl. rewrite Hlast.
    intros [->|Hv]%elem_of_cons.
    - left. apply elem_of_union. right. by apply elem_of_singleton.
    - right. apply elem_of_lasts in Hv as (p' & Hp' & Hl).
      apply elem_of_lasts. exists p'. split; [|done].
      apply dfs_for_elem. by left. }
  constructor; simpl.
  - intros x. rewrite elem_of_union, elem_of_singleton, elem_of_app,
      list_elem_of_singleton. by rewrite Hvis.
  - apply NoDup_app. split; [done|]. split; [|apply NoDup_singleton].
    intros x Hx ->%list_elem_of_singleton. by apply Hu, Hvis.
  - intros x [Hx| ->%elem_of_singleton]%elem_of_union; [by apply Hre|].
    by exists p.
  - intros p' [Hp'|(n & Hn & Hnv & ->)]%dfs_for_elem.
    + destruct (Hpaths p') as (q' & x & ? & ? & ? & Hq');
        [rewrite Hs; by right|].
      exists q', x. repeat (split; [done|]).
      intros y Hy. apply elem_of_union. left. by apply Hq'.
    + exists p, n. split; [done|]. split.
      { eapply path_from_to_snoc; [done|]. by apply Hadj. }
      split; [|done].
      apply NoDup_app. split; [done|]. split; [|apply NoDup_singleton].
      intros y Hy ->%list_elem_of_singleton. by apply Hnv, Hpv.
  - intros x y [Hx| ->%elem_of_singleton]%elem_of_union Hxy.
    + destruct (Hcl x y Hx Hxy) as [?|?]; [|by apply Hlasts].
      left. apply elem_of_union. by left.
    + destruct (decide (y ∈ dfs_visited st ∪ {[u]})) as [?|Hy]; [by left|].
      right. apply elem_of_lasts. exists (p ++ [y]).
      split; [|apply last_snoc].
      apply dfs_for_elem. right. exists y. split; [by apply Hadj|done].
  - destruct Hst as [?|?]; [|by apply Hlasts].
    left. apply elem_of_union. by left.
  - intros [?| ->%elem_of_singleton]%elem_of_union; done.
  - intros x. destruct (dfs_visited_order st) as [|x0 order] eqn:Hord; simpl.
    + intros [= <-]. destruct q as [|y q].
      * destruct Hp as (_ & Hhd & _). rewrite Hpq in Hhd. simpl in Hhd.
        by injection Hhd.
      * exfalso. eapply not_elem_of_nil, Hvis, Hq. by left.
    + intros [= <-]. by apply Hfirst.
Qed.

(** When the stack is empty the visited vertices are exactly those that
    can be reached from [start]. *)
Lemma DInv_final_reach G start goal st t n :
  DInv G start goal st → dfs_stack st = [] →
  nx_walk G start t n → t ∈ dfs_visited st.
Proof.
  intros [Hvis Hnd Hre Hpaths Hcl Hst Hgoal Hfirst] Hs.
  rewrite Hs in Hcl, Hst. simpl in Hcl, Hst.
  induction 1 as [|u v n _ IH Hadj].
  - destruct Hst as [?|?%elem_of_nil]; done.
  - destruct (Hcl u v IH Hadj) as [?|?%elem_of_nil]; done.
Qed.


(** What the main loop returns, when it returns. *)
Lemma dfs_loop_correct G start goal fuel :
  ∀ st popped res order popped',
    DInv G start goal st →
    dfs_loop fuel G goal st popped = Some (Ret (res, order, popped')) →
    NoDup order ∧ head order = Some start ∧
    (∀ x, x ∈ order → nx_reachable G start x) ∧
    match res with
    | Some path =>
        path_from_to G start goal path ∧ NoDup path ∧ last order = Some goal
    | None =>
        (∀ x, nx_reachable G start x → x ∈ order) ∧ goal ∉ order
    end.
Proof.
  induction fuel as [|fuel IH]; intros st popped res order popped' HI; [done|].
  simpl. destruct (dfs_stack st) as [|p rest] eqn:Hs.
  - intros [= <- <- <-].
    assert (∀ x, nx_reachable G start x → x ∈ dfs_visited_order st) as Hall.
    { intros x [q Hq]. apply (d_visited _ _ _ _ HI).
      eapply DInv_final_reach; [done..|]. by eapply path_from_to_nx_walk. }
    split; [apply (d_nodup _ _ _ _ HI)|]. split; [|split; [|split]].
    + specialize (Hall start (ex_intro _ [start] (path_from_to_singleton _ _))).
      pose proof (d_first _ _ _ _ HI) as Hfirst.
      destruct (dfs_visited_order st) as [|x l]; [by apply elem_of_nil in Hall|].
      simpl. f_equal. by apply Hfirst.
    + intros x Hx. by apply (d_reach _ _ _ _ HI), (d_visited _ _ _ _ HI).
    + done.
    + intros Hg. by apply (d_goal _ _ _ _ HI), (d_visited _ _ _ _ HI).
  - destruct (d_paths _ _ _ _ HI p) as (q & u & Hpq & Hp & Hpnd & Hq);
      [rewrite Hs; by left|].
    assert (last p = Some u) as Hlast by (rewrite Hpq; apply last_snoc).
    rewrite Hlast.
    destruct (decide (u ∈ dfs_visited st)) as [Hu|Hu].
    { apply IH. by eapply DInv_pop_visited. }
    destruct (decide (u = goal)) as [->|Hne].
    + intros [= <- <- <-].
      split; [|split; [|split]].
      * apply NoDup_app. split; [apply (d_nodup _ _ _ _ HI)|].
        split; [|apply NoDup_singleton].
        intros x Hx ->%list_elem_of_singleton.
        by apply Hu, (d_visited _ _ _ _ HI).
      * pose proof (d_first _ _ _ _ HI) as Hfirst.
        destruct (dfs_visited_order st) as [|x l] eqn:Hord; simpl.
        -- destruct q as [|y q].
           ++ destruct Hp as (_ & Hhd & _). rewrite Hpq in Hhd. done.
           ++ exfalso. eapply not_elem_of_nil. rewrite <- Hord.
              apply (d_visited _ _ _ _ HI), Hq. by left.
        -- f_equal. by apply Hfirst.
      * intros x [Hx| ->%list_elem_of_singleton]%elem_of_app.
        -- by apply (d_reach _ _ _ _ HI), (d_visited _ _ _ _ HI).
        -- by exists p.
      * split; [done|]. split; [done|]. apply last_snoc.
    + destruct (neighbors G u) as [ns|e] eqn:Hns; [|done].
      apply IH. by eapply DInv_pop_new.
Qed.

(** No error is raised when every path of the stack ends in a node of the
    graph or in [goal]. *)
Lemma dfs_for_queue_ok G goal p visited todo stack :
  (∀ v, v ∈ todo → is_Some (G !! v)) →
  queue_ok G goal stack →
  queue_ok G goal (foldl (dfs_neighbor p visited) stack todo).
Proof.
  intros Hin Hok p' [Hp'|(n & Hn & _ & ->)]%dfs_for_elem; [by apply Hok|].
  exists n. split; [apply last_snoc|]. left. by apply Hin.
Qed.

Lemma dfs_loop_no_raise (G : nxGraph) goal :
  nx_closed G →
  ∀ fuel st popped e,
    queue_ok G goal (dfs_stack st) →
    dfs_loop fuel G goal st popped ≠ Some (Raise e).
Proof.
  intros Hcl. induction fuel as [|fuel IH]; intros st popped e Hok; [done|].
  simpl. destruct (dfs_stack st) as [|p rest] eqn:Hs; [done|].
  destruct (Hok p) as (u & Hlast & Hu); [by left|]. rewrite Hlast.
  assert (queue_ok G goal rest) as Hrest.
  { intros p' Hp'. apply Hok. by right. }
  destruct (decide (u ∈ dfs_visited st)); [by apply IH|].
  destruct (decide (u = goal)) as [|Hne]; [done|].
  destruct Hu as [Hu|Hu]; [|done].
  destruct (neighbors_Ret _ _ Hu) as [ns Hns]. rewrite Hns.
  apply IH. simpl. apply dfs_for_queue_ok; [|done].
  intros v Hv. apply (Hcl u v), (neighbors_spec _ _ _ _ Hns).
  by apply elem_of_sorted, elem_of_reverse.
Qed.

(** [dfs_path] returns, with or without a path, whenever [start] is a node
    of the graph or is [goal] itself. *)
Lemma dfs_path_traced_returns ops start goal fuel :
  is_Some (nx_build ops !! start) ∨ start = goal →
  (dfs_fuel (nx_build ops) ≤ fuel)%nat →
  ∃ res order popped,
    dfs_path_traced fuel (nx_build ops) start goal
      = Some (Ret (res, order, popped)).
Proof.
  intros Hstart Hfuel. unfold dfs_path_traced.
  destruct (dfs_loop_terminates (nx_build ops) goal fuel (dfs_init start) [])
    as [r Hr].
  { simpl. rewrite dfs_budget_empty. unfold dfs_fuel in Hfuel. lia. }
  destruct r as [[[res order] popped]|e].
  - by exists res, order, popped.
  - exfalso. eapply (dfs_loop_no_raise _ goal (nx_build_closed ops)); [|done].
    intros p ->%list_elem_of_singleton. by exists start.
Qed.

(** X8: On every NetworkX graph and from every node [start], [dfs_path] returns
    within [dfs_fuel] iterations; it returns a path exactly when [goal] can
    be reached from [start], and the path it returns leads from [start] to
    [goal] along edges of the graph and repeats no vertex. *)
Theorem dfs_path_finds_a_path (ops : list nx_op) (start goal : string)
    (fuel : nat) :
  start ∈ nx_nodes (nx_build ops) →
  (dfs_fuel (nx_build ops) ≤ fuel)%nat →
  ∃ res order,
    dfs_path fuel (nx_build ops) start goal = Some (Ret (res, order)) ∧
    match res with
    | Some path => path_from_to (nx_build ops) start goal path ∧ NoDup path
    | None => ¬ nx_reachable (nx_build ops) start goal
    end.
Proof.
  intros Hstart%nx_nodes_spec Hfuel.
  destruct (dfs_path_traced_returns ops start goal fuel)
    as (res & order & popped & Hrun); [by left|done|].
  exists res, order. split; [by eapply dfs_path_unfold|].
  destruct (dfs_loop_correct _ start goal fuel _ _ _ _ _
              (dfs_init_inv _ start goal) Hrun) as (_ & _ & _ & Hres).
  destruct res as [path|].
  - by destruct Hres as (? & ? & _).
  - destruct Hres as [Hall Hg]. intros Hre. by apply Hg, Hall.
Qed.

Lemma dfs_path_finds_a_path_witness :
  ∃ res order,
    dfs_path 10
      (nx_build [AddEdge "a" "b" 1; AddEdge "b" "c" 1; AddNode "z"])
      "a" "c" = Some (Ret (res, order)) ∧
    match res with
    | Some path =>
        path_from_to
          (nx_build [AddEdge "a" "b" 1; AddEdge "b" "c" 1; AddNode "z"])
          "a" "c" path ∧ NoDup path
    | None =>
        ¬ nx_reachable
            (nx_build [AddEdge "a" "b" 1; AddEdge "b" "c" 1; AddNode "z"])
            "a" "c"
    end.
Proof.
  apply (dfs_path_finds_a_path
           [AddEdge "a" "b" 1; AddEdge "b" "c" 1; AddNode "z"] "a" "c" 10).
  - apply nx_nodes_spec. vm_compute. eauto.
  - vm_compute. lia.
Defined.
(** ** The visit orders list reachable vertices, each once *)

(** The state after the [for] loop of [bfs_path] over the neighbours. *)
Lemma bfs_for_spec p todo :
  ∀ st,
    (∀ x, x ∈ bfs_visited (foldl (bfs_neighbor p) st todo) ↔
          x ∈ bfs_visited st ∨ x ∈ todo) ∧
    (∀ p', p' ∈ bfs_queue (foldl (bfs_neighbor p) st todo) ↔
           p' ∈ bfs_queue st ∨
           ∃ n, n ∈ todo ∧ (n ∉ bfs_visited st) ∧ p' = p ++ [n]) ∧
    ∃ new,
      bfs_visited_order (foldl (bfs_neighbor p) st todo)
        = bfs_visited_order st ++ new ∧
      NoDup new ∧ ∀ x, x ∈ new ↔ x ∈ todo ∧ x ∉ bfs_visited st.
Proof.
  induction todo as [|v todo IH]; intros st; simpl.
  - split; [|split].
    + intros x. rewrite elem_of_nil. tauto.
    + intros p'. split; [by left|].
      intros [?|(n & ?%elem_of_nil & _)]; done.
    + exists []. rewrite app_nil_r. split; [done|].
      split; [apply NoDup_nil_2|]. intros x. rewrite elem_of_nil. tauto.
  - destruct (IH (bfs_neighbor p st v)) as (Hvis & Hq & new & Hord & Hnd & Hnew).
    remember (bfs_neighbor p st v) as st1 eqn:Hst1.
    unfold bfs_neighbor in Hst1.
    destruct (decide (v ∈ bfs_visited st)) as [Hv|Hv]; subst st1; simpl in *.
    + split; [|split].
      * intros x. rewrite Hvis, elem_of_cons.
        split; [tauto|]. intros [?|[ ->|?]]; tauto.
      * intros p'. rewrite Hq. split.
        -- intros [?|(n & Hn & Hnv & ->)]; [by left|].
           right. exists n. split; [by right|done].
        -- intros [?|(n & Hn & Hnv & ->)]; [by left|].
           apply elem_of_cons in Hn as [ ->|Hn]; [done|].
           right. by exists n.
      * exists new. split; [done|]. split; [done|].
        intros x. rewrite Hnew, elem_of_cons. split; [tauto|].
        intros [[ ->|?] ?]; tauto.
    + split; [|split].
      * intros x. rewrite Hvis, elem_of_union, elem_of_singleton, elem_of_cons.
        tauto.
      * intros p'. rewrite Hq, elem_of_app, list_elem_of_singleton. split.
        -- intros [[?| ->]|(n & Hn & Hnv & ->)].
           ++ by left.
           ++ right. exists v. split; [by left|done].
           ++ right. exists n. split; [by right|]. split; [|done].
              intros ?. apply Hnv, elem_of_union. by left.
        -- intros [?|(n & Hn & Hnv & ->)]; [by left; left|].
           apply elem_of_cons in Hn as [ ->|Hn]; [by left; right|].
           destruct (decide (n = v)) as [ ->|Hne]; [by left; right|].
           right. exists n. split; [done|]. split; [|done].
           intros [?|?%elem_of_singleton]%elem_of_union; done.
      * exists (v :: new). rewrite Hord, <- app_assoc. split; [done|].
        split.
        -- apply NoDup_cons. split; [|done]. intros [_ Hx]%Hnew.
           apply Hx, elem_of_union. right. by apply elem_of_singleton.
        -- intros x. rewrite elem_of_cons, Hnew, elem_of_cons,
             elem_of_union, elem_of_singleton.
           split.
           ++ intros [ ->|[? ?]]; [tauto|]. split; [by right|tauto].
           ++ intros [[ ->|?] ?]; [by left|].
              destruct (decide (x = v)) as [ ->|?]; [by left|]. right. tauto.
Qed.

Lemma bfs_init_ord G start : BOrd G start (bfs_init start).
Proof.
  constructor; simpl.
  - intros x. by rewrite elem_of_singleton, list_elem_of_singleton.
  - apply NoDup_singleton.
  - intros x ->%elem_of_singleton. by exists [start].
  - intros p ->%list_elem_of_singleton. exists start.
    split; [done|]. by apply elem_of_singleton.
  - intros u v ->%elem_of_singleton _. right. by apply list_elem_of_singleton.
  - done.
Qed.

(** Dequeuing a path and enqueuing the new neighbours of its last vertex. *)
Lemma BOrd_pop G start st p rest u ns :
  BOrd G start st → bfs_queue st = p :: rest → last p = Some u →
  neighbors G u = Ret ns →
  BOrd G start
    (foldl (bfs_neighbor p)
       {| bfs_visited := bfs_visited st; bfs_queue := rest;
          bfs_visited_order := bfs_visited_order st |} (sorted ns)).
Proof.
  intros [Hvis Hnd Hre Hpaths Hcl Hst] Hs Hlast Hns.
  destruct (bfs_for_spec p (sorted ns)
              {| bfs_visited := bfs_visited st; bfs_queue := rest;
                 bfs_visited_order := bfs_visited_order st |})
    as (Hvis' & Hq' & new & Hord' & Hnd' & Hnew). simpl in *.
  destruct (Hpaths p) as (u' & Hp & Hu'); [rewrite Hs; by left|].
  assert (u' = u) as ->.
  { destruct Hp as (_ & _ & Hl). rewrite Hlast in Hl. by injection Hl. }
  assert (∀ n, n ∈ sorted ns ↔ adjacent G u n) as Hadj.
  { intros n. rewrite elem_of_sorted. apply (neighbors_spec _ _ _ _ Hns). }
  constructor.
  - intros x. rewrite Hvis', Hord', elem_of_app, Hnew. split.
    + intros [Hx|Hx]; [left; by apply Hvis|].
      destruct (decide (x ∈ bfs_visited st)); [left; by apply Hvis|by right].
    + intros [Hx|[Hx _]]; [left; by apply Hvis|by right].
  - rewrite Hord'. apply NoDup_app. split; [done|]. split; [|done].
    intros x Hx [_ Hx']%Hnew. by apply Hx', Hvis.
  - intros x [Hx|Hx]%Hvis'; [by apply Hre|].
    exists (p ++ [x]). eapply path_from_to_snoc; [done|]. by apply Hadj.
  - intros p' [Hp'|(n & Hn & Hnv & ->)]%Hq'.
    + destruct (Hpaths p') as (x & ? & ?); [rewrite Hs; by right|].
      exists x. split; [done|]. apply Hvis'. by left.
    + exists n. split.
      * eapply path_from_to_snoc; [done|]. by apply Hadj.
      * apply Hvis'. by right.
  - intros x y [Hx|Hx]%Hvis' Hxy.
    + destruct (Hcl x y Hx Hxy) as [?|Hl]; [left; apply Hvis'; by left|].
      rewrite Hs in Hl. unfold lasts in Hl. simpl in Hl. rewrite Hlast in Hl.
      apply elem_of_cons in Hl as [ ->|Hl].
      * left. apply Hvis'. right. by apply Hadj.
      * right. apply elem_of_lasts in Hl as (p' & Hp' & Hl).
        apply elem_of_lasts. exists p'. split; [|done]. apply Hq'. by left.
    + destruct (decide (x ∈ bfs_visited st)) as [Hxv|Hxv].
      * destruct (Hcl x y Hxv Hxy) as [?|Hl]; [left; apply Hvis'; by left|].
        rewrite Hs in Hl. unfold lasts in Hl. simpl in Hl.
        rewrite Hlast in Hl.
        apply elem_of_cons in Hl as [ ->|Hl].
        -- left. apply Hvis'. right. by apply Hadj.
        -- right. apply elem_of_lasts in Hl as (p' & Hp' & Hl).
           apply elem_of_lasts. exists p'. split; [|done]. apply Hq'. by left.
      * right. apply elem_of_lasts. exists (p ++ [x]).
        split; [|apply last_snoc]. apply Hq'. right. by exists x.
  - rewrite Hord'. destruct (bfs_visited_order st); done.
Qed.

(** The visit order that the main loop returns. *)
Lemma bfs_loop_order G start goal fuel :
  ∀ st deq res order deq',
    BOrd G start st →
    bfs_loop fuel G goal st deq = Some (Ret (res, order, deq')) →
    NoDup order ∧ head order = Some start ∧
    (∀ x, x ∈ order → nx_reachable G start x) ∧
    match res with
    | Some _ => goal ∈ order
    | None => ∀ x, nx_reachable G start x → x ∈ order
    end.
Proof.
  induction fuel as [|fuel IH]; intros st deq res order deq' HI; [done|].
  simpl. destruct (bfs_queue st) as [|p rest] eqn:Hs.
  - intros [= <- <- <-].
    split; [apply (bo_nodup _ _ _ HI)|]. split; [apply (bo_start _ _ _ HI)|].
    split.
    + intros x Hx. by apply (bo_reach _ _ _ HI), (bo_visited _ _ _ HI).
    + intros x [q Hq%path_from_to_nx_walk]. apply (bo_visited _ _ _ HI).
      induction Hq as [|u v n _ IHw Hadj].
      * apply (bo_visited _ _ _ HI).
        pose proof (bo_start _ _ _ HI) as Hst.
        destruct (bfs_visited_order st); [done|].
        simpl in Hst. injection Hst as ->. by left.
      * destruct (bo_closed _ _ _ HI u v IHw Hadj) as [?|Hl]; [done|].
        rewrite Hs in Hl. by apply elem_of_nil in Hl.
  - destruct (bo_paths _ _ _ HI p) as (u & Hp & Hu); [rewrite Hs; by left|].
    pose proof Hp as (_ & _ & Hlast). rewrite Hlast.
    destruct (decide (u = goal)) as [ ->|Hne].
    + intros [= <- <- <-].
      split; [apply (bo_nodup _ _ _ HI)|].
      split; [apply (bo_start _ _ _ HI)|]. split.
      * intros x Hx. by apply (bo_reach _ _ _ HI), (bo_visited _ _ _ HI).
      * by apply (bo_visited _ _ _ HI).
    + destruct (neighbors G u) as [ns|e] eqn:Hns; [|done].
      apply IH. by eapply BOrd_pop.
Qed.

(** X9: From every node [start] of a NetworkX graph, [bfs_path] and [dfs_path]
    return visit orders that begin with [start], list no vertex twice and
    list only vertices that can be reached from [start].  When a search
    finds no path, its visit order lists every vertex that can be reached
    from [start]; when [dfs_path] finds a path, [goal] is the last vertex
    of its visit order, and when [bfs_path] finds one, [goal] is in its
    visit order. *)
Theorem visit_orders_list_reachable_vertices (ops : list nx_op)
    (start goal : string) (fuel : nat) :
  start ∈ nx_nodes (nx_build ops) →
  (bfs_fuel (nx_build ops) ≤ fuel)%nat →
  (dfs_fuel (nx_build ops) ≤ fuel)%nat →
  ∃ bfs_result bfs_visited dfs_result dfs_visited,
    bfs_path fuel (nx_build ops) start goal
      = Some (Ret (bfs_result, bfs_visited)) ∧
    dfs_path fuel (nx_build ops) start goal
      = Some (Ret (dfs_result, dfs_visited)) ∧
    (NoDup bfs_visited ∧ head bfs_visited = Some start ∧
     (∀ x, x ∈ bfs_visited → nx_reachable (nx_build ops) start x) ∧
     (bfs_result = None →
      ∀ x, nx_reachable (nx_build ops) start x → x ∈ bfs_visited) ∧
     (bfs_result ≠ None → goal ∈ bfs_visited)) ∧
    (NoDup dfs_visited ∧ head dfs_visited = Some start ∧
     (∀ x, x ∈ dfs_visited → nx_reachable (nx_build ops) start x) ∧
     (dfs_result = None →
      ∀ x, nx_reachable (nx_build ops) start x → x ∈ dfs_visited) ∧
     (dfs_result ≠ None → last dfs_visited = Some goal)).
Proof.
  intros Hstart%nx_nodes_spec Hbfs Hdfs.
  destruct (bfs_path_traced_returns ops start goal fuel)
    as (rb & ob & deq & Hrb); [by left|done|].
  destruct (dfs_path_traced_returns ops start goal fuel)
    as (rd & od & popped & Hrd); [by left|done|].
  exists rb, ob, rd, od.
  split; [by eapply bfs_path_unfold|]. split; [by eapply dfs_path_unfold|].
  split.
  - destruct (bfs_loop_order _ start goal fuel _ _ _ _ _
                (bfs_init_ord _ start) Hrb) as (Hnd & Hhd & Hre & Hres).
    repeat (split; [done|]). split.
    + by intros ->.
    + intros Hne. by destruct rb.
  - destruct (dfs_loop_correct _ start goal fuel _ _ _ _ _
                (dfs_init_inv _ start goal) Hrd) as (Hnd & Hhd & Hre & Hres).
    repeat (split; [done|]). split.
    + intros ->. by destruct Hres.
    + intros Hne. destruct rd; [|done]. by destruct Hres as (_ & _ & ?).
Qed.

Lemma visit_orders_list_reachable_vertices_witness :
  ∃ bfs_result bfs_visited dfs_result dfs_visited,
    bfs_path 10 (nx_build [AddEdge "a" "b" 1; AddEdge "a" "c" 1; AddNode "z"])
      "a" "z" = Some (Ret (bfs_result, bfs_visited)) ∧
    dfs_path 10 (nx_build [AddEdge "a" "b" 1; AddEdge "a" "c" 1; AddNode "z"])
      "a" "z" = Some (Ret (dfs_result, dfs_visited)) ∧
    bfs_visited = ["a"; "b"; "c"] ∧ dfs_visited = ["a"; "b"; "c"] ∧
    NoDup bfs_visited ∧ NoDup dfs_visited.
Proof.
  destruct (visit_orders_list_reachable_vertices
              [AddEdge "a" "b" 1; AddEdge "a" "c" 1; AddNode "z"] "a" "z" 10)
    as (rb & ob & rd & od & Hb & Hd & (Hnb & _) & (Hnd & _)).
  - apply nx_nodes_spec. vm_compute. eauto.
  - vm_compute. lia.
  - vm_compute. lia.
  - exists rb, ob, rd, od. split; [done|]. split; [done|].
    assert (ob = ["a"; "b"; "c"]) as Hob.
    { revert Hb. vm_compute. congruence. }
    assert (od = ["a"; "b"; "c"]) as Hod.
    { revert Hd. vm_compute. congruence. }
    split; [exact Hob|]. split; [exact Hod|]. split; assumption.
Defined.
(** ** [compare_algorithms]: breadth-first search is never longer *)

(** A vertex reached from a node is a node. *)
Lemma nx_reachable_node G s t :
  nx_closed G → is_Some (G !! s) → nx_reachable G s t → is_Some (G !! t).
Proof.
  intros Hcl Hs [p Hp%path_from_to_nx_walk].
  destruct Hp as [|u v n _ Hadj]; [done|]. by eapply Hcl.
Qed.

(** A list without repetition of nodes is no longer than the list of the
    nodes. *)
Lemma NoDup_nodes_length (G : nxGraph) (l : list string) :
  NoDup l → (∀ x, x ∈ l → is_Some (G !! x)) →
  (length l ≤ size (dom G))%nat.
Proof.
  intros Hnd Hin.
  assert (l ⊆+ nx_nodes G) as Hsub.
  { apply NoDup_submseteq; [done|]. intros x Hx. by apply nx_nodes_spec, Hin. }
  apply submseteq_length in Hsub. exact Hsub.
Qed.

Lemma length_or_zero_hops p :
  p ≠ [] → length_or_zero (Some p) = Z.of_nat (hops p).
Proof. destruct p as [|x p]; [done|]. intros _. unfold hops. simpl. lia. Qed.

(** X10: From every node [start] of a NetworkX graph, [compare_algorithms]
    returns; the length it reports for [bfs_path] is never larger than the
    one it reports for [dfs_path]; both searches find a path when [goal]
    can be reached from [start], and the lengths are then the hop counts of
    the two paths; otherwise neither finds one, both lengths are reported
    as 0 and both searches have visited the same number of vertices.  The
    number of visited vertices is at least 1 and at most the number of
    nodes. *)
Theorem compare_algorithms_bfs_never_longer (ops : list nx_op)
    (start goal : string) (fuel : nat) :
  start ∈ nx_nodes (nx_build ops) →
  (bfs_fuel (nx_build ops) ≤ fuel)%nat →
  (dfs_fuel (nx_build ops) ≤ fuel)%nat →
  ∃ r,
    compare_algorithms fuel (nx_build ops) start goal = Some (Ret r) ∧
    0 ≤ res_bfs_length r ≤ res_dfs_length r ∧
    (nx_reachable (nx_build ops) start goal →
     ∃ dfs_result bfs_result,
       res_dfs_path r = Some dfs_result ∧ res_bfs_path r = Some bfs_result ∧
       res_dfs_length r = Z.of_nat (hops dfs_result) ∧
       res_bfs_length r = Z.of_nat (hops bfs_result)) ∧
    (¬ nx_reachable (nx_build ops) start goal →
     res_dfs_path r = None ∧ res_bfs_path r = None ∧
     res_dfs_length r = 0 ∧ res_bfs_length r = 0 ∧
     res_dfs_visited r = res_bfs_visited r) ∧
    1 ≤ res_dfs_visited r ≤ Z.of_nat (size (dom (nx_build ops))) ∧
    1 ≤ res_bfs_visited r ≤ Z.of_nat (size (dom (nx_build ops))).
Proof.
  intros Hstart%nx_nodes_spec Hbfs Hdfs.
  destruct (bfs_path_traced_returns ops start goal fuel)
    as (rb & ob & deq & Hrb); [by left|done|].
  destruct (dfs_path_traced_returns ops start goal fuel)
    as (rd & od & popped & Hrd); [by left|done|].
  unfold compare_algorithms.
  rewrite (dfs_path_unfold _ _ _ _ _ _ _ Hrd),
    (bfs_path_unfold _ _ _ _ _ _ _ Hrb).
  eexists. split; [done|]. simpl.
  destruct (bfs_loop_order _ start goal fuel _ _ _ _ _
              (bfs_init_ord _ start) Hrb) as (Hndb & Hhb & Hreb & Hallb).
  destruct (dfs_loop_correct _ start goal fuel _ _ _ _ _
              (dfs_init_inv _ start goal) Hrd) as (Hndd & Hhd & Hred & Hresd).
  pose proof (bfs_loop_correct _ start goal fuel _ _ 0%nat _ _ _
                (bfs_init_inv _ start) (not_elem_of_nil goal) Hrb)
    as [_ Hresb].
  assert (1 ≤ Z.of_nat (length od) ≤ Z.of_nat (size (dom (nx_build ops))) ∧
          1 ≤ Z.of_nat (length ob) ≤ Z.of_nat (size (dom (nx_build ops))))
    as Hcount.
  { pose proof (NoDup_nodes_length (nx_build ops) od Hndd) as Hd.
    pose proof (NoDup_nodes_length (nx_build ops) ob Hndb) as Hb.
    destruct od as [|? od]; [done|]. destruct ob as [|? ob]; [done|].
    simpl in *. split.
    - split; [lia|]. apply inj_le, Hd. intros x Hx.
      eapply nx_reachable_node; [apply nx_build_closed|done|by apply Hred].
    - split; [lia|]. apply inj_le, Hb. intros x Hx.
      eapply nx_reachable_node; [apply nx_build_closed|done|by apply Hreb]. }
  destruct rd as [pd|], rb as [pb|].
  - destruct Hresd as (Hpd & _ & _). destruct Hresb as (Hpb & _ & Hmin).
    assert (pd ≠ []) as Hpd0 by (by destruct Hpd as (? & _); destruct pd).
    assert (pb ≠ []) as Hpb0 by (by destruct Hpb as (? & _); destruct pb).
    rewrite !length_or_zero_hops by done.
    specialize (Hmin _ (path_from_to_nx_walk _ _ _ _ Hpd)).
    split; [|split; [|split]]; [| |by intros []; exists pd|done].
    + unfold hops in *. destruct pb; [done|]. simpl in *. lia.
    + intros _. by exists pd, pb.
  - exfalso. destruct Hresd as (Hpd & _). eapply Hresb.
    by eapply path_from_to_nx_walk.
  - exfalso. destruct Hresb as (Hpb & _). destruct Hresd as [Hall Hg].
    apply Hg, Hall. by exists pb.
  - destruct Hresd as [Halld Hg]. simpl.
    split; [lia|]. split; [|split; [|done]].
    + intros Hre. exfalso. by apply Hg, Halld.
    + intros _. repeat (split; [done|]). f_equal. apply Permutation_length.
      apply NoDup_Permutation; [done..|].
      intros x. split; intros Hx.
      * by apply Hallb, Hred.
      * by apply Halld, Hreb.
Qed.

Lemma compare_algorithms_bfs_never_longer_witness :
  ∃ r,
    compare_algorithms 20
      (nx_build [AddEdge "a" "b" 1; AddEdge "b" "d" 1; AddEdge "a" "c" 1;
                 AddEdge "c" "d" 1; AddEdge "a" "d" 1])
      "a" "d" = Some (Ret r) ∧
    0 ≤ res_bfs_length r ≤ res_dfs_length r.
Proof.
  destruct (compare_algorithms_bfs_never_longer
              [AddEdge "a" "b" 1; AddEdge "b" "d" 1; AddEdge "a" "c" 1;
               AddEdge "c" "d" 1; AddEdge "a" "d" 1] "a" "d" 20)
    as (r & Hr & Hle & _).
  - apply nx_nodes_spec. vm_compute. eauto.
  - vm_compute. lia.
  - vm_compute. lia.
  - exists r. split; [exact Hr|exact Hle].
Defined.
(** ** The two copies of [bfs_path] agree *)

(** A state of [task2.py] without its visit order. *)
Lemma task3_bfs_for p todo :
  ∀ st,
    foldl (Task3.bfs_neighbor p)
      {| Task3.bfs_visited := bfs_visited st;
         Task3.bfs_queue := bfs_queue st |} todo
    = {| Task3.bfs_visited := bfs_visited (foldl (bfs_neighbor p) st todo);
         Task3.bfs_queue := bfs_queue (foldl (bfs_neighbor p) st todo) |}.
Proof.
  induction todo as [|v todo IH]; intros st; simpl; [done|].
  rewrite <- IH. f_equal. unfold Task3.bfs_neighbor, bfs_neighbor. simpl.
  by destruct (decide (v ∈ bfs_visited st)).
Qed.

Lemma task3_bfs_loop fuel G goal :
  ∀ st deq,
    Task3.bfs_loop fuel G goal
      {| Task3.bfs_visited := bfs_visited st;
         Task3.bfs_queue := bfs_queue st |}
    = match bfs_loop fuel G goal st deq with
      | None => None
      | Some (Raise e) => Some (Raise e)
      | Some (Ret (path, _, _)) => Some (Ret path)
      end.
Proof.
  induction fuel as [|fuel IH]; intros st deq; simpl; [done|].
  destruct (bfs_queue st) as [|p rest]; [done|].
  destruct (last p) as [u|]; [|done].
  destruct (decide (u = goal)); [done|].
  destruct (neighbors G u) as [ns|e]; [|done].
  rewrite <- IH. f_equal.
  apply (task3_bfs_for p (sorted ns)
           {| bfs_visited := bfs_visited st; bfs_queue := rest;
              bfs_visited_order := bfs_visited_order st |}).
Qed.

Lemma task3_bfs_path_eq fuel G start goal :
  Task3.bfs_path fuel G start goal
  = match bfs_path fuel G start goal with
    | None => None
    | Some (Raise e) => Some (Raise e)
    | Some (Ret (path, visited_order)) => Some (Ret path)
    end.
Proof.
  unfold Task3.bfs_path, bfs_path, bfs_path_traced.
  pose proof (task3_bfs_loop fuel G goal (bfs_init start) []) as Hsim.
  simpl in Hsim. rewrite Hsim.
  by destruct (bfs_loop fuel G goal (bfs_init start) [])
    as [[[[path order] deq]|e]|].
Qed.

(** X12: [bfs_path] of [task3.py] returns the path that [bfs_path] of [task2.py]
    returns, raises what it raises and needs as many iterations: dropping
    the visit order changes nothing else. *)
Theorem task3_bfs_path_is_task2_bfs_path (fuel : nat) (G : nxGraph)
    (start goal : string) :
  Task3.bfs_path fuel G start goal
  = match bfs_path fuel G start goal with
    | None => None
    | Some (Raise e) => Some (Raise e)
    | Some (Ret (path, visited_order)) => Some (Ret path)
    end.
Proof.
  unfold Task3.bfs_path, bfs_path, bfs_path_traced.
  pose proof (task3_bfs_loop fuel G goal (bfs_init start) []) as Hsim.
  simpl in Hsim. rewrite Hsim.
  by destruct (bfs_loop fuel G goal (bfs_init start) [])
    as [[[[path order] deq]|e]|].
Qed.
(** ** [compare_dijkstra_bfs]: the time saved is never negative *)

Lemma nx_wwalk_cons G s s' t m w d :
  G !! s = Some m → m !! s' = Some w → nx_wwalk G s' t d →
  nx_wwalk G s t (w + d).
Proof.
  intros Hm Hw. induction 1 as [|u v m' w' d _ IH Hm' Hw'].
  - replace (w + 0) with (0 + w) by lia.
    apply nx_wwalk_snoc with s m; [constructor|done..].
  - replace (w + (d + w')) with (w + d + w') by lia.
    by apply nx_wwalk_snoc with u m'.
Qed.

(** Along a path of the graph the sum of the weights is defined, and it is
    the weight of a walk. *)
Lemma path_time_walk G s t p :
  path_from_to G s t p → ∃ d, path_time G p = Ret d ∧ nx_wwalk G s t d.
Proof.
  revert s. induction p as [|x p IH]; intros s (Hp & Hhd & Hlast); [done|].
  simpl in Hhd. injection Hhd as ->.
  destruct p as [|y p].
  - simpl in Hlast. injection Hlast as ->. exists 0. split; [done|constructor].
  - destruct Hp as [(m & Hm & Hy) Hp]. rewrite last_cons_cons in Hlast.
    destruct (IH y) as (d & Hd & Hwalk); [done|].
    apply elem_of_dom in Hy as [w Hw].
    exists (w + d). split.
    + change (path_time G (s :: y :: p)) with
        (match G !! s with
         | None => Raise (KeyError s)
         | Some m =>
             match m !! y with
             | None => Raise (KeyError y)
             | Some segment_weight =>
                 match path_time G (y :: p) with
                 | Ret t => Ret (segment_weight + t)
                 | Raise e => Raise e
                 end
             end
         end).
      by rewrite Hm, Hw, Hd.
    + by eapply nx_wwalk_cons.
Qed.

(** A check of unreachability that computes: [bfs_path] finds no path. *)
Lemma nx_unreachable_check ops s t :
  match bfs_path (bfs_fuel (nx_build ops)) (nx_build ops) s t with
  | Some (Ret (None, _)) => true
  | _ => false
  end = true →
  ¬ nx_reachable (nx_build ops) s t.
Proof.
  intros Hrun Hreach.
  destruct (bfs_path_traced_shortest ops s t _ Hreach (Nat.le_refl _))
    as (path & order & deq & Hbfs & _).
  by rewrite (bfs_path_unfold _ _ _ _ _ _ _ Hbfs) in Hrun.
Qed.

(** X13: On a graph with non-negative weights, with [all_lengths] as
    [find_all_shortest_paths] returns it, for a target that can be reached
    from the node [source] and has a path in [all_paths]:
    [compare_dijkstra_bfs] returns; the time it reports for Dijkstra is the
    least weight of a walk from [source] to [target]; the path it reports
    for BFS leads from [source] to [target] and its time is the sum of the
    weights along it; the time saved is never negative; and BFS has no more
    hops than the Dijkstra path handed in, when that one is a path from
    [source] to [target]. *)
Theorem compare_dijkstra_bfs_time_saved (ops : list nx_op)
    (source target : string) (fuel : nat)
    (all_paths : gmap string (gmap string (list string)))
    (all_lengths : gmap string (gmap string Z))
    (paths : gmap string (list string)) (dijkstra_path : list string) :
  nx_nonneg (nx_build ops) →
  find_all_shortest_paths (nx_build ops) = Ret all_lengths →
  source ∈ nx_nodes (nx_build ops) →
  nx_reachable (nx_build ops) source target →
  all_paths !! source = Some paths →
  paths !! target = Some dijkstra_path →
  (bfs_fuel (nx_build ops) ≤ fuel)%nat →
  ∃ r,
    compare_dijkstra_bfs fuel (nx_build ops) source target
      all_paths all_lengths = Some (Returns r) ∧
    cmp_dijkstra_path r = dijkstra_path ∧
    nx_shortest_distance (nx_build ops) source target (cmp_dijkstra_time r) ∧
    path_from_to (nx_build ops) source target (cmp_bfs_path r) ∧
    path_time (nx_build ops) (cmp_bfs_path r) = Ret (cmp_bfs_time r) ∧
    cmp_bfs_hops r = Z.of_nat (hops (cmp_bfs_path r)) ∧
    cmp_time_saved r = cmp_bfs_time r - cmp_dijkstra_time r ∧
    0 ≤ cmp_time_saved r ∧
    (path_from_to (nx_build ops) source target dijkstra_path →
     cmp_bfs_hops r ≤ cmp_dijkstra_hops r).
Proof.
  intros Hnn Hall Hsource Hreach Hpaths Hpath Hfuel.
  destruct (find_all_shortest_paths_lookup _ _ _ Hnn Hall Hsource)
    as (lengths & Hl & Hshort & Hkeys).
  destruct (Hkeys target Hreach) as [dijkstra_length Hlen].
  destruct (bfs_path_traced_shortest ops source target fuel Hreach Hfuel)
    as (bfs_result & order & deq & Hrun & Hbfs & _ & Hmin).
  destruct (path_time_walk _ _ _ _ Hbfs) as (bfs_time & Htime & Hwalk).
  unfold compare_dijkstra_bfs.
  rewrite Hpaths, Hpath, Hl, Hlen, task3_bfs_path_eq.
  rewrite (bfs_path_unfold _ _ _ _ _ _ _ Hrun), Htime.
  eexists. split; [done|]. simpl.
  pose proof (Hshort _ _ Hlen) as Hsd.
  split; [done|]. split; [done|]. split; [done|]. split; [done|].
  assert (bfs_result ≠ []) as Hne by (by destruct Hbfs as (? & _); destruct bfs_result).
  split; [|split; [done|split]].
  - unfold hops. destruct bfs_result; [done|]. simpl. lia.
  - destruct Hsd as [_ Hle]. specialize (Hle _ Hwalk). lia.
  - intros Hd. specialize (Hmin _ Hd). unfold hops in Hmin.
    destruct bfs_result; [done|]. destruct dijkstra_path; [by destruct Hd|].
    simpl in *. lia.
Qed.

Lemma compare_dijkstra_bfs_time_saved_witness :
  ∃ all_lengths r,
    find_all_shortest_paths
      (nx_build [AddEdge "a" "b" 1; AddEdge "b" "c" 1; AddEdge "a" "c" 5])
      = Ret all_lengths ∧
    compare_dijkstra_bfs 10
      (nx_build [AddEdge "a" "b" 1; AddEdge "b" "c" 1; AddEdge "a" "c" 5])
      "a" "c" {["a" := {["c" := ["a"; "b"; "c"]]}]} all_lengths
      = Some (Returns r) ∧
    0 ≤ cmp_time_saved r.
Proof.
  pose (all_lengths :=
          match find_all_shortest_paths
                  (nx_build [AddEdge "a" "b" 1; AddEdge "b" "c" 1;
                             AddEdge "a" "c" 5]) with
          | Ret a => a
          | Raise _ => ∅
          end).
  assert (find_all_shortest_paths
            (nx_build [AddEdge "a" "b" 1; AddEdge "b" "c" 1;
                       AddEdge "a" "c" 5]) = Ret all_lengths) as Hall
    by (vm_compute; reflexivity).
  destruct (compare_dijkstra_bfs_time_saved
              [AddEdge "a" "b" 1; AddEdge "b" "c" 1; AddEdge "a" "c" 5]
              "a" "c" 10 {["a" := {["c" := ["a"; "b"; "c"]]}]} all_lengths
              {["c" := ["a"; "b"; "c"]]} ["a"; "b"; "c"])
    as (r & Hr & _ & _ & _ & _ & _ & _ & Hsaved & _).
  - apply nx_nonneg_check. vm_compute. reflexivity.
  - exact Hall.
  - apply nx_nodes_spec. vm_compute. eauto.
  - exists ["a"; "c"]. repeat split.
    apply adjacent_check. vm_compute. reflexivity.
  - vm_compute. reflexivity.
  - vm_compute. reflexivity.
  - vm_compute. lia.
  - exists all_lengths, r. split; [exact Hall|]. split; [exact Hr|exact Hsaved].
Defined.

(** X14: With [all_lengths] as [find_all_shortest_paths] returns it, a target
    that cannot be reached from the node [source] makes
    [compare_dijkstra_bfs] raise [KeyError], whatever [all_paths] holds:
    the dictionary of lengths has no key for it.  [bfs_path] is not called
    and no comparison is returned. *)
Theorem compare_dijkstra_bfs_unreachable_raises (ops : list nx_op)
    (source target : string) (fuel : nat)
    (all_paths : gmap string (gmap string (list string)))
    (all_lengths : gmap string (gmap string Z)) :
  nx_nonneg (nx_build ops) →
  find_all_shortest_paths (nx_build ops) = Ret all_lengths →
  source ∈ nx_nodes (nx_build ops) →
  ¬ nx_reachable (nx_build ops) source target →
  compare_dijkstra_bfs fuel (nx_build ops) source target
    all_paths all_lengths = Some (Raises (KeyError source)) ∨
  compare_dijkstra_bfs fuel (nx_build ops) source target
    all_paths all_lengths = Some (Raises (KeyError target)).
Proof.
  intros Hnn Hall Hsource Hun.
  destruct (find_all_shortest_paths_lookup _ _ _ Hnn Hall Hsource)
    as (lengths & Hl & Hshort & _).
  unfold compare_dijkstra_bfs.
  destruct (all_paths !! source) as [paths|]; [|by left].
  destruct (paths !! target) as [dijkstra_path|]; [|by right].
  rewrite Hl. destruct (lengths !! target) as [m|] eqn:Hm; [|by right].
  exfalso. apply Hun. apply nx_reachable_wwalk. exists m.
  by destruct (Hshort _ _ Hm).
Qed.

Lemma compare_dijkstra_bfs_unreachable_raises_witness :
  ∃ all_lengths,
    find_all_shortest_paths (nx_build [AddEdge "a" "b" 1; AddNode "z"])
      = Ret all_lengths ∧
    compare_dijkstra_bfs 10 (nx_build [AddEdge "a" "b" 1; AddNode "z"])
      "a" "z" {["a" := {["z" := ["a"; "z"]]}]} all_lengths
    = Some (Raises (KeyError "z")).
Proof.
  pose (all_lengths :=
          match find_all_shortest_paths
                  (nx_build [AddEdge "a" "b" 1; AddNode "z"]) with
          | Ret a => a
          | Raise _ => ∅
          end).
  assert (find_all_shortest_paths (nx_build [AddEdge "a" "b" 1; AddNode "z"])
          = Ret all_lengths) as Hall by (vm_compute; reflexivity).
  exists all_lengths. split; [exact Hall|].
  destruct (compare_dijkstra_bfs_unreachable_raises
              [AddEdge "a" "b" 1; AddNode "z"] "a" "z" 10
              {["a" := {["z" := ["a"; "z"]]}]} all_lengths) as [Hr|Hr].
  - apply nx_nonneg_check. vm_compute. reflexivity.
  - exact Hall.
  - apply nx_nodes_spec. vm_compute. eauto.
  - apply nx_unreachable_check. vm_compute. reflexivity.
  - exfalso. revert Hr. vm_compute. intros Hr. discriminate Hr.
  - exact Hr.
Defined.
(** ** [dijkstra_heap] on weights of any sign *)

Lemma dist_map_le_Fin m' m x d :
  dist_map_le m' m → m !! x = Some (Fin d) →
  ∃ d', m' !! x = Some (Fin d') ∧ d' ≤ d.
Proof.
  intros Hle Hx. destruct (Hle x _ Hx) as ([d'|] & Hx' & Hd); [|done].
  by exists d'.
Qed.

(** The whole [for] loop over the adjacency list [es] of [u]. *)
Lemma for_each_relax_spec u d es :
  ∀ st,
    (∀ v w, (v, w) ∈ es → is_Some (dist st !! v)) →
    ∃ st',
      for_each (relax u d) es st = Ret st' ∧
      dom (dist st') = dom (dist st) ∧
      dist_map_le (dist st') (dist st) ∧
      (∀ v w, (v, w) ∈ es →
         ∃ dv, dist st' !! v = Some (Fin dv) ∧ dv ≤ d + w) ∧
      (∀ x, x ∈ heap st → x ∈ heap st') ∧
      (∀ d' v, (d', v) ∈ heap st' →
         (d', v) ∈ heap st ∨ ∃ w, (v, w) ∈ es ∧ d' = d + w) ∧
      (∀ x dx, dist st' !! x = Some (Fin dx) →
         dist st !! x = Some (Fin dx) ∨
         ((dx, x) ∈ heap st' ∧ ∃ w, (x, w) ∈ es ∧ dx = d + w)).
Proof.
  induction es as [|[v w] es IH]; intros st Hkeys.
  - exists st. split; [done|]. split; [done|].
    split; [apply dist_map_le_refl|].
    split; [by intros v w ?%elem_of_nil|]. split; [done|].
    split; [by left|by left].
  - destruct (Hkeys v w) as [dv_old Hv]; [by left|].
    assert (∃ st1, relax u d st (v, w) = Ret st1 ∧
              dom (dist st1) = dom (dist st) ∧
              dist_map_le (dist st1) (dist st) ∧
              (∃ dv, dist st1 !! v = Some (Fin dv) ∧ dv ≤ d + w) ∧
              (∀ x, x ∈ heap st → x ∈ heap st1) ∧
              (∀ x, x ∈ heap st1 → x ∈ heap st ∨ x = (d + w, v)) ∧
              (∀ x dx, dist st1 !! x = Some (Fin dx) →
                 dist st !! x = Some (Fin dx) ∨
                 ((dx, x) ∈ heap st1 ∧ x = v ∧ dx = d + w)))
      as (st1 & Hrelax & Hdom1 & Hle1 & Hv1 & Hsub1 & Hnew1 & Hch1).
    { assert (relax u d st (v, w) =
                if Dist_ltb (Fin (d + w)) dv_old
                then Ret {| dist := <[v := Fin (d + w)]> (dist st);
                            prev := <[v := Some u]> (prev st);
                            heap := heappush (heap st) (d + w, v) |}
                else Ret st) as Heq.
      { unfold relax. by rewrite Hv. }
      destruct (Dist_ltb (Fin (d + w)) dv_old) eqn:Hlt.
      - eexists. split; [exact Heq|]. simpl.
        split; [|split; [|split; [|split; [|split]]]].
        + apply dom_insert_lookup_L. eauto.
        + apply (relax_dist_le u d st (v, w) _ Heq).
        + exists (d + w). by rewrite lookup_insert_eq.
        + intros x Hx. by right.
        + intros x [->|?]%elem_of_cons; [by right|by left].
        + intros x dx. destruct (decide (x = v)) as [->|Hne].
          * rewrite lookup_insert_eq. intros [= <-]. right.
            split; [by left|done].
          * rewrite lookup_insert_ne by done. by left.
      - exists st. split; [done|]. split; [done|].
        split; [apply dist_map_le_refl|].
        apply Dist_ltb_false in Hlt as (dv & -> & Hdv).
        split; [by exists dv|]. split; [done|]. split; [by left|by left]. }
    destruct (IH st1) as (st' & Hrun & Hdom & Hle & Hes & Hsub & Hnew & Hch).
    { intros v' w' Hin. apply elem_of_dom. rewrite Hdom1. apply elem_of_dom.
      apply (Hkeys v' w'). by right. }
    exists st'. cbn [for_each]. rewrite Hrelax.
    split; [done|]. split; [congruence|].
    split; [by eapply dist_map_le_trans|].
    split; [|split; [|split]].
    + intros v' w' [[= -> ->]|Hin]%elem_of_cons; [|by apply Hes].
      destruct Hv1 as (dv & Hdv & Hle').
      destruct (dist_map_le_Fin _ _ _ _ Hle Hdv) as (dv' & Hdv' & ?).
      exists dv'. split; [done|lia].
    + intros x Hx. by apply Hsub, Hsub1.
    + intros d' v' [Hin|(w' & Hw' & ->)]%Hnew.
      * apply Hnew1 in Hin as [?|[= -> ->]]; [by left|].
        right. exists w. split; [by left|done].
      * right. exists w'. split; [by right|done].
    + intros x dx [Hx|(Hin & w' & Hw' & ->)]%Hch.
      * apply Hch1 in Hx as [?|(Hin & -> & ->)]; [by left|].
        right. split; [by apply Hsub|]. exists w. split; [by left|done].
      * right. split; [done|]. exists w'. split; [by right|done].
Qed.

Lemma dijkstra_init_linv g start :
  is_Some (adjacency_list g !! start) → LInv g start (dijkstra_init g start).
Proof.
  intros Hstart.
  pose proof (dijkstra_init_inv g start Hstart) as HI.
  assert (∀ v d, dist (dijkstra_init g start) !! v = Some (Fin d) →
                 v = start ∧ d = 0) as Hfin.
  { intros v d. rewrite dijkstra_init_dist.
    repeat case_decide; naive_solver. }
  constructor.
  - apply (inv_dom_dist _ _ _ _ _ HI).
  - exists 0. split; [apply (inv_start _ _ _ _ _ HI)|done].
  - apply (inv_walk _ _ _ _ _ HI).
  - apply (inv_heap _ _ _ _ _ HI).
  - intros u du [-> ->]%Hfin. left. by left.
Qed.

(** One iteration of [while] keeps the invariant and raises nothing. *)
Lemma dijkstra_step_linv g start st d u h :
  graph_closed g → LInv g start st →
  heappop (heap st) = Some ((d, u), h) →
  ∃ st', dijkstra_step g st d u h = Ret st' ∧ LInv g start st'.
Proof.
  intros Hcl [Hdom Hst Hwalk Hheap Hrel] Hpop.
  apply heappop_spec in Hpop as [Hperm _].
  assert (∀ x, x ∈ heap st ↔ x = (d, u) ∨ x ∈ h) as Hin.
  { intros x. by rewrite Hperm, elem_of_cons. }
  destruct (Hheap d u) as (du & Hdu & Hle); [apply Hin; by left|].
  unfold dijkstra_step. rewrite Hdu. simpl.
  destruct (du <? d) eqn:Hlt.
  - apply Z.ltb_lt in Hlt. eexists. split; [done|].
    constructor; simpl; try done.
    + intros d' v Hv. apply Hheap, Hin. by right.
    + intros x dx Hx. destruct (Hrel x dx Hx) as [Hxh|?]; [|by right].
      left. apply Hin in Hxh as [[= -> ->]|?]; [|done].
      rewrite Hdu in Hx. injection Hx as ->. lia.
  - apply Z.ltb_ge in Hlt. assert (du = d) as -> by lia.
    assert (is_Some (adjacency_list g !! u)) as [es Hes].
    { apply elem_of_dom. rewrite <- Hdom. apply elem_of_dom. eauto. }
    rewrite Hes.
    assert (∀ v w, (v, w) ∈ es ↔ (v, w) ∈ edges_of g u) as Hedges.
    { intros v w. unfold edges_of. by rewrite Hes. }
    destruct (for_each_relax_spec u d es
                {| dist := dist st; prev := prev st; heap := h |})
      as (st' & Hrun & Hdom' & Hle' & Hes' & Hsub & Hnew & Hch).
    { intros v w Hvw%Hedges. simpl. apply elem_of_dom. rewrite Hdom.
      apply elem_of_dom. by eapply Hcl. }
    simpl in *. exists st'. split; [done|]. constructor.
    + congruence.
    + destruct Hst as (d0 & Hd0 & ?).
      destruct (dist_map_le_Fin _ _ _ _ Hle' Hd0) as (d0' & Hd0' & ?).
      exists d0'. split; [done|lia].
    + intros v dv [Hv|(_ & w & Hw & ->)]%Hch; [by apply Hwalk|].
      apply walk_snoc with u; [by apply Hwalk|by apply Hedges].
    + intros d' v [Hv|(w & Hw & ->)]%Hnew.
      * destruct (Hheap d' v) as (dv & Hdv & ?); [apply Hin; by right|].
        destruct (dist_map_le_Fin _ _ _ _ Hle' Hdv) as (dv' & Hdv' & ?).
        exists dv'. split; [done|lia].
      * by apply Hes'.
    + intros x dx Hx.
      destruct (Hch x dx Hx) as [Hold|[Hxh _]]; [|by left].
      assert (∀ v w, (v, w) ∈ edges_of g x →
                (∃ dv, dist st !! v = Some (Fin dv) ∧ dv ≤ dx + w) →
                ∃ dv, dist st' !! v = Some (Fin dv) ∧ dv ≤ dx + w) as Hkeep.
      { intros v w _ (dv & Hdv & ?).
        destruct (dist_map_le_Fin _ _ _ _ Hle' Hdv) as (dv' & Hdv' & ?).
        exists dv'. split; [done|lia]. }
      destruct (Hrel x dx Hold) as [Hxh|Hall].
      * apply Hin in Hxh as [[= -> ->]|Hxh]; [|left; by apply Hsub].
        right. intros v w Hvw. by apply Hes', Hedges.
      * right. intros v w Hvw. apply Hkeep; [done|]. by apply Hall.
Qed.

(** The main loop raises nothing, and when it returns the heap is empty
    and the invariant holds. *)
Lemma dijkstra_loop_linv g start :
  graph_closed g →
  ∀ fuel st, LInv g start st →
    dijkstra_loop fuel g st = None ∨
    ∃ st', dijkstra_loop fuel g st = Some (Ret st') ∧
           LInv g start st' ∧ heap st' = [].
Proof.
  intros Hcl. induction fuel as [|fuel IH]; intros st HI; [by left|].
  simpl. destruct (heappop (heap st)) as [[[d u] h]|] eqn:Hpop.
  - destruct (dijkstra_step_linv _ _ _ _ _ _ Hcl HI Hpop) as (st1 & -> & HI1).
    by apply IH.
  - right. exists st. split; [done|]. split; [done|]. by apply heappop_None.
Qed.

(** With an empty heap every edge out of a vertex with a finite distance is
    relaxed, so a walk from [start] bounds the distance of its end. *)
Lemma LInv_final_lower g start st v d :
  LInv g start st → heap st = [] → walk g start v d →
  ∃ dv, dist st !! v = Some (Fin dv) ∧ dv ≤ d.
Proof.
  intros [Hdom (d0 & Hd0 & Hle0) Hwalk Hheap Hrel] Hempty Hw.
  assert (∃ dv, dist st !! v = Some (Fin dv) ∧ dv ≤ d0 + d)
    as (dv & Hdv & ?); [|exists dv; split; [done|lia]].
  induction Hw as [|u v w d _ (du & Hdu & Hle) Hin].
  - exists d0. split; [done|lia].
  - destruct (Hrel u du Hdu) as [Hh|Hall].
    + rewrite Hempty in Hh. by apply elem_of_nil in Hh.
    + destruct (Hall v w Hin) as (dv & Hdv & ?). exists dv. split; [done|lia].
Qed.

Lemma walk_app g s u v d1 d2 :
  walk g s u d1 → walk g u v d2 → walk g s v (d1 + d2).
Proof.
  intros H1. induction 1 as [|x y w d _ IH Hin].
  - by rewrite Z.add_0_r.
  - rewrite Z.add_assoc. by apply walk_snoc with x.
Qed.

(** X5: On a graph built with [add_edge], whatever the sign of the weights,
    and from a start vertex of the graph: [dijkstra_heap] raises no error,
    and when it returns, its distance map gives every vertex that can be
    reached from [start] the least weight of a walk from [start] to it, and
    [Inf] to every other vertex.  (The pushes of improved distances make
    the loop a label-correcting search.) *)
Theorem dijkstra_heap_any_weights (calls : list edge_call) (start : string)
    (fuel : nat) :
  start ∈ vertices (build_graph calls) →
  (∀ e, dijkstra_heap fuel (build_graph calls) start ≠ Some (Raise e)) ∧
  ∀ dist prev,
    dijkstra_heap fuel (build_graph calls) start = Some (Ret (dist, prev)) →
    dom dist = dom (adjacency_list (build_graph calls)) ∧
    ∀ v, v ∈ vertices (build_graph calls) →
      (reachable (build_graph calls) start v →
         ∃ m, dist !! v = Some (Fin m) ∧
              shortest_distance (build_graph calls) start v m) ∧
      (¬ reachable (build_graph calls) start v → dist !! v = Some Inf).
Proof.
  intros Hstart%vertices_spec.
  pose proof (dijkstra_loop_linv _ start (build_graph_closed calls) fuel _
                (dijkstra_init_linv _ _ Hstart)) as Hloop.
  unfold dijkstra_heap.
  destruct Hloop as [->|(st & -> & HI & Hempty)]; [done|].
  split; [done|]. intros ? ? [= <- <-].
  split; [apply (l_dom _ _ _ HI)|].
  intros v Hv%vertices_spec. split.
  - intros [d Hd].
    destruct (LInv_final_lower _ _ _ _ _ HI Hempty Hd) as (m & Hm & _).
    exists m. split; [done|]. split; [by apply (l_walk _ _ _ HI)|].
    intros d' Hd'.
    destruct (LInv_final_lower _ _ _ _ _ HI Hempty Hd') as (m' & Hm' & ?).
    rewrite Hm in Hm'. by injection Hm' as <-.
  - intros Hnot.
    assert (is_Some (dist st !! v)) as [[m|] Hm]; [|exfalso|done].
    { apply elem_of_dom. rewrite (l_dom _ _ _ HI). by apply elem_of_dom. }
    apply Hnot. exists m. by apply (l_walk _ _ _ HI).
Qed.

Lemma dijkstra_heap_any_weights_witness :
  ∃ dist prev,
    dijkstra_heap 10
      (build_graph [EdgeCall "a" "b" 5 false; EdgeCall "a" "c" 2 false;
                    EdgeCall "c" "b" (-4) false]) "a"
      = Some (Ret (dist, prev)) ∧
    dist !! "b" = Some (Fin (-2)) ∧
    ∀ v, v ∈ vertices
               (build_graph [EdgeCall "a" "b" 5 false; EdgeCall "a" "c" 2 false;
                             EdgeCall "c" "b" (-4) false]) →
      (reachable
         (build_graph [EdgeCall "a" "b" 5 false; EdgeCall "a" "c" 2 false;
                       EdgeCall "c" "b" (-4) false]) "a" v →
         ∃ m, dist !! v = Some (Fin m) ∧
              shortest_distance
                (build_graph [EdgeCall "a" "b" 5 false;
                              EdgeCall "a" "c" 2 false;
                              EdgeCall "c" "b" (-4) false]) "a" v m) ∧
      (¬ reachable
           (build_graph [EdgeCall "a" "b" 5 false; EdgeCall "a" "c" 2 false;
                         EdgeCall "c" "b" (-4) false]) "a" v →
       dist !! v = Some Inf).
Proof.
  pose (r := match dijkstra_heap 10
                     (build_graph [EdgeCall "a" "b" 5 false;
                                   EdgeCall "a" "c" 2 false;
                                   EdgeCall "c" "b" (-4) false]) "a" with
             | Some (Ret r) => r
             | _ => (∅, ∅)
             end).
  assert (dijkstra_heap 10
            (build_graph [EdgeCall "a" "b" 5 false; EdgeCall "a" "c" 2 false;
                          EdgeCall "c" "b" (-4) false]) "a"
          = Some (Ret (r.1, r.2))) as Hrun by (vm_compute; reflexivity).
  exists r.1, r.2. split; [exact Hrun|].
  split; [vm_compute; reflexivity|].
  destruct (dijkstra_heap_any_weights
              [EdgeCall "a" "b" 5 false; EdgeCall "a" "c" 2 false;
               EdgeCall "c" "b" (-4) false] "a" 10) as [_ Hret].
  - apply vertices_check. vm_compute. reflexivity.
  - destruct (Hret r.1 r.2 Hrun) as [_ Hall]. exact Hall.
Defined.

(** X6: On a graph built with [add_edge], when a closed walk of negative total
    weight can be reached from [start] (an undirected edge of negative
    weight is one), [dijkstra_heap] never returns: whatever the number of
    iterations allowed, the loop is still running. *)
Theorem dijkstra_heap_negative_cycle_never_returns (calls : list edge_call)
    (start u : string) (m1 m2 : Z) (fuel : nat) :
  start ∈ vertices (build_graph calls) →
  walk (build_graph calls) start u m1 →
  walk (build_graph calls) u u m2 →
  m2 < 0 →
  dijkstra_heap fuel (build_graph calls) start = None.
Proof.
  intros Hstart%vertices_spec Hu Hcycle Hneg.
  pose proof (dijkstra_loop_linv _ start (build_graph_closed calls) fuel _
                (dijkstra_init_linv _ _ Hstart)) as Hloop.
  unfold dijkstra_heap.
  destruct Hloop as [->|(st & _ & HI & Hempty)]; [done|].
  exfalso.
  destruct (LInv_final_lower _ _ _ _ _ HI Hempty Hu) as (du & Hdu & _).
  pose proof (walk_app _ _ _ _ _ _ (l_walk _ _ _ HI _ _ Hdu) Hcycle) as Hlong.
  destruct (LInv_final_lower _ _ _ _ _ HI Hempty Hlong) as (du' & Hdu' & ?).
  rewrite Hdu in Hdu'. injection Hdu' as <-. lia.
Qed.

Lemma dijkstra_heap_negative_cycle_never_returns_witness :
  dijkstra_heap 1000 (build_graph [EdgeCall "a" "b" (-1) true]) "a" = None.
Proof.
  apply (dijkstra_heap_negative_cycle_never_returns
           [EdgeCall "a" "b" (-1) true] "a" "a" 0 (-1 + -1) 1000).
  - apply vertices_check. vm_compute. reflexivity.
  - constructor.
  - apply walk_snoc with "b".
    + apply (walk_snoc _ _ "a" "b" (-1) 0); [constructor|].
      vm_compute. by left.
    + vm_compute. by left.
  - lia.
Defined.
(** ** The predecessor map and the reconstructed path *)

(** X3: On a graph built with [add_edge] with non-negative weights, and from a
    start vertex of the graph, the predecessor map that [dijkstra_heap]
    returns is a shortest-path tree: its keys are the vertices; [start]
    and the vertices with distance [Inf] have predecessor [None]; every
    other vertex [v] has a predecessor [u] with a finite distance and an
    edge from [u] to [v] whose weight is exactly [dist[v] - dist[u]]. *)
Theorem dijkstra_heap_predecessor_tree (calls : list edge_call)
    (start : string) (fuel : nat) :
  nonneg_weights (build_graph calls) →
  start ∈ vertices (build_graph calls) →
  (dijkstra_fuel (build_graph calls) ≤ fuel)%nat →
  ∃ dist prev,
    dijkstra_heap fuel (build_graph calls) start = Some (Ret (dist, prev)) ∧
    dom prev = dom (adjacency_list (build_graph calls)) ∧
    prev !! start = Some None ∧
    ∀ v, v ≠ start →
      (dist !! v = Some Inf → prev !! v = Some None) ∧
      (∀ d, dist !! v = Some (Fin d) →
         ∃ u w du, prev !! v = Some (Some u) ∧
           (v, w) ∈ edges_of (build_graph calls) u ∧
           dist !! u = Some (Fin du) ∧ d = du + w).
Proof.
  intros Hnn Hstart%vertices_spec Hfuel.
  destruct (dijkstra_loop_terminates _ start fuel
              (build_graph_closed calls) Hnn Hstart Hfuel)
    as (st & done & Hloop & HI & Hheap).
  exists (dist st), (prev st). split; [by apply dijkstra_heap_unfold|].
  split; [apply (inv_dom_prev _ _ _ _ _ HI)|].
  split; [apply (inv_prev_start _ _ _ _ _ HI)|].
  intros v Hne. split.
  - apply (inv_prev_inf _ _ _ _ _ HI).
  - intros d Hd.
    destruct (inv_prev_fin _ _ _ _ _ HI v d Hd Hne)
      as (u & w & du & Hu & _ & Hw & Hdu & ->).
    by exists u, w, du.
Qed.

Lemma dijkstra_heap_predecessor_tree_witness :
  ∃ dist prev,
    dijkstra_heap 10
      (build_graph [EdgeCall "a" "b" 4 true; EdgeCall "b" "c" 1 true;
                    EdgeCall "a" "c" 2 true]) "a"
      = Some (Ret (dist, prev)) ∧
    prev !! "a" = Some None.
Proof.
  destruct (dijkstra_heap_predecessor_tree
              [EdgeCall "a" "b" 4 true; EdgeCall "b" "c" 1 true;
               EdgeCall "a" "c" 2 true] "a" 10)
    as (dist & prev & Hrun & _ & Hstart & _).
  - apply nonneg_weights_check. vm_compute. reflexivity.
  - apply vertices_check. vm_compute. reflexivity.
  - vm_compute. lia.
  - exists dist, prev. split; [exact Hrun|exact Hstart].
Defined.

(** The backward walk from a scanned vertex repeats no vertex. *)
Lemma prev_ok_backward_walk_nodup start prev done :
  prev_ok start prev done → NoDup done →
  ∀ x p, x ∈ done → backward_walk prev x p →
    NoDup p ∧ ∀ y, y ∈ p → y ∈ done.
Proof.
  induction done as [|y rest IH]; intros Hok Hnd x p Hx Hp;
    [by apply elem_of_nil in Hx|].
  destruct Hok as [Hy Hok]. apply NoDup_cons in Hnd as [Hyrest Hnd].
  apply elem_of_cons in Hx as [->|Hx].
  - destruct Hy as [[-> Hnone]|(u & Hu & Hin)].
    + inversion Hp as [x Hx' |x u p' Hx' Hp']; subst; [|congruence].
      split; [apply NoDup_singleton|].
      intros z ->%list_elem_of_singleton. by left.
    + inversion Hp as [x Hx' |x u' p' Hx' Hp']; subst; [congruence|].
      rewrite Hu in Hx'. injection Hx' as <-.
      destruct (IH Hok Hnd u p' Hin Hp') as [Hnd' Hsub].
      split.
      * apply NoDup_cons. split; [|done]. intros Hy'. by apply Hyrest, Hsub.
      * intros z [->|Hz]%elem_of_cons; [by left|]. right. by apply Hsub.
  - destruct (IH Hok Hnd x p Hx Hp) as [Hnd' Hsub].
    split; [done|]. intros z Hz. right. by apply Hsub.
Qed.

(** The backward walk, reversed, is a route of the graph whose weight is
    the distance of the vertex it starts from. *)
Lemma backward_walk_route g start (dist : gmap string Dist)
    (prev : gmap string (option string)) :
  (∀ v d, dist !! v = Some (Fin d) → v ≠ start →
     ∃ u w du, prev !! v = Some (Some u) ∧ (v, w) ∈ edges_of g u ∧
               dist !! u = Some (Fin du) ∧ d = du + w) →
  prev !! start = Some None → dist !! start = Some (Fin 0) →
  ∀ x back, backward_walk prev x back →
    ∀ d, dist !! x = Some (Fin d) →
      ∃ steps, reverse back = start :: steps.*1 ∧ route_ok g start steps ∧
               route_end start steps = x ∧ route_weight steps = d.
Proof.
  intros Hedge Hps Hds.
  induction 1 as [x Hx|x u p Hx _ IH]; intros d Hd.
  - destruct (decide (x = start)) as [->|Hne].
    + exists []. rewrite Hds in Hd. by injection Hd as <-.
    + destruct (Hedge x d Hd Hne) as (u & w & du & Hu & _). congruence.
  - assert (x ≠ start) as Hne by (intros ->; congruence).
    destruct (Hedge x d Hd Hne) as (u' & w & du & Hu & Hw & Hdu & ->).
    rewrite Hx in Hu. injection Hu as <-.
    destruct (IH du Hdu) as (steps & Hrev & Hok & Hend & Hweight).
    exists (steps ++ [(x, w)]). split; [|split; [|split]].
    + rewrite reverse_cons, Hrev, fmap_app. done.
    + apply route_ok_snoc. by rewrite Hend.
    + by rewrite route_end_snoc.
    + rewrite route_weight_snoc. simpl. lia.
Qed.

Lemma backward_walk_unique prev x p :
  backward_walk prev x p → ∀ q, backward_walk prev x q → p = q.
Proof.
  induction 1 as [x Hx|x u p Hx _ IH]; intros q Hq.
  - inversion Hq; subst; [done|congruence].
  - inversion Hq as [|x' u' q' Hx' Hq']; subst; [congruence|].
    rewrite Hx in Hx'. injection Hx' as <-. f_equal. by apply IH.
Qed.

(** X4: On a graph built with [add_edge] with non-negative weights, for a
    target that can be reached from the start vertex, the list that
    [reconstruct_path] returns from the output of [dijkstra_heap] begins
    with [start], ends with [target], repeats no vertex, follows an edge
    of the graph from each vertex to the next, and the weights of these
    edges add up to [dist[target]], the least weight of a walk from
    [start] to [target]. *)
Theorem reconstruct_path_is_a_shortest_route (calls : list edge_call)
    (start target : string) (fuel fuel' : nat) :
  nonneg_weights (build_graph calls) →
  start ∈ vertices (build_graph calls) →
  reachable (build_graph calls) start target →
  (dijkstra_fuel (build_graph calls) ≤ fuel)%nat →
  (length (vertices (build_graph calls)) ≤ fuel')%nat →
  ∃ dist prev path steps m,
    dijkstra_heap fuel (build_graph calls) start = Some (Ret (dist, prev)) ∧
    reconstruct_path fuel' prev start target = Some (Ret (Some path)) ∧
    path = start :: steps.*1 ∧ last path = Some target ∧ NoDup path ∧
    route_ok (build_graph calls) start steps ∧
    route_weight steps = m ∧
    dist !! target = Some (Fin m) ∧
    shortest_distance (build_graph calls) start target m.
Proof.
  intros Hnn Hstart%vertices_spec Hreach Hfuel Hfuel'.
  destruct (dijkstra_loop_terminates _ start fuel
              (build_graph_closed calls) Hnn Hstart Hfuel)
    as (st & done & Hloop & HI & Hheap).
  assert (is_Some (adjacency_list (build_graph calls) !! target)) as Htarget.
  { destruct Hreach as [d [|u v w d' _ Hin]]; [done|].
    by eapply build_graph_closed. }
  destruct (Inv_final_reconstruct _ _ _ _ target fuel' HI Hheap Htarget Hfuel')
    as [_ Hre].
  destruct (Hre Hreach) as (back & Hback & Hrun & Hhd & Hlast).
  destruct (Inv_final_dist _ _ _ _ target HI Hheap Htarget) as [Hfin _].
  destruct (Hfin Hreach) as (m & Hm & Hshort).
  assert (target ∈ done) as Hdone.
  { destruct (inv_open _ _ _ _ _ HI target m Hm) as [?|Hin]; [done|].
    rewrite Hheap in Hin. by apply elem_of_nil in Hin. }
  destruct (prev_ok_backward_walk_nodup _ _ _ (inv_prev_ok _ _ _ _ _ HI)
              (inv_nodup _ _ _ _ _ HI) _ _ Hdone Hback) as [Hnd _].
  destruct (backward_walk_route (build_graph calls) start (dist st) (prev st))
    with (x := target) (back := back) (d := m)
    as (steps & Hrev & Hok & Hend & Hweight); try done.
  { intros v d Hd Hne.
    destruct (inv_prev_fin _ _ _ _ _ HI v d Hd Hne)
      as (u & w & du & Hu & _ & Hw & Hdu & ->).
    by exists u, w, du. }
  { apply (inv_prev_start _ _ _ _ _ HI). }
  { apply (inv_start _ _ _ _ _ HI). }
  exists (dist st), (prev st), (reverse back), steps, m.
  split; [by apply dijkstra_heap_unfold|]. split; [done|].
  split; [done|]. split; [done|]. split; [by rewrite reverse_Permutation|].
  done.
Qed.

Lemma reconstruct_path_is_a_shortest_route_witness :
  ∃ dist prev path,
    dijkstra_heap 10
      (build_graph [EdgeCall "a" "b" 4 true; EdgeCall "b" "c" 1 true;
                    EdgeCall "a" "c" 2 true]) "a"
      = Some (Ret (dist, prev)) ∧
    reconstruct_path 10 prev "a" "b" = Some (Ret (Some path)) ∧
    last path = Some "b" ∧ NoDup path.
Proof.
  destruct (reconstruct_path_is_a_shortest_route
              [EdgeCall "a" "b" 4 true; EdgeCall "b" "c" 1 true;
               EdgeCall "a" "c" 2 true] "a" "b" 10 10)
    as (dist & prev & path & steps & m & Hrun & Hpath & _ & Hlast & Hnd & _).
  - apply nonneg_weights_check. vm_compute. reflexivity.
  - apply vertices_check. vm_compute. reflexivity.
  - exists (0 + 4). apply walk_snoc with "a"; [constructor|].
    vm_compute. by left.
  - vm_compute. lia.
  - vm_compute. lia.
  - exists dist, prev, path. split; [exact Hrun|]. split; [exact Hpath|].
    split; [exact Hlast|exact Hnd].
Defined.
(** ** The distance matrix is symmetric and obeys the triangle inequality *)

Lemma nx_weight_spec G u v w :
  nx_weight G u v = Some w ↔ ∃ m, G !! u = Some m ∧ m !! v = Some w.
Proof.
  unfold nx_weight. destruct (G !! u) as [m|]; simpl.
  - naive_solver.
  - rewrite lookup_empty. naive_solver.
Qed.

Lemma nx_add_node_weight n G x y :
  nx_weight (nx_add_node n G) x y = nx_weight G x y.
Proof. unfold nx_weight. by rewrite nx_add_node_default. Qed.

(** [add_edge] stores the weight in both directions and replaces the
    weight of an edge that exists. *)
Lemma nx_add_edge_weight u v w G x y :
  nx_weight (nx_add_edge u v w G) x y =
    if decide ((x = u ∧ y = v) ∨ (x = v ∧ y = u)) then Some w
    else nx_weight G x y.
Proof.
  unfold nx_weight, nx_add_edge.
  destruct (decide (x = v)) as [->|Hxv].
  - rewrite lookup_insert_eq. simpl.
    destruct (decide (y = u)) as [->|Hyu].
    + rewrite lookup_insert_eq. rewrite decide_True; [done|]. by right.
    + rewrite lookup_insert_ne by done.
      destruct (decide (v = u)) as [->|Hvu].
      * rewrite lookup_insert_eq. simpl. rewrite lookup_insert_ne by done.
        rewrite !nx_add_node_default.
        rewrite decide_False; [done|]. intros [[_ ?]|[_ ?]]; done.
      * rewrite lookup_insert_ne by done. rewrite !nx_add_node_default.
        rewrite decide_False; [done|]. intros [[? _]|[_ ?]]; done.
  - rewrite lookup_insert_ne by done.
    destruct (decide (x = u)) as [->|Hxu].
    + rewrite lookup_insert_eq. simpl.
      destruct (decide (y = v)) as [->|Hyv].
      * rewrite lookup_insert_eq. rewrite decide_True; [done|]. by left.
      * rewrite lookup_insert_ne by done. rewrite !nx_add_node_default.
        rewrite decide_False; [done|]. intros [[_ ?]|[? _]]; done.
    + rewrite lookup_insert_ne by done. rewrite !nx_add_node_default.
      rewrite decide_False; [done|]. intros [[? _]|[? _]]; done.
Qed.

Lemma nx_build_symmetric ops x y :
  nx_weight (nx_build ops) x y = nx_weight (nx_build ops) y x.
Proof.
  induction ops as [|op ops IH] using rev_ind.
  - unfold nx_weight, nx_build. simpl. by rewrite !lookup_empty.
  - rewrite nx_build_snoc. destruct op as [n|u v w]; simpl.
    + by rewrite !nx_add_node_weight.
    + rewrite !nx_add_edge_weight, IH.
      destruct (decide ((x = u ∧ y = v) ∨ (x = v ∧ y = u))) as [Hxy|Hxy].
      * rewrite decide_True; [done|]. tauto.
      * rewrite decide_False; [done|]. tauto.
Qed.

Lemma nx_wwalk_step G s u v w d :
  nx_wwalk G s u d → nx_weight G u v = Some w → nx_wwalk G s v (d + w).
Proof.
  intros Hw (m & Hm & Hv)%nx_weight_spec. by apply nx_wwalk_snoc with u m.
Qed.

Lemma nx_wwalk_app G s u v d1 d2 :
  nx_wwalk G s u d1 → nx_wwalk G u v d2 → nx_wwalk G s v (d1 + d2).
Proof.
  intros H1. induction 1 as [|x y m w d _ IH Hm Hw].
  - by rewrite Z.add_0_r.
  - rewrite Z.add_assoc. by apply nx_wwalk_snoc with x m.
Qed.

(** In an undirected graph a walk can be taken backwards. *)
Lemma nx_wwalk_sym ops s t d :
  nx_wwalk (nx_build ops) s t d → nx_wwalk (nx_build ops) t s d.
Proof.
  induction 1 as [|u v m w d _ IH Hm Hw]; [constructor|].
  assert (nx_weight (nx_build ops) v u = Some w) as Hvu.
  { rewrite nx_build_symmetric. apply nx_weight_spec. eauto. }
  replace (d + w) with (0 + w + d) by lia.
  eapply nx_wwalk_app; [|done].
  eapply nx_wwalk_step; [constructor|done].
Qed.

(** An integer from [2^53] on is not taken below [2^53]. *)
Lemma float64_large m f : 2 ^ 53 ≤ m → float64 m = Ret f → 2 ^ 53 ≤ f.
Proof.
  intros Hm. unfold float64. destruct (_ <=? _); [|done]. intros [= <-].
  assert (0 < 2 ^ 53) as H53 by (apply Z.pow_pos_nonneg; lia).
  rewrite Z.abs_eq, (Z.sgn_pos m), Z.mul_1_l by lia.
  unfold float64_of_nonneg.
  assert (53 ≤ Z.log2 m) as HL by (apply Z.log2_le_pow2; lia).
  destruct (0 <? Z.log2 m - 52) eqn:Hk; [|done].
  apply Z.ltb_lt in Hk.
  destruct (Z.log2_spec m ltac:(lia)) as [Hlo _].
  pose proof (round_half_even_near m _ ltac:(lia) Hk) as [[Hround _] _].
  assert (2 ^ Z.log2 m = 2 ^ 52 * 2 ^ (Z.log2 m - 52)) as Hpow.
  { rewrite <- Z.pow_add_r by lia. f_equal. lia. }
  assert (0 < 2 ^ (Z.log2 m - 52)) as HP by (apply Z.pow_pos_nonneg; lia).
  assert (2 ^ 52 ≤ m / 2 ^ (Z.log2 m - 52)) as Hq.
  { apply Z.div_le_lower_bound; lia. }
  assert (2 ^ 53 ≤ 2 ^ Z.log2 m) by (apply Z.pow_le_mono_r; lia).
  nia.
Qed.

(** The cells of the matrix of a connected graph. *)
Lemma distance_matrix_cells ops :
  nx_nonneg (nx_build ops) → nx_connected (nx_build ops) →
  (∀ s t m, s ∈ nx_nodes (nx_build ops) → t ∈ nx_nodes (nx_build ops) →
            nx_shortest_distance (nx_build ops) s t m → m ≤ float64_max) →
  ∃ M, distance_matrix_of (nx_build ops) = Ret M ∧
    ∀ s t, s ∈ nx_nodes (nx_build ops) → t ∈ nx_nodes (nx_build ops) →
      ∃ m f, M !! (s, t) = Some (Val (Fin f)) ∧ float64 m = Ret f ∧
             nx_shortest_distance (nx_build ops) s t m.
Proof.
  intros Hnn Hconn Hbound. pose proof (nx_build_closed ops) as Hcl.
  destruct (find_all_shortest_paths_spec _ Hcl Hnn) as (all & Hall & _).
  unfold distance_matrix_of. rewrite Hall.
  assert (∀ s t, s ∈ nx_nodes (nx_build ops) → t ∈ nx_nodes (nx_build ops) →
     ∃ m f, expected_cell all s t = Some (Val (Fin f)) ∧ float64 m = Ret f ∧
            nx_shortest_distance (nx_build ops) s t m) as Hcell.
  { intros s t Hs Ht. unfold expected_cell.
    destruct (decide (s = t)) as [->|Hne].
    - exists 0, 0. split; [done|]. split; [done|]. split; [constructor|].
      intros d Hd. by eapply nx_wwalk_nonneg.
    - destruct (find_all_shortest_paths_lookup _ _ _ Hnn Hall Hs)
        as (ls & -> & Hshort & Hkeys).
      destruct (Hkeys t (Hconn s t Hs Ht)) as [m Hm]. rewrite Hm.
      pose proof (Hshort t m Hm) as Hsd.
      pose proof (nx_wwalk_nonneg _ _ _ _ Hnn (proj1 Hsd)) as H0.
      destruct (float64_in_range m) as [f Hf].
      { pose proof (Hbound s t m Hs Ht Hsd). lia. }
      exists m, f. by rewrite Hf. }
  destruct (create_distance_matrix_filled (nx_build ops) all)
    as (M & Hrun & HM).
  { intros s t Hs Ht. destruct (Hcell s t Hs Ht) as (m & f & -> & _).
    by eexists. }
  exists M. split; [done|]. intros s t Hs Ht.
  rewrite HM, decide_True by done. by apply Hcell.
Qed.

(** X15: On a connected NetworkX graph with non-negative weights whose
    shortest distances do not exceed the largest float64, the distance
    matrix holds a number in every cell; no cell is negative; the matrix is
    symmetric; and going through a third node is never shorter,
    [M[s][t] ≤ M[s][u] + M[u][t]], as long as that sum is below [2^53],
    where the cells hold the distances exactly. *)
Theorem distance_matrix_is_symmetric_and_triangular (ops : list nx_op) :
  nx_nonneg (nx_build ops) →
  nx_connected (nx_build ops) →
  (∀ s t m, s ∈ nx_nodes (nx_build ops) → t ∈ nx_nodes (nx_build ops) →
            nx_shortest_distance (nx_build ops) s t m → m ≤ float64_max) →
  ∃ M, distance_matrix_of (nx_build ops) = Ret M ∧
    (∀ s t, s ∈ nx_nodes (nx_build ops) → t ∈ nx_nodes (nx_build ops) →
       ∃ f, M !! (s, t) = Some (Val (Fin f)) ∧ 0 ≤ f ∧
            M !! (t, s) = Some (Val (Fin f))) ∧
    (∀ s t u a b c,
       s ∈ nx_nodes (nx_build ops) → t ∈ nx_nodes (nx_build ops) →
       u ∈ nx_nodes (nx_build ops) →
       M !! (s, t) = Some (Val (Fin a)) →
       M !! (s, u) = Some (Val (Fin b)) →
       M !! (u, t) = Some (Val (Fin c)) →
       b + c < 2 ^ 53 →
       a ≤ b + c).
Proof.
  intros Hnn Hconn Hbound.
  destruct (distance_matrix_cells ops Hnn Hconn Hbound)
    as (M & Hrun & Hcells).
  assert (∀ m f, 0 ≤ m → float64 m = Ret f → 0 ≤ f) as Hpos.
  { intros m f H0 Hf. pose proof (float64_near _ _ Hf).
    assert (0 < 2 ^ 53) by (apply Z.pow_pos_nonneg; lia). nia. }
  assert (∀ m f, 0 ≤ m → float64 m = Ret f → f < 2 ^ 53 → f = m) as Hexact.
  { intros m f H0 Hf Hlt.
    destruct (decide (2 ^ 53 ≤ m)) as [Hbig|Hsmall].
    - pose proof (float64_large _ _ Hbig Hf). lia.
    - rewrite float64_exact in Hf by lia. by injection Hf. }
  exists M. split; [done|]. split.
  - intros s t Hs Ht.
    destruct (Hcells s t Hs Ht) as (m & f & Hm & Hf & Hwalk & Hmin).
    destruct (Hcells t s Ht Hs) as (m' & f' & Hm' & Hf' & Hwalk' & Hmin').
    pose proof (Hmin _ (nx_wwalk_sym _ _ _ _ Hwalk')).
    pose proof (Hmin' _ (nx_wwalk_sym _ _ _ _ Hwalk)).
    assert (m' = m) as -> by lia.
    rewrite Hf in Hf'. injection Hf' as <-.
    exists f. split; [done|]. split; [|done].
    eapply Hpos; [|done]. by eapply nx_wwalk_nonneg.
  - intros s t u a b c Hs Ht Hu Ha Hb Hc Hsum.
    destruct (Hcells s t Hs Ht) as (ma & a' & Ha' & Hfa & Hwa & Hmin).
    destruct (Hcells s u Hs Hu) as (mb & b' & Hb' & Hfb & Hwb & _).
    destruct (Hcells u t Hu Ht) as (mc & c' & Hc' & Hfc & Hwc & _).
    rewrite Ha in Ha'. rewrite Hb in Hb'. rewrite Hc in Hc'.
    injection Ha' as <-. injection Hb' as <-. injection Hc' as <-.
    pose proof (nx_wwalk_nonneg _ _ _ _ Hnn Hwa) as H0a.
    pose proof (nx_wwalk_nonneg _ _ _ _ Hnn Hwb) as H0b.
    pose proof (nx_wwalk_nonneg _ _ _ _ Hnn Hwc) as H0c.
    pose proof (Hpos _ _ H0b Hfb). pose proof (Hpos _ _ H0c Hfc).
    assert (b = mb) as -> by (apply Hexact; [done..|lia]).
    assert (c = mc) as -> by (apply Hexact; [done..|lia]).
    pose proof (Hmin _ (nx_wwalk_app _ _ _ _ _ _ Hwb Hwc)) as Hle.
    rewrite float64_exact in Hfa by lia. injection Hfa as <-. done.
Qed.

Lemma distance_matrix_is_symmetric_and_triangular_witness :
  ∃ M, distance_matrix_of (nx_build [AddEdge "A" "B" 2]) = Ret M ∧
    ∀ s t, s ∈ nx_nodes (nx_build [AddEdge "A" "B" 2]) →
           t ∈ nx_nodes (nx_build [AddEdge "A" "B" 2]) →
      ∃ f, M !! (s, t) = Some (Val (Fin f)) ∧ 0 ≤ f ∧
           M !! (t, s) = Some (Val (Fin f)).
Proof.
  destruct (distance_matrix_is_symmetric_and_triangular [AddEdge "A" "B" 2])
    as (M & Hrun & Hsym & _).
  - apply nx_nonneg_check. vm_compute. reflexivity.
  - intros s t Hs Ht.
    assert (nx_nodes (nx_build [AddEdge "A" "B" 2]) = ["A"; "B"]) as Hnodes
      by (vm_compute; reflexivity).
    rewrite Hnodes in Hs, Ht.
    apply elem_of_cons in Hs as [->|Hs%list_elem_of_singleton];
      apply elem_of_cons in Ht as [->|Ht%list_elem_of_singleton]; subst.
    + by exists ["A"].
    + exists ["A"; "B"]. repeat split.
      apply adjacent_check. vm_compute. reflexivity.
    + exists ["B"; "A"]. repeat split.
      apply adjacent_check. vm_compute. reflexivity.
    + by exists ["B"].
  - apply nx_distances_check.
    + apply nx_nonneg_check. vm_compute. reflexivity.
    + vm_compute. reflexivity.
  - exists M. split; [exact Hrun|exact Hsym].
Defined.

(** Beyond [2^53] the cells are rounded and the table can break the
    triangle inequality: with an edge of weight [2^53 + 1] from [s] to [u]
    and an edge of weight 1 from [u] to [t], the cell [(s, t)] holds
    [2^53 + 2], which is more than [2^53] and 1 together. *)
Example distance_matrix_rounded_cells :
  match distance_matrix_of
          (nx_build [AddEdge "s" "u" (2 ^ 53 + 1); AddEdge "u" "t" 1]) with
  | Ret M =>
      M !! ("s", "t") = Some (Val (Fin (2 ^ 53 + 2))) ∧
      M !! ("s", "u") = Some (Val (Fin (2 ^ 53))) ∧
      M !! ("u", "t") = Some (Val (Fin 1))
  | Raise _ => False
  end.
Proof. vm_compute. done. Qed.
(** ** The extreme routes of [analyze_shortest_paths] *)

Lemma analyze_pair_spec all_lengths s seen st t :
  extremes_of all_lengths seen st →
  (s ≠ t → is_Some (length_of all_lengths (s, t))) →
  ∃ st', analyze_pair all_lengths s st t = Ret st' ∧
         extremes_of all_lengths (seen ++ [(s, t)]) st'.
Proof.
  intros [Hb Hnn Hmax Hmin] Hlen. unfold analyze_pair.
  destruct (decide (s = t)) as [->|Hne].
  { exists st. split; [done|]. constructor; try done.
    - intros p [Hp| ->%list_elem_of_singleton]%elem_of_app; [by apply Hb|done].
    - destruct (max_route st) as [p|]; [|done].
      destruct Hmax as (? & ? & ? & ?). split; [|done].
      apply elem_of_app. by left.
    - destruct (min_route st) as [p|]; [|done].
      destruct Hmin as (? & ? & ?). split; [|done].
      apply elem_of_app. by left. }
  destruct (Hlen Hne) as [d Hd]. unfold length_of in Hd. simpl in Hd.
  destruct (all_lengths !! s) as [lengths|] eqn:Hs; [|done]. simpl in Hd.
  rewrite Hd.
  assert (length_of all_lengths (s, t) = Some d) as Hst.
  { unfold length_of. simpl. by rewrite Hs. }
  assert (∀ p : string * string, p ∈ seen → p ∈ seen ++ [(s, t)]) as Hseen.
  { intros p Hp. apply elem_of_app. by left. }
  assert ((s, t) ∈ seen ++ [(s, t)]) as Hnew.
  { apply elem_of_app. right. by apply list_elem_of_singleton. }
  destruct (max_distance st <? d) eqn:Hlt;
    [apply Z.ltb_lt in Hlt|apply Z.ltb_ge in Hlt]; simpl;
    destruct (min_distance st) as [m|] eqn:Hm; simpl;
    try (destruct (d <? m) eqn:Hlt';
         [apply Z.ltb_lt in Hlt'|apply Z.ltb_ge in Hlt']);
    eexists; (split; [done|]); constructor; simpl; rewrite ?Hm; simpl;
    try lia; try (by repeat split; eauto; lia).
  all: try (intros p [Hp| ->%list_elem_of_singleton]%elem_of_app Hp';
            [destruct (Hb p Hp Hp') as (d' & Hd' & ? & Hle);
             rewrite ?Hm in Hle; simpl in Hle;
             exists d'; (split; [done|]); simpl; split; try lia; done
            |exists d; (split; [done|]); simpl; split; try lia; done]).
  all: try (destruct (max_route st) as [p|]; [|done];
            destruct Hmax as (? & ? & ? & ?); split; [by apply Hseen|done]).
  all: try (destruct (min_route st) as [p|]; [|done];
            destruct Hmin as (? & ? & ?); split; [by apply Hseen|done]).
Qed.

Lemma analyze_row_spec all_lengths s targets :
  ∀ seen st,
    extremes_of all_lengths seen st →
    (∀ t, t ∈ targets → s ≠ t → is_Some (length_of all_lengths (s, t))) →
    ∃ st', for_each (analyze_pair all_lengths s) targets st = Ret st' ∧
           extremes_of all_lengths (seen ++ ((λ t, (s, t)) <$> targets)) st'.
Proof.
  induction targets as [|t targets IH]; intros seen st Hex Hlen.
  - exists st. split; [done|]. simpl. by rewrite app_nil_r.
  - destruct (analyze_pair_spec all_lengths s seen st t Hex)
      as (st1 & Hrun1 & Hex1); [apply Hlen; by left|].
    destruct (IH _ _ Hex1) as (st' & Hrun & Hex').
    { intros t' Ht'. apply Hlen. by right. }
    exists st'. simpl. rewrite Hrun1. split; [done|].
    by rewrite <- app_assoc in Hex'.
Qed.

Lemma analyze_rows_spec all_lengths targets sources :
  ∀ seen st,
    extremes_of all_lengths seen st →
    (∀ s t, s ∈ sources → t ∈ targets → s ≠ t →
            is_Some (length_of all_lengths (s, t))) →
    ∃ st',
      for_each (λ st s, for_each (analyze_pair all_lengths s) targets st)
        sources st = Ret st' ∧
      extremes_of all_lengths
        (seen ++ (s ← sources; (λ t, (s, t)) <$> targets)) st'.
Proof.
  induction sources as [|s sources IH]; intros seen st Hex Hlen.
  - exists st. split; [done|]. simpl. by rewrite app_nil_r.
  - destruct (analyze_row_spec all_lengths s targets seen st Hex)
      as (st1 & Hrun1 & Hex1); [intros t Ht; apply Hlen; [by left|done]|].
    destruct (IH _ _ Hex1) as (st' & Hrun & Hex').
    { intros s' t' Hs' Ht'. apply Hlen; [by right|done]. }
    exists st'. simpl. rewrite Hrun1. split; [done|].
    by rewrite <- app_assoc in Hex'.
Qed.

Lemma elem_of_pairs (sources targets : list string) (p : string * string) :
  p ∈ (s ← sources; (λ t, (s, t)) <$> targets) ↔
  p.1 ∈ sources ∧ p.2 ∈ targets.
Proof.
  rewrite list_elem_of_bind. split.
  - intros (s & (t & -> & Ht)%list_elem_of_fmap & Hs). done.
  - intros [Hs Ht]. exists p.1. split; [|done].
    apply list_elem_of_fmap. exists p.2. split; [by destruct p|done].
Qed.

Lemma analyze_pair_Raise all_lengths s st t e :
  analyze_pair all_lengths s st t = Raise e → ∃ k, e = KeyError k.
Proof.
  unfold analyze_pair. destruct (decide (s = t)); [done|].
  destruct (all_lengths !! s) as [ls|]; [|intros [= <-]; eauto].
  destruct (ls !! t); [|intros [= <-]; eauto].
  by repeat case_match.
Qed.

Lemma analyze_pair_Ret all_lengths s st t st' :
  analyze_pair all_lengths s st t = Ret st' → s ≠ t →
  is_Some (length_of all_lengths (s, t)).
Proof.
  unfold analyze_pair, length_of. simpl. intros Hrun Hne.
  rewrite decide_False in Hrun by done.
  destruct (all_lengths !! s) as [ls|]; [|done]. simpl.
  destruct (ls !! t); [eauto|done].
Qed.

(** X16: The first loop of [analyze_shortest_paths], for any dictionary
    [all_lengths].  When [all_lengths[s][t]] exists for all distinct nodes
    [s] and [t], the loop ends with [max_distance] at least every such
    entry and [min_distance] at most every such entry, [max_route] a pair
    of distinct nodes whose entry is [max_distance], and [min_route] one
    whose entry is [min_distance]; [max_route] stays [None], with
    [max_distance] 0, exactly when no entry is positive, and [min_route]
    stays [None], with [min_distance] infinite, exactly when the graph has
    no two distinct nodes.  When an entry is missing for some pair of
    distinct nodes, the loop raises [KeyError]. *)
Theorem analyze_shortest_paths_extremes (G : nxGraph)
    (all_lengths : gmap string (gmap string Z)) :
  ((∀ s t, s ∈ nx_nodes G → t ∈ nx_nodes G → s ≠ t →
           is_Some (length_of all_lengths (s, t))) →
   ∃ r, analyze_extremes G all_lengths = Ret r ∧
     (∀ s t, s ∈ nx_nodes G → t ∈ nx_nodes G → s ≠ t →
        ∃ d, length_of all_lengths (s, t) = Some d ∧
             d ≤ max_distance r ∧ Dist_le (min_distance r) (Fin d)) ∧
     match max_route r with
     | Some (s, t) =>
         s ∈ nx_nodes G ∧ t ∈ nx_nodes G ∧ s ≠ t ∧ 0 < max_distance r ∧
         length_of all_lengths (s, t) = Some (max_distance r)
     | None => max_distance r = 0
     end ∧
     match min_route r with
     | Some (s, t) =>
         s ∈ nx_nodes G ∧ t ∈ nx_nodes G ∧ s ≠ t ∧
         ∃ d, min_distance r = Fin d ∧ length_of all_lengths (s, t) = Some d
     | None =>
         min_distance r = Inf ∧
         ∀ s t, s ∈ nx_nodes G → t ∈ nx_nodes G → s = t
     end) ∧
  (∀ s t, s ∈ nx_nodes G → t ∈ nx_nodes G → s ≠ t →
     length_of all_lengths (s, t) = None →
     ∃ k, analyze_extremes G all_lengths = Raise (KeyError k)).
Proof.
  split.
  - intros Hall. unfold analyze_extremes.
    destruct (analyze_rows_spec all_lengths (nx_nodes G) (nx_nodes G)
                [] extremes_init) as (r & Hrun & [Hb Hnn Hmax Hmin]).
    { constructor; simpl; try done. by intros p ?%elem_of_nil. }
    { done. }
    rewrite app_nil_l in Hb, Hmax, Hmin.
    exists r. split; [done|]. split; [|split].
    + intros s t Hs Ht Hne. apply (Hb (s, t)); [|done].
      apply elem_of_pairs. by split.
    + destruct (max_route r) as [[s t]|]; [|done].
      destruct Hmax as ([Hs Ht]%elem_of_pairs & ? & ? & ?). done.
    + destruct (min_route r) as [[s t]|].
      * destruct Hmin as ([Hs Ht]%elem_of_pairs & ? & ?). done.
      * split; [done|]. intros s t Hs Ht.
        destruct (decide (s = t)) as [|Hne]; [done|]. exfalso.
        destruct (Hb (s, t)) as (d & _ & _ & Hle);
          [apply elem_of_pairs; by split|done|].
        by rewrite Hmin in Hle.
  - intros s t Hs Ht Hne Hnone. unfold analyze_extremes.
    destruct (for_each _ (nx_nodes G) extremes_init) as [r|e] eqn:Hrun.
    + exfalso.
      destruct (for_each_Ret_inv _ _ _ _ Hrun s Hs) as (st & st' & Hrow).
      destruct (for_each_Ret_inv _ _ _ _ Hrow t Ht) as (st1 & st1' & Hcell).
      apply analyze_pair_Ret in Hcell as [d Hd]; [|done]. congruence.
    + destruct (for_each_Raise_inv _ _ _ _ Hrun) as (s' & st & _ & Hrow).
      destruct (for_each_Raise_inv _ _ _ _ Hrow) as (t' & st1 & _ & Hcell).
      apply analyze_pair_Raise in Hcell as [k ->]. by exists k.
Qed.

Lemma analyze_shortest_paths_extremes_witness :
  ∃ r,
    analyze_extremes (nx_build [AddEdge "a" "b" 2; AddEdge "b" "c" 3])
      {["a" := {["a" := 0; "b" := 2; "c" := 5]};
        "b" := {["a" := 2; "b" := 0; "c" := 3]};
        "c" := {["a" := 5; "b" := 3; "c" := 0]}]} = Ret r ∧
    max_distance r = 5 ∧ min_distance r = Fin 2.
Proof.
  destruct (analyze_shortest_paths_extremes
              (nx_build [AddEdge "a" "b" 2; AddEdge "b" "c" 3])
              {["a" := {["a" := 0; "b" := 2; "c" := 5]};
                "b" := {["a" := 2; "b" := 0; "c" := 3]};
                "c" := {["a" := 5; "b" := 3; "c" := 0]}]})
    as [Hcomplete _].
  destruct Hcomplete as (r & Hrun & _).
  - assert (nx_nodes (nx_build [AddEdge "a" "b" 2; AddEdge "b" "c" 3])
            = ["c"; "a"; "b"]) as Hnodes by (vm_compute; reflexivity).
    rewrite Hnodes. intros s t Hs Ht _.
    repeat (apply elem_of_cons in Hs as [->|Hs]);
      try (by apply elem_of_nil in Hs);
      repeat (apply elem_of_cons in Ht as [->|Ht]);
      try (by apply elem_of_nil in Ht);
      vm_compute; eauto.
  - exists r. split; [exact Hrun|].
    revert Hrun. vm_compute. intros [= <-]. split; reflexivity.
Defined.
(** ** Searches at the boundary *)

(** X11: A search from a vertex to itself returns the one-vertex path and the
    one-vertex visit order without looking at the graph, so also for a
    vertex that is not a node; from an unknown vertex to another one,
    [dfs_path] raises [NetworkXError], and so does [compare_algorithms],
    which calls it first. *)
Theorem searches_from_start_to_itself_and_from_unknown_start (G : nxGraph)
    (start goal : string) (fuel : nat) :
  bfs_path (S fuel) G start start = Some (Ret (Some [start], [start])) ∧
  dfs_path (S fuel) G start start = Some (Ret (Some [start], [start])) ∧
  (∃ r, compare_algorithms (S fuel) G start start = Some (Ret r) ∧
        res_dfs_length r = 0 ∧ res_bfs_length r = 0 ∧
        res_dfs_path r = Some [start] ∧ res_bfs_path r = Some [start]) ∧
  (G !! start = None → start ≠ goal →
   dfs_path (S fuel) G start goal = Some (Raise (NetworkXError start)) ∧
   compare_algorithms (S fuel) G start goal
     = Some (Raise (NetworkXError start))).
Proof.
  assert (bfs_path (S fuel) G start start
          = Some (Ret (Some [start], [start]))) as Hbfs.
  { unfold bfs_path, bfs_path_traced. simpl. by rewrite decide_True. }
  assert (dfs_path (S fuel) G start start
          = Some (Ret (Some [start], [start]))) as Hdfs.
  { unfold dfs_path, dfs_path_traced. simpl.
    rewrite decide_False by set_solver. by rewrite decide_True. }
  split; [done|]. split; [done|]. split.
  - unfold compare_algorithms. rewrite Hdfs, Hbfs. eexists. by split.
  - intros Hstart Hne.
    assert (dfs_path (S fuel) G start goal
            = Some (Raise (NetworkXError start))) as Hraise.
    { unfold dfs_path, dfs_path_traced. simpl.
      rewrite decide_False by set_solver. rewrite decide_False by done.
      by rewrite (neighbors_Raise _ _ Hstart). }
    split; [done|]. unfold compare_algorithms. by rewrite Hraise.
Qed.

Lemma searches_from_start_to_itself_and_from_unknown_start_witness :
  dfs_path 5 (nx_build [AddEdge "a" "b" 1]) "z" "a"
    = Some (Raise (NetworkXError "z")) ∧
  compare_algorithms 5 (nx_build [AddEdge "a" "b" 1]) "z" "a"
    = Some (Raise (NetworkXError "z")).
Proof.
  destruct (searches_from_start_to_itself_and_from_unknown_start
              (nx_build [AddEdge "a" "b" 1]) "z" "a" 4)
    as (_ & _ & _ & Hraise).
  apply Hraise.
  - vm_compute. reflexivity.
  - discriminate.
Defined.

(** ** [reconstruct_path] on a predecessor map with a cycle *)

Lemma walk_back_cycle prev (X : gset string) :
  (∀ x, x ∈ X → ∃ y, prev !! x = Some (Some y) ∧ y ∈ X) →
  ∀ fuel x acc, x ∈ X → walk_back fuel prev (Some x) acc = None.
Proof.
  intros Hcycle. induction fuel as [|fuel IH]; intros x acc Hx; [done|].
  simpl. destruct (Hcycle x Hx) as (y & -> & Hy). by apply IH.
Qed.

(** X7: [reconstruct_path] takes any predecessor map.  When every vertex of a
    set has its predecessor in the set (the map has a cycle, which
    [dijkstra_heap] never produces on non-negative weights) and [target]
    is in the set, the loop [while cur is not None] never ends: whatever
    the number of iterations allowed, [reconstruct_path] has not
    returned. *)
Theorem reconstruct_path_on_a_cycle_never_returns
    (prev : gmap string (option string)) (X : gset string)
    (start target : string) (fuel : nat) :
  (∀ x, x ∈ X → ∃ y, prev !! x = Some (Some y) ∧ y ∈ X) →
  target ∈ X →
  reconstruct_path fuel prev start target = None.
Proof.
  intros Hcycle Htarget. unfold reconstruct_path.
  destruct (Hcycle target Htarget) as (y & -> & Hy).
  rewrite bool_decide_eq_false_2 by done. simpl.
  by rewrite (walk_back_cycle prev X Hcycle fuel target []).
Qed.

Lemma reconstruct_path_on_a_cycle_never_returns_witness :
  reconstruct_path 1000 {["a" := Some "b"; "b" := Some "a"]} "s" "a" = None.
Proof.
  apply (reconstruct_path_on_a_cycle_never_returns
           {["a" := Some "b"; "b" := Some "a"]} {["a"; "b"]} "s" "a" 1000).
  - intros x [->%elem_of_singleton| ->%elem_of_singleton]%elem_of_union.
    + exists "b". split; [vm_compute; reflexivity|].
      apply elem_of_union. right. by apply elem_of_singleton.
    + exists "a". split; [vm_compute; reflexivity|].
      apply elem_of_union. left. by apply elem_of_singleton.
  - apply elem_of_union. left. by apply elem_of_singleton.
Defined.
(** ** [create_distance_matrix] on any dictionary of lengths *)

Lemma expected_cell_length_of all_lengths s t :
  s ≠ t →
  expected_cell all_lengths s t
  = length_of all_lengths (s, t) ≫=
      (λ d, match float64 d with
            | Ret f => Some (Val (Fin f))
            | Raise _ => None
            end).
Proof.
  intros Hne. unfold expected_cell, length_of. simpl.
  rewrite decide_False by done.
  destruct (all_lengths !! s) as [ls|]; [|done]. simpl.
  by destruct (ls !! t).
Qed.

(** A check of [lengths_in_float64_range] that computes. *)
Lemma lengths_in_float64_range_check nodes
    (all_lengths : gmap string (gmap string Z)) :
  forallb (λ p : string * gmap string Z,
             forallb (λ e : string * Z, Z.abs e.2 <=? float64_max)
                     (map_to_list p.2))
          (map_to_list all_lengths) = true →
  lengths_in_float64_range nodes all_lengths.
Proof.
  intros Hcheck s t ls d _ _ _ Hls Hd.
  rewrite forallb_forall in Hcheck.
  apply elem_of_map_to_list, list_elem_of_In, Hcheck in Hls. simpl in Hls.
  rewrite forallb_forall in Hls.
  apply elem_of_map_to_list, list_elem_of_In, Hls in Hd. simpl in Hd. lia.
Qed.

(** X17: [create_distance_matrix] takes any dictionary [all_lengths] whose
    entries for distinct nodes lie in the range of float64.  When
    [all_lengths[s][t]] exists for all distinct nodes [s] and [t], it
    returns a table whose cells are the pairs of nodes, none of them left
    at [NaN]: the diagonal holds 0, whatever [all_lengths[s][s]] is (it is
    never read), and the cell [(s, t)] holds the float64 of
    [all_lengths[s][t]], which is the entry itself up to [2^53] in absolute
    value and is off by one part in [2^53] at most beyond.  When an entry
    is missing for some pair of distinct nodes, it raises [KeyError]. *)
Theorem create_distance_matrix_of_any_lengths (G : nxGraph)
    (all_lengths : gmap string (gmap string Z)) :
  lengths_in_float64_range (nx_nodes G) all_lengths →
  ((∀ s t, s ∈ nx_nodes G → t ∈ nx_nodes G → s ≠ t →
           is_Some (length_of all_lengths (s, t))) →
   ∃ M, create_distance_matrix G all_lengths = Ret M ∧
     (∀ s t, is_Some (M !! (s, t)) ↔ s ∈ nx_nodes G ∧ t ∈ nx_nodes G) ∧
     (∀ s t, M !! (s, t) ≠ Some NaN) ∧
     (∀ s, s ∈ nx_nodes G → M !! (s, s) = Some (Val (Fin 0))) ∧
     (∀ s t, s ∈ nx_nodes G → t ∈ nx_nodes G → s ≠ t →
        ∃ d f, length_of all_lengths (s, t) = Some d ∧
               float64 d = Ret f ∧
               M !! (s, t) = Some (Val (Fin f)) ∧
               (Z.abs d ≤ 2 ^ 53 → f = d) ∧
               Z.abs (f - d) * 2 ^ 53 ≤ Z.abs d)) ∧
  (∀ s t, s ∈ nx_nodes G → t ∈ nx_nodes G → s ≠ t →
     length_of all_lengths (s, t) = None →
     ∃ k, create_distance_matrix G all_lengths = Raise (KeyError k)).
Proof.
  intros Hrange. split.
  - intros Hall.
    assert (∀ s t, s ∈ nx_nodes G → t ∈ nx_nodes G → s ≠ t →
              ∃ d f, length_of all_lengths (s, t) = Some d ∧
                     float64 d = Ret f ∧
                     expected_cell all_lengths s t = Some (Val (Fin f)))
      as Hoff.
    { intros s t Hs Ht Hne. destruct (Hall s t Hs Ht Hne) as [d Hd].
      destruct (float64_in_range d) as [f Hf].
      { unfold length_of in Hd. simpl in Hd.
        destruct (all_lengths !! s) as [ls|] eqn:Hls; [|done].
        by apply (Hrange s t ls d). }
      exists d, f. split; [done|]. split; [done|].
      rewrite expected_cell_length_of, Hd by done. simpl. by rewrite Hf. }
    assert (∀ s t, s ∈ nx_nodes G → t ∈ nx_nodes G →
              ∃ f, expected_cell all_lengths s t = Some (Val (Fin f)))
      as Hcell.
    { intros s t Hs Ht. destruct (decide (s = t)) as [->|Hne].
      - exists 0. unfold expected_cell. by rewrite decide_True.
      - destruct (Hoff s t Hs Ht Hne) as (d & f & _ & _ & ?). by exists f. }
    destruct (create_distance_matrix_filled G all_lengths) as (M & Hrun & HM).
    { intros s t Hs Ht. destruct (Hcell s t Hs Ht) as [d ->]. by eexists. }
    exists M. split; [done|]. split; [|split; [|split]].
    + intros s t. rewrite HM. case_decide as Hin; [|split; [by intros []|done]].
      destruct Hin as [Hs Ht]. destruct (Hcell s t Hs Ht) as [d ->].
      split; [done|by eexists].
    + intros s t. rewrite HM. case_decide as Hin; [|done].
      destruct Hin as [Hs Ht]. by destruct (Hcell s t Hs Ht) as [d ->].
    + intros s Hs. rewrite HM, decide_True by done.
      unfold expected_cell. by rewrite decide_True.
    + intros s t Hs Ht Hne.
      destruct (Hoff s t Hs Ht Hne) as (d & f & Hd & Hf & Hc).
      exists d, f. split; [done|]. split; [done|].
      rewrite HM, decide_True by done. split; [done|]. split.
      * intros Hle. rewrite float64_exact in Hf by done. by injection Hf.
      * by apply float64_near.
  - intros s t Hs Ht Hne Hnone.
    apply (create_distance_matrix_raises _ _ s t Hrange Hs Ht).
    by rewrite expected_cell_length_of, Hnone.
Qed.

Lemma create_distance_matrix_of_any_lengths_witness :
  ∃ M,
    create_distance_matrix (nx_build [AddEdge "a" "b" 2])
      {["a" := {["a" := 7; "b" := 2 ^ 53 + 1]}; "b" := {["a" := 2]}]}
      = Ret M ∧
    M !! ("a", "a") = Some (Val (Fin 0)) ∧
    ∃ d f,
      length_of {["a" := {["a" := 7; "b" := 2 ^ 53 + 1]}; "b" := {["a" := 2]}]}
        ("a", "b") = Some d ∧
      float64 d = Ret f ∧
      M !! ("a", "b") = Some (Val (Fin f)) ∧
      (Z.abs d ≤ 2 ^ 53 → f = d) ∧
      Z.abs (f - d) * 2 ^ 53 ≤ Z.abs d.
Proof.
  assert (nx_nodes (nx_build [AddEdge "a" "b" 2]) = ["a"; "b"]) as Hnodes
    by (vm_compute; reflexivity).
  destruct (create_distance_matrix_of_any_lengths
              (nx_build [AddEdge "a" "b" 2])
              {["a" := {["a" := 7; "b" := 2 ^ 53 + 1]}; "b" := {["a" := 2]}]})
    as [Hcomplete _].
  - apply lengths_in_float64_range_check. vm_compute. reflexivity.
  - destruct Hcomplete as (M & Hrun & _ & _ & Hdiag & Hoff).
    + rewrite Hnodes. intros s t Hs Ht Hne.
      repeat (apply elem_of_cons in Hs as [->|Hs]);
        try (by apply elem_of_nil in Hs);
        repeat (apply elem_of_cons in Ht as [->|Ht]);
        try (by apply elem_of_nil in Ht);
        try done; vm_compute; eauto.
    + exists M. split; [exact Hrun|]. split.
      * apply Hdiag. apply nx_nodes_spec. vm_compute. eauto.
      * apply Hoff; [apply nx_nodes_spec; vm_compute; eauto..|done].
Defined.
(** ** Lazy deletion: every vertex is expanded once, in distance order *)

(** The record of the expansions does not change what the loop computes. *)
Lemma dijkstra_loop_traced_erase g fuel :
  ∀ st expanded,
    dijkstra_loop fuel g st
    = match dijkstra_loop_traced fuel g st expanded with
      | None => None
      | Some (Raise e) => Some (Raise e)
      | Some (Ret (st', _)) => Some (Ret st')
      end.
Proof.
  induction fuel as [|fuel IH]; intros st expanded; simpl; [done|].
  destruct (heappop (heap st)) as [[[d u] h]|]; [|done].
  destruct (dijkstra_step g st d u h) as [st1|e]; [|done].
  apply IH.
Qed.

Lemma relax_cases u d st v w st' :
  relax u d st (v, w) = Ret st' →
  st' = st ∨
  ∃ old, dist st !! v = Some old ∧ Dist_ltb (Fin (d + w)) old = true ∧
         st' = {| dist := <[v := Fin (d + w)]> (dist st);
                  prev := <[v := Some u]> (prev st);
                  heap := (d + w, v) :: heap st |}.
Proof.
  unfold relax. destruct (dist st !! v) as [old|] eqn:Hv; [|done].
  destruct (Dist_ltb (Fin (d + w)) old) eqn:Hlt; intros [= <-].
  - right. by exists old.
  - by left.
Qed.

Lemma filter_eq_length_0 (x : Z * string) (l : list (Z * string)) :
  x ∉ l → length (filter (λ y, y = x) l) = 0%nat.
Proof.
  induction l as [|y l IH]; intros Hx; [done|].
  apply not_elem_of_cons in Hx as [Hne Hx].
  rewrite filter_cons_False by done. by apply IH.
Qed.

Lemma filter_eq_length_pos (x : Z * string) (l : list (Z * string)) :
  x ∈ l → (1 ≤ length (filter (λ y, y = x) l))%nat.
Proof.
  induction l as [|y l IH]; intros Hx; [by apply elem_of_nil in Hx|].
  destruct (decide (y = x)) as [->|Hne].
  - rewrite filter_cons_True by done. simpl. lia.
  - rewrite filter_cons_False by done.
    apply elem_of_cons in Hx as [->|Hx]; [done|]. by apply IH.
Qed.

Section expansions.

Context (g : Graph) (start : string).
Hypothesis Hcl : graph_closed g.
Hypothesis Hnn : nonneg_weights g.

(** One execution of the body of the [for] loop: an expanded vertex is
    not relaxed again. *)
Lemma relax_sinv st u du expanded e todo st' :
  Inv g start st (u :: reverse expanded) (e :: todo) →
  SInv start st (expanded ++ [u]) →
  dist st !! u = Some (Fin du) →
  relax u du st e = Ret st' →
  SInv start st' (expanded ++ [u]).
Proof.
  intros HI [Hstale Honce Hsorted Hfirst] Hu Hrelax. destruct e as [v w].
  apply relax_cases in Hrelax as [->|(old & Hv & Hlt & ->)]; [done|].
  assert (v ∉ expanded ++ [u]) as Hnew.
  { intros Hin.
    assert (v ∈ u :: reverse expanded) as Hdone.
    { apply elem_of_app in Hin as [Hin| ->%list_elem_of_singleton];
        [right; by apply elem_of_reverse|by left]. }
    destruct (inv_done _ _ _ _ _ HI v Hdone) as (dv & Hdv & _).
    pose proof (inv_mono _ _ _ _ _ HI u du v dv eq_refl Hu Hdone Hdv) as Hle.
    destruct (inv_todo _ _ _ _ _ HI (v, w)) as (u' & [= <-] & Hin');
      [by left|].
    pose proof (Hnn _ _ _ Hin') as Hw.
    rewrite Hv in Hdv. injection Hdv as ->. simpl in Hlt.
    apply Z.ltb_lt in Hlt. lia. }
  assert ((du + w, v) ∉ heap st) as Hfresh.
  { intros Hin. destruct (inv_heap _ _ _ _ _ HI _ _ Hin) as (d' & Hd' & Hle).
    rewrite Hv in Hd'. injection Hd' as ->. simpl in Hlt.
    apply Z.ltb_lt in Hlt. lia. }
  constructor; simpl.
  - intros d x [[= -> ->]|Hin]%elem_of_cons Hx; [done|].
    destruct (Hstale d x Hin Hx) as (dx & Hdx & ?). exists dx.
    rewrite lookup_insert_ne; [done|]. by intros ->.
  - intros x dx Hx Hxe. destruct (decide (x = v)) as [->|Hne].
    + rewrite lookup_insert_eq in Hx. injection Hx as <-.
      rewrite filter_cons_True by done. simpl.
      rewrite filter_eq_length_0 by done. lia.
    + rewrite lookup_insert_ne in Hx by done.
      rewrite filter_cons_False by (intros [= _ ?]; done).
      by apply Honce.
  - intros i j x y Hij Hx Hy.
    destruct (Hsorted i j x y Hij Hx Hy) as (dx & dy & Hdx & Hdy & ?).
    exists dx, dy.
    rewrite !lookup_insert_ne; [done|..].
    + intros <-. apply Hnew. by eapply list_elem_of_lookup_2.
    + intros <-. apply Hnew. by eapply list_elem_of_lookup_2.
  - done.
Qed.

Lemma for_each_relax_sinv u du expanded todo :
  ∀ st, Inv g start st (u :: reverse expanded) todo →
  SInv start st (expanded ++ [u]) →
  dist st !! u = Some (Fin du) →
  ∃ st', for_each (relax u du) todo st = Ret st' ∧
    Inv g start st' (u :: reverse expanded) [] ∧
    SInv start st' (expanded ++ [u]) ∧
    (length (heap st') ≤ length (heap st) + length todo)%nat.
Proof.
  induction todo as [|e todo IH]; intros st HI HS Hu.
  - exists st. simpl. split; [done|]. split; [done|]. split; [done|lia].
  - destruct (relax_inv g start Hcl Hnn _ _ _ _ _ _ HI Hu)
      as (st1 & Hrelax & HI1 & Hu1 & Hlen1).
    pose proof (relax_sinv _ _ _ _ _ _ _ HI HS Hu Hrelax) as HS1.
    destruct (IH st1 HI1 HS1 Hu1) as (st2 & Hrest & HI2 & HS2 & Hlen2).
    exists st2. cbn [for_each]. rewrite Hrelax.
    split; [done|]. split; [done|]. split; [done|simpl; lia].
Qed.

(** One iteration of [while heap]. *)
Lemma dijkstra_step_sinv st expanded d u h :
  Inv g start st (reverse expanded) [] →
  SInv start st expanded →
  heappop (heap st) = Some ((d, u), h) →
  ∃ st',
    dijkstra_step g st d u h = Ret st' ∧
    Inv g start st'
      (reverse (if is_stale st d u then expanded else expanded ++ [u])) [] ∧
    SInv start st' (if is_stale st d u then expanded else expanded ++ [u]) ∧
    (length (heap st')
       + budget g (reverse (if is_stale st d u then expanded
                            else expanded ++ [u]))
     < length (heap st) + budget g (reverse expanded))%nat.
Proof.
  intros HI HS Hpop. pose proof HS as [Hstale Honce Hsorted Hfirst].
  apply heappop_spec in Hpop as [Hperm Hmin].
  assert (length (heap st) = S (length h)) as Hlen by (by rewrite Hperm).
  assert ((d, u) ∈ heap st) as Hpopped by (rewrite Hperm; by left).
  assert (∀ x, x ∈ h → x ∈ heap st) as Hsub.
  { intros x Hx. rewrite Hperm. by right. }
  assert (∀ x, (length (filter (λ y, y = x) h)
                ≤ length (filter (λ y, y = x) (heap st)))%nat) as Hcount.
  { intros x. rewrite Hperm. destruct (decide ((d, u) = x)) as [->|Hne].
    - rewrite filter_cons_True by done. simpl. lia.
    - by rewrite filter_cons_False by done. }
  destruct (inv_heap _ _ _ _ _ HI d u Hpopped) as (du & Hdu & Hle).
  unfold dijkstra_step, is_stale. rewrite Hdu. simpl.
  destruct (du <? d) eqn:Hlt.
  - apply Z.ltb_lt in Hlt. eexists. split; [done|]. split; [|split].
    + eapply Inv_pop_skip; eauto.
    + constructor; simpl; try done.
      * intros d' x Hx. by apply Hstale, Hsub.
      * intros x dx Hx Hxe. etrans; [apply Hcount|by apply Honce].
    + simpl. lia.
  - apply Z.ltb_ge in Hlt. assert (du = d) as -> by lia.
    assert (u ∉ expanded) as Hnew.
    { intros Hin. destruct (Hstale d u Hpopped Hin) as (du & Hdu' & ?).
      rewrite Hdu in Hdu'. injection Hdu' as <-. lia. }
    assert (is_Some (adjacency_list g !! u)) as [es Hes].
    { apply elem_of_dom. rewrite <- (inv_dom_dist _ _ _ _ _ HI).
      apply elem_of_dom. eauto. }
    rewrite Hes. pose proof (edges_of_Some _ _ _ Hes) as Hes'.
    assert (Inv g start {| dist := dist st; prev := prev st; heap := h |}
              (u :: reverse expanded) (edges_of g u)) as HI1.
    { eapply Inv_pop_new; eauto. by rewrite elem_of_reverse. }
    assert (SInv start {| dist := dist st; prev := prev st; heap := h |}
              (expanded ++ [u])) as HS1.
    { constructor; simpl.
      - intros d' x Hx [Hxe| ->%list_elem_of_singleton]%elem_of_app.
        + by apply Hstale; [apply Hsub|].
        + exists d. split; [done|].
          destruct (inv_heap _ _ _ _ _ HI d' u (Hsub _ Hx)) as (d0 & Hd0 & ?).
          rewrite Hdu in Hd0. injection Hd0 as <-.
          destruct (decide (d = d')) as [<-|]; [|lia]. exfalso.
          pose proof (Honce u d Hdu Hnew) as Hone.
          rewrite Hperm in Hone. rewrite filter_cons_True in Hone by done.
          pose proof (filter_eq_length_pos _ _ Hx). simpl in Hone. lia.
      - intros x dx Hx Hxe. etrans; [apply Hcount|]. apply Honce; [done|].
        intros Hin. apply Hxe, elem_of_app. by left.
      - intros i j x y Hij Hx Hy.
        assert (∀ k z, (expanded ++ [u]) !! k = Some z →
                  (k < length expanded)%nat ∧ expanded !! k = Some z ∨
                  k = length expanded ∧ z = u) as Hcases.
        { intros k z Hk. apply lookup_app_Some in Hk as [Hk|[Hge Hk]].
          - left. split; [by eapply lookup_lt_Some|done].
          - right. apply list_lookup_singleton_Some in Hk as [Hk ->].
            split; [lia|done]. }
        destruct (Hcases _ _ Hx) as [[Hi Hx']|[-> ->]];
          destruct (Hcases _ _ Hy) as [[Hj Hy']|[-> ->]].
        + apply (Hsorted i j x y Hij Hx' Hy').
        + assert (x ∈ reverse expanded) as Hxd.
          { apply elem_of_reverse. by eapply list_elem_of_lookup_2. }
          destruct (inv_done _ _ _ _ _ HI x Hxd) as (dx & Hdx & Hheap & _).
          exists dx, d. split; [done|]. split; [done|].
          by apply (Hheap d u).
        + lia.
        + exists d, d. split; [done|]. split; [done|lia].
      - intros x. destruct expanded as [|x0 expanded'] eqn:He; simpl.
        + intros [= <-]. destruct (decide (u = start)) as [|Hne]; [done|].
          destruct (inv_prev_fin _ _ _ _ _ HI u d Hdu Hne)
            as (u' & w & du' & _ & Hin & _).
          by apply elem_of_nil in Hin.
        + intros [= <-]. by apply Hfirst. }
    destruct (for_each_relax_sinv u d expanded (edges_of g u) _ HI1 HS1)
      as (st' & Hfor & HI' & HS' & Hlen'); [done|].
    exists st'. rewrite <- Hes'. split; [done|].
    rewrite reverse_snoc. split; [done|]. split; [done|].
    simpl in Hlen'.
    assert (u ∈ vertices g) as Huv.
    { unfold vertices. apply elem_of_elements, elem_of_dom. eauto. }
    assert (u ∉ reverse expanded) as Hnew' by (by rewrite elem_of_reverse).
    pose proof (budget_cons g (reverse expanded) u Huv Hnew'). lia.
Qed.

(** The main loop with its record. *)
Lemma dijkstra_loop_traced_inv :
  ∀ fuel st expanded,
    Inv g start st (reverse expanded) [] →
    SInv start st expanded →
    (length (heap st) + budget g (reverse expanded) < fuel)%nat →
    ∃ st' expanded',
      dijkstra_loop_traced fuel g st expanded = Some (Ret (st', expanded')) ∧
      Inv g start st' (reverse expanded') [] ∧
      SInv start st' expanded' ∧ heap st' = [].
Proof.
  induction fuel as [|fuel IH]; intros st expanded HI HS Hfuel; [lia|].
  simpl. destruct (heappop (heap st)) as [[[d u] h]|] eqn:Hpop.
  - destruct (dijkstra_step_sinv _ _ _ _ _ HI HS Hpop)
      as (st1 & Hstep & HI1 & HS1 & Hdec).
    rewrite Hstep. apply IH; [done..|lia].
  - apply heappop_None in Hpop. by exists st, expanded.
Qed.

End expansions.

Lemma dijkstra_init_sinv g start : SInv start (dijkstra_init g start) [].
Proof.
  constructor; simpl.
  - by intros d u _ ?%elem_of_nil.
  - intros u du _ _. destruct (decide ((0, start) = (du, u))).
    + by rewrite filter_cons_True.
    + rewrite filter_cons_False by done. simpl. lia.
  - intros i j u v _ Hu. by rewrite lookup_nil in Hu.
  - done.
Qed.

(** X18: On a graph built with [add_edge] with non-negative weights, the
    lazy-deletion test lets through exactly one heap entry for each vertex
    that can be reached from [start]: the adjacency list of every such
    vertex is scanned once, and of no other vertex; [start] is scanned
    first and the vertices are scanned in the order of their final
    distances.  The record of the scans does not change the result. *)
Theorem dijkstra_heap_expands_each_vertex_once (calls : list edge_call)
    (start : string) (fuel : nat) :
  nonneg_weights (build_graph calls) →
  start ∈ vertices (build_graph calls) →
  (dijkstra_fuel (build_graph calls) ≤ fuel)%nat →
  ∃ st expanded,
    dijkstra_loop_traced fuel (build_graph calls)
      (dijkstra_init (build_graph calls) start) []
      = Some (Ret (st, expanded)) ∧
    dijkstra_heap fuel (build_graph calls) start
      = Some (Ret (dist st, prev st)) ∧
    NoDup expanded ∧ head expanded = Some start ∧
    (∀ v, v ∈ expanded ↔ reachable (build_graph calls) start v) ∧
    ∀ i j u v, (i ≤ j)%nat →
      expanded !! i = Some u → expanded !! j = Some v →
      ∃ du dv, dist st !! u = Some (Fin du) ∧ dist st !! v = Some (Fin dv) ∧
               du ≤ dv.
Proof.
  intros Hnn Hstart%vertices_spec Hfuel.
  destruct (dijkstra_loop_traced_inv _ start (build_graph_closed calls) Hnn
              fuel (dijkstra_init (build_graph calls) start) [])
    as (st & expanded & Hrun & HI & HS & Hheap).
  { by apply dijkstra_init_inv. }
  { apply dijkstra_init_sinv. }
  { rewrite reverse_nil, budget_nil. unfold dijkstra_fuel in Hfuel.
    simpl. lia. }
  exists st, expanded. split; [done|].
  assert (∀ v, v ∈ expanded ↔ reachable (build_graph calls) start v) as Hall.
  { intros v. split.
    - intros Hv%elem_of_reverse.
      destruct (inv_done _ _ _ _ _ HI v Hv) as (dv & Hdv & _).
      exists dv. by apply (inv_walk _ _ _ _ _ HI).
    - intros [d Hd].
      destruct (Inv_final_lower _ _ _ _ _ _ HI Hheap Hd) as (dv & Hdv & _).
      destruct (inv_open _ _ _ _ _ HI v dv Hdv) as [?|Hin];
        [by apply elem_of_reverse|].
      rewrite Hheap in Hin. by apply elem_of_nil in Hin. }
  split; [|split; [|split; [|split; [done|]]]].
  - unfold dijkstra_heap.
    rewrite (dijkstra_loop_traced_erase _ fuel _ []). by rewrite Hrun.
  - pose proof (inv_nodup _ _ _ _ _ HI) as Hnd.
    by rewrite reverse_Permutation in Hnd.
  - assert (start ∈ expanded) as Hin by (apply Hall; exists 0; constructor).
    pose proof (s_first _ _ _ HS) as Hfirst.
    destruct expanded as [|x l]; [by apply elem_of_nil in Hin|].
    simpl. f_equal. by apply Hfirst.
  - apply (s_sorted _ _ _ HS).
Qed.

Lemma dijkstra_heap_expands_each_vertex_once_witness :
  ∃ st expanded,
    dijkstra_loop_traced 10
      (build_graph [EdgeCall "a" "b" 4 true; EdgeCall "b" "c" 1 true;
                    EdgeCall "a" "c" 2 true])
      (dijkstra_init
         (build_graph [EdgeCall "a" "b" 4 true; EdgeCall "b" "c" 1 true;
                       EdgeCall "a" "c" 2 true]) "a") []
      = Some (Ret (st, expanded)) ∧
    NoDup expanded ∧ head expanded = Some "a".
Proof.
  destruct (dijkstra_heap_expands_each_vertex_once
              [EdgeCall "a" "b" 4 true; EdgeCall "b" "c" 1 true;
               EdgeCall "a" "c" 2 true] "a" 10)
    as (st & expanded & Hrun & _ & Hnd & Hhd & _).
  - apply nonneg_weights_check. vm_compute. reflexivity.
  - apply vertices_check. vm_compute. reflexivity.
  - vm_compute. lia.
  - exists st, expanded. split; [exact Hrun|]. split; [exact Hnd|exact Hhd].
Defined.
(** ** [bfs_path] visits the vertices in the order of their hop distance *)

(** The [for] loop appends the new paths to the queue and to the record
    of the enqueued paths. *)
Lemma bfs_for_lev p L todo :
  length p = S L →
  ∀ st enq, BLev st enq L →
  ∃ new,
    BLev (foldl (bfs_neighbor p) st todo) (enq ++ new) L ∧
    bfs_queue (foldl (bfs_neighbor p) st todo) = bfs_queue st ++ new.
Proof.
  intros Hp. induction todo as [|v todo IH]; intros st enq HL.
  - exists []. simpl. by rewrite !app_nil_r.
  - simpl. unfold bfs_neighbor at 2 4.
    destruct (decide (v ∈ bfs_visited st)) as [Hv|Hv]; [by apply IH|].
    destruct HL as [Hord (pre & Hpre) Hbound Hsorted].
    destruct (IH {| bfs_visited := bfs_visited st ∪ {[v]};
                    bfs_queue := bfs_queue st ++ [p ++ [v]];
                    bfs_visited_order := bfs_visited_order st ++ [v] |}
                 (enq ++ [p ++ [v]])) as (new & HL' & Hq').
    { constructor; simpl.
      - rewrite Hord. symmetry. apply lasts_snoc, last_snoc.
      - exists pre. by rewrite Hpre, app_assoc.
      - intros q [Hq| ->%list_elem_of_singleton]%elem_of_app; [by apply Hbound|].
        rewrite length_app. simpl. lia.
      - intros i j q1 q2 Hij H1 H2.
        apply lookup_app_Some in H2 as [H2|[Hge H2]].
        + assert (enq !! i = Some q1) as H1'.
          { apply lookup_app_Some in H1 as [?|[Hge _]]; [done|].
            apply lookup_lt_Some in H2. lia. }
          by eapply Hsorted.
        + apply list_lookup_singleton_Some in H2 as [_ <-].
          rewrite length_app. simpl.
          apply lookup_app_Some in H1 as [H1|[_ H1]].
          * apply list_elem_of_lookup_2, Hbound in H1. lia.
          * apply list_lookup_singleton_Some in H1 as [_ <-].
            rewrite length_app. simpl. lia. }
    exists ([p ++ [v]] ++ new). simpl in Hq'.
    rewrite app_assoc. split; [done|]. by rewrite Hq', <- app_assoc.
Qed.

Lemma lasts_lookup (enq : list (list string)) :
  (∀ q, q ∈ enq → is_Some (last q)) →
  ∀ i x, lasts enq !! i = Some x →
    ∃ q, enq !! i = Some q ∧ last q = Some x.
Proof.
  induction enq as [|q enq IH]; intros Hall i x Hx; [done|].
  destruct (Hall q) as [y Hy]; [by left|].
  unfold lasts in Hx. simpl in Hx. rewrite Hy in Hx.
  destruct i as [|i]; simpl in Hx.
  - injection Hx as ->. by exists q.
  - apply IH; [|done]. intros q' Hq'. apply Hall. by right.
Qed.

(** The main loop: the visit order is the list of the last vertices of
    paths that are as short as can be and are listed by increasing
    length. *)
Lemma bfs_loop_levels G start goal fuel :
  ∀ st deq L enq res order deq',
    BInv G start st deq [] L → BLev st enq L →
    (∀ q, q ∈ enq →
       ∃ x, path_from_to G start x q ∧
            ∀ n, nx_walk G start x n → (length q ≤ S n)%nat) →
    bfs_loop fuel G goal st deq = Some (Ret (res, order, deq')) →
    ∃ enq' L',
      order = lasts enq' ∧
      (∀ i j p q, (i ≤ j)%nat → enq' !! i = Some p → enq' !! j = Some q →
                  (length p ≤ length q)%nat) ∧
      (∀ q, q ∈ enq' →
         ∃ x, path_from_to G start x q ∧
              ∀ n, nx_walk G start x n → (length q ≤ S n)%nat) ∧
      (∀ q, q ∈ enq' → (length q ≤ S (S L'))%nat).
Proof.
  induction fuel as [|fuel IH]; intros st deq L enq res order deq' HI HL Hmin;
    [done|].
  simpl. destruct (bfs_queue st) as [|p rest] eqn:Hq.
  - intros [= <- <- <-]. exists enq, L.
    split; [apply (bl_order _ _ _ HL)|].
    split; [apply (bl_sorted _ _ _ HL)|]. split; [done|].
    apply (bl_bound _ _ _ HL).
  - destruct (b_paths _ _ _ _ _ _ HI p) as (u & Hp & _); [rewrite Hq; by left|].
    pose proof Hp as (_ & _ & Hlast). rewrite Hlast.
    destruct (decide (u = goal)) as [->|Hne].
    + intros [= <- <- <-]. exists enq, L.
      split; [apply (bl_order _ _ _ HL)|].
      split; [apply (bl_sorted _ _ _ HL)|]. split; [done|].
      apply (bl_bound _ _ _ HL).
    + destruct (neighbors G u) as [ns|e] eqn:Hns; [|done].
      destruct (bfs_pop_inv G start _ _ _ _ _ _ _ HI Hq Hlast Hns)
        as (L' & HI1 & Hlen & Hp' & Hnd & Hpv).
      assert (L ≤ L')%nat as HLL.
      { destruct (b_levels _ _ _ _ _ _ HI) as (A & B & HAB & HA & HB).
        assert (p ∈ A ++ B) as Hin by (rewrite <- HAB, Hq; by left).
        apply elem_of_app in Hin as [Hin|Hin].
        - apply HA in Hin. lia.
        - apply HB in Hin. lia. }
      assert (BLev {| bfs_visited := bfs_visited st; bfs_queue := rest;
                      bfs_visited_order := bfs_visited_order st |} enq L')
        as HL1.
      { destruct HL as [Hord (pre & Hpre) Hbound Hsorted].
        constructor; simpl; try done.
        - exists (pre ++ [p]). by rewrite Hpre, Hq, <- app_assoc.
        - intros q Hin. apply Hbound in Hin. lia. }
      destruct (bfs_for_lev p L' (sorted ns) Hlen _ _ HL1)
        as (new & HL2 & Hq2).
      assert (BInv G start
                (foldl (bfs_neighbor p)
                   {| bfs_visited := bfs_visited st; bfs_queue := rest;
                      bfs_visited_order := bfs_visited_order st |}
                   (sorted ns)) (deq ++ [u]) [] L') as HI2.
      { apply bfs_for_inv; try done.
        intros v Hv. apply (neighbors_spec _ _ _ _ Hns).
        by apply elem_of_sorted. }
      apply (IH _ _ L' (enq ++ new)); [done|done|].
      intros q [Hin|Hin]%elem_of_app; [by apply Hmin|].
      destruct (b_paths _ _ _ _ _ _ HI2 q) as (x & Hx & _ & _ & Hxmin).
      { rewrite Hq2. simpl. apply elem_of_app. by right. }
      by exists x.
Qed.

(** Whenever [bfs_path] returns, on any graph. *)
Lemma bfs_path_order_by_hop_distance (G : nxGraph) (start goal : string)
    (fuel : nat) (res : option (list string)) (order : list string) :
  bfs_path fuel G start goal = Some (Ret (res, order)) →
  ∀ i j x y, (i ≤ j)%nat → order !! i = Some x → order !! j = Some y →
    ∃ n m, hop_distance G start x n ∧ hop_distance G start y m ∧ (n ≤ m)%nat.
Proof.
  unfold bfs_path, bfs_path_traced.
  destruct (bfs_loop fuel G goal (bfs_init start) [])
    as [[[[res' order'] deq]|e]|] eqn:Hrun; [|done..].
  intros [= <- <-].
  assert (BLev (bfs_init start) [[start]] 0) as HL0.
  { constructor; simpl.
    - done.
    - by exists [].
    - intros q ->%list_elem_of_singleton. simpl. lia.
    - intros i j p q _ Hp Hq.
      apply list_lookup_singleton_Some in Hp as [_ <-].
      by apply list_lookup_singleton_Some in Hq as [_ <-]. }
  assert (∀ q, q ∈ [[start]] →
            ∃ x, path_from_to G start x q ∧
                 ∀ n, nx_walk G start x n → (length q ≤ S n)%nat) as Hmin0.
  { intros q ->%list_elem_of_singleton. exists start.
    split; [done|]. intros n _. simpl. lia. }
  destruct (bfs_loop_levels G start goal fuel _ _ 0%nat [[start]] _ _ _
              (bfs_init_inv G start) HL0 Hmin0 Hrun)
    as (enq & L & Hord & Hsorted & Hmin & _).
  assert (∀ q x, q ∈ enq → last q = Some x →
            hop_distance G start x (hops q)) as Hhop.
  { intros q x Hq Hx. destruct (Hmin q Hq) as (x' & Hpath & Hle).
    assert (x' = x) as ->.
    { destruct Hpath as (_ & _ & Hl). rewrite Hx in Hl. by injection Hl. }
    split; [by apply path_from_to_nx_walk|].
    intros k Hk. specialize (Hle k Hk). unfold hops. lia. }
  assert (∀ q, q ∈ enq → is_Some (last q)) as Hlast.
  { intros q Hq. destruct (Hmin q Hq) as (x & (_ & _ & Hl) & _). eauto. }
  intros i j x y Hij Hx Hy. rewrite Hord in Hx, Hy.
  destruct (lasts_lookup enq Hlast i x Hx) as (p & Hp & Hpx).
  destruct (lasts_lookup enq Hlast j y Hy) as (q & Hq & Hqy).
  exists (hops p), (hops q).
  split; [apply Hhop; [by eapply list_elem_of_lookup_2|done]|].
  split; [apply Hhop; [by eapply list_elem_of_lookup_2|done]|].
  pose proof (Hsorted i j p q Hij Hp Hq). unfold hops. lia.
Qed.


(** X19: From every node [start] of a NetworkX graph, [bfs_path] returns a
    visit order that lists only vertices that have a hop distance from
    [start], and lists them by non-decreasing hop distance: a vertex is
    never visited before a vertex that is closer to [start]. *)
Theorem bfs_path_visits_by_hop_distance (ops : list nx_op)
    (start goal : string) (fuel : nat) :
  start ∈ nx_nodes (nx_build ops) →
  (bfs_fuel (nx_build ops) ≤ fuel)%nat →
  ∃ res order,
    bfs_path fuel (nx_build ops) start goal = Some (Ret (res, order)) ∧
    ∀ i j x y, (i ≤ j)%nat → order !! i = Some x → order !! j = Some y →
      ∃ n m, hop_distance (nx_build ops) start x n ∧
             hop_distance (nx_build ops) start y m ∧ (n ≤ m)%nat.
Proof.
  intros Hstart%nx_nodes_spec Hfuel.
  destruct (bfs_path_traced_returns ops start goal fuel)
    as (res & order & deq & Hrun); [by left|done|].
  exists res, order.
  pose proof (bfs_path_unfold _ _ _ _ _ _ _ Hrun) as Hret.
  split; [done|]. by eapply bfs_path_order_by_hop_distance.
Qed.

Lemma bfs_path_visits_by_hop_distance_witness :
  ∃ res order,
    bfs_path 10 (nx_build [AddEdge "a" "b" 1; AddEdge "b" "c" 1]) "a" "z"
      = Some (Ret (res, order)) ∧
    ∀ i j x y, (i ≤ j)%nat → order !! i = Some x → order !! j = Some y →
      ∃ n m,
        hop_distance (nx_build [AddEdge "a" "b" 1; AddEdge "b" "c" 1])
          "a" x n ∧
        hop_distance (nx_build [AddEdge "a" "b" 1; AddEdge "b" "c" 1])
          "a" y m ∧ (n ≤ m)%nat.
Proof.
  apply (bfs_path_visits_by_hop_distance
           [AddEdge "a" "b" 1; AddEdge "b" "c" 1] "a" "z" 10).
  - apply nx_nodes_spec. vm_compute. eauto.
  - vm_compute. lia.
Defined.
(** ** [dfs_path] goes to the least unvisited neighbour first *)

Lemma ltb_irrefl a : String.ltb a a = false.
Proof.
  unfold String.ltb. pose proof (String.compare_antisym a a) as H.
  by destruct (String.compare a a).
Qed.

Lemma ltb_trans a b c :
  String.ltb a b = true → String.ltb b c = true → String.ltb a c = true.
Proof.
  unfold String.ltb. intros Hab Hbc.
  assert (String.compare a b = Lt) as Hab' by (by destruct (String.compare a b)).
  assert (String.compare b c = Lt) as Hbc' by (by destruct (String.compare b c)).
  apply OrderedTypeEx.String_as_OT.cmp_lt in Hab', Hbc'.
  pose proof (OrderedTypeEx.String_as_OT.lt_trans _ _ _ Hab' Hbc') as Hac.
  apply OrderedTypeEx.String_as_OT.cmp_lt in Hac.
  unfold OrderedTypeEx.String_as_OT.cmp in Hac. by rewrite Hac.
Qed.

Lemma ltb_connected a b :
  String.ltb a b = false → String.ltb b a = false → a = b.
Proof.
  unfold String.ltb. intros Hab Hba.
  pose proof (String.compare_antisym a b) as H.
  apply String.compare_eq_iff.
  destruct (String.compare a b), (String.compare b a); done.
Qed.

Lemma ltb_asym a b : String.ltb a b = true → String.ltb b a = false.
Proof.
  intros Hab. destruct (String.ltb b a) eqn:Hba; [|done].
  pose proof (ltb_trans _ _ _ Hab Hba) as Haa.
  by rewrite ltb_irrefl in Haa.
Qed.

(** "Not smaller than" is transitive. *)
Lemma not_ltb_trans a b c :
  String.ltb b a = false → String.ltb c b = false → String.ltb c a = false.
Proof.
  intros Hba Hcb. destruct (String.ltb c a) eqn:Hca; [|done].
  destruct (String.ltb a b) eqn:Hab.
  - pose proof (ltb_trans _ _ _ Hca Hab) as Hcb'. congruence.
  - pose proof (ltb_connected _ _ Hab Hba) as ->. congruence.
Qed.

Lemma insert_sorted_ascending x l :
  ascending l → ascending (insert_sorted x l).
Proof.
  induction l as [|y l IH]; intros Hl; simpl.
  - split; [by intros z ?%elem_of_nil|done].
  - destruct Hl as [Hy Hl]. destruct (String.ltb x y) eqn:Hxy.
    + split; [|done]. intros z [->|Hz]%elem_of_cons.
      * by apply ltb_asym.
      * eapply not_ltb_trans; [by apply ltb_asym|by apply Hy].
    + split; [|by apply IH].
      intros z Hz. rewrite insert_sorted_perm in Hz.
      apply elem_of_cons in Hz as [->|Hz]; [done|by apply Hy].
Qed.

Lemma sorted_ascending l : ascending (sorted l).
Proof.
  induction l as [|x l IH]; simpl; [done|]. by apply insert_sorted_ascending.
Qed.

(** The first element of an ascending list that passes a test is the
    least one that does. *)
Lemma ascending_filter_head (P : string → Prop) `{∀ x, Decision (P x)} l v tl :
  ascending l → filter P l = v :: tl →
  v ∈ l ∧ P v ∧ ∀ w, w ∈ l → P w → String.ltb w v = false.
Proof.
  induction l as [|x l IH]; intros Hl Hf; [done|].
  destruct Hl as [Hx Hl]. destruct (decide (P x)) as [HP|HP].
  - rewrite filter_cons_True in Hf by done. injection Hf as <- _.
    split; [by left|]. split; [done|].
    intros w [->|Hw]%elem_of_cons _; [apply ltb_irrefl|by apply Hx].
  - rewrite filter_cons_False in Hf by done.
    destruct (IH Hl Hf) as (Hin & Hv & Hleast).
    split; [by right|]. split; [done|].
    intros w [->|Hw]%elem_of_cons Hw'; [done|by apply Hleast].
Qed.

(** The stack after the [for] loop over the neighbours in descending
    order: the new paths lie on top, in ascending order. *)
Lemma dfs_for_stack p (V : gset string) l :
  ∀ rest,
    foldl (dfs_neighbor p V) rest (reverse l)
    = ((λ n, p ++ [n]) <$> filter (λ n, n ∉ V) l) ++ rest.
Proof.
  induction l as [|x l IH]; intros rest; [done|].
  rewrite reverse_cons, foldl_app, IH. simpl. unfold dfs_neighbor.
  destruct (decide (x ∈ V)) as [Hx|Hx].
  - by rewrite filter_cons_False by (intros ?; done).
  - by rewrite filter_cons_True by done.
Qed.

(** Visiting the last vertex of the path on top of the stack. *)
Lemma DOrd_next_snoc G st p rest x :
  DOrd G st → dfs_stack st = p :: rest → last p = Some x →
  ∀ i u v,
    (dfs_visited_order st ++ [x]) !! i = Some u →
    (dfs_visited_order st ++ [x]) !! S i = Some v →
    least_new_neighbor G (take (S i) (dfs_visited_order st ++ [x])) u v.
Proof.
  intros [Hvis Hnext Htop] Hs Hlast i u v Hu Hv.
  apply lookup_app_Some in Hv as [Hv|[Hge Hv]].
  - pose proof (lookup_lt_Some _ _ _ Hv) as Hlt.
    rewrite lookup_app_l in Hu by lia.
    rewrite take_app_le by lia. by apply Hnext.
  - apply list_lookup_singleton_Some in Hv as [Hi ->].
    assert (S i = length (dfs_visited_order st)) as Hlen by lia.
    pose proof (lookup_lt_Some _ _ _ Hu) as Hlt.
    rewrite lookup_app_l in Hu by lia.
    rewrite take_app_le, take_ge by lia.
    assert (last (dfs_visited_order st) = Some u) as Hlu.
    { rewrite last_lookup. rewrite <- Hlen. simpl. done. }
    intros Hex. destruct (Htop u Hlu Hex) as (p' & v' & rest' & Hstack & Hlnn).
    rewrite Hs in Hstack. injection Hstack as -> _.
    rewrite last_snoc in Hlast. injection Hlast as ->. by apply Hlnn.
Qed.

Lemma DOrd_pop_visited G st p rest x :
  DOrd G st → dfs_stack st = p :: rest → last p = Some x →
  x ∈ dfs_visited st →
  DOrd G {| dfs_visited := dfs_visited st; dfs_stack := rest;
            dfs_visited_order := dfs_visited_order st |}.
Proof.
  intros [Hvis Hnext Htop] Hs Hlast Hx. constructor; simpl; try done.
  intros u Hu Hex. exfalso.
  destruct (Htop u Hu Hex) as (p' & v' & rest' & Hstack & Hlnn).
  rewrite Hs in Hstack. injection Hstack as -> _.
  rewrite last_snoc in Hlast. injection Hlast as ->.
  destruct (Hlnn Hex) as (_ & Hnew & _). by apply Hnew, Hvis.
Qed.

Lemma DOrd_pop_new G st p rest x ns :
  DOrd G st → dfs_stack st = p :: rest → last p = Some x →
  x ∉ dfs_visited st → neighbors G x = Ret ns →
  DOrd G {| dfs_visited := dfs_visited st ∪ {[x]};
            dfs_stack := foldl (dfs_neighbor p (dfs_visited st ∪ {[x]})) rest
                           (reverse (sorted ns));
            dfs_visited_order := dfs_visited_order st ++ [x] |}.
Proof.
  intros HD Hs Hlast Hx Hns. pose proof HD as [Hvis Hnext Htop].
  assert (∀ y, y ∈ dfs_visited st ∪ {[x]} ↔ y ∈ dfs_visited_order st ++ [x])
    as Hvis'.
  { intros y. rewrite elem_of_union, elem_of_singleton, elem_of_app,
      list_elem_of_singleton. by rewrite Hvis. }
  constructor; simpl.
  - done.
  - by eapply DOrd_next_snoc.
  - intros u Hu Hex. rewrite last_snoc in Hu. injection Hu as <-.
    rewrite dfs_for_stack.
    destruct Hex as (w & Hw & Hwnew).
    assert (w ∈ filter (λ n, n ∉ dfs_visited st ∪ {[x]}) (sorted ns)) as Hin.
    { apply list_elem_of_filter. split; [by rewrite Hvis'|].
      apply elem_of_sorted. by apply (neighbors_spec _ _ _ _ Hns). }
    destruct (filter (λ n, n ∉ dfs_visited st ∪ {[x]}) (sorted ns))
      as [|v tl] eqn:Hf; [by apply elem_of_nil in Hin|].
    destruct (ascending_filter_head _ _ _ _ (sorted_ascending ns) Hf)
      as (Hv & Hvnew & Hleast).
    exists p, v, (((λ n, p ++ [n]) <$> tl) ++ rest). split; [done|].
    intros _. split; [|split].
    + apply (neighbors_spec _ _ _ _ Hns). by apply elem_of_sorted.
    + by rewrite <- Hvis'.
    + intros w' Hw' Hw'new. apply Hleast.
      * apply elem_of_sorted. by apply (neighbors_spec _ _ _ _ Hns).
      * by rewrite Hvis'.
Qed.

Lemma dfs_loop_next G goal fuel :
  ∀ st popped res order popped',
    DOrd G st →
    dfs_loop fuel G goal st popped = Some (Ret (res, order, popped')) →
    ∀ i u v, order !! i = Some u → order !! S i = Some v →
      least_new_neighbor G (take (S i) order) u v.
Proof.
  induction fuel as [|fuel IH]; intros st popped res order popped' HD; [done|].
  simpl. destruct (dfs_stack st) as [|p rest] eqn:Hs.
  - intros [= <- <- <-]. apply (do_next _ _ HD).
  - destruct (last p) as [x|] eqn:Hlast; [|done].
    destruct (decide (x ∈ dfs_visited st)) as [Hx|Hx].
    { apply IH. by eapply DOrd_pop_visited. }
    destruct (decide (x = goal)) as [->|Hne].
    + intros [= <- <- <-]. by eapply DOrd_next_snoc.
    + destruct (neighbors G x) as [ns|e] eqn:Hns; [|done].
      apply IH. by eapply DOrd_pop_new.
Qed.

(** Whenever [dfs_path] returns, on any graph. *)
Lemma dfs_path_order_least_new_neighbor (G : nxGraph)
    (start goal : string) (fuel : nat) (res : option (list string))
    (order : list string) :
  dfs_path fuel G start goal = Some (Ret (res, order)) →
  ∀ i u v, order !! i = Some u → order !! S i = Some v →
    (∃ w, adjacent G u w ∧ w ∉ take (S i) order) →
    adjacent G u v ∧
    ∀ w, adjacent G u w → w ∉ take (S i) order → String.ltb w v = false.
Proof.
  unfold dfs_path, dfs_path_traced.
  destruct (dfs_loop fuel G goal (dfs_init start) [])
    as [[[[res' order'] popped]|e]|] eqn:Hrun; [|done..].
  intros [= <- <-] i u v Hu Hv Hex.
  assert (DOrd G (dfs_init start)) as HD.
  { constructor; simpl.
    - intros x. split; [by intros ?%elem_of_empty|by intros ?%elem_of_nil].
    - intros ? ? ? Hnil. by rewrite lookup_nil in Hnil.
    - done. }
  destruct (dfs_loop_next G goal fuel _ _ _ _ _ HD Hrun i u v Hu Hv Hex)
    as (Hadj & _ & Hleast).
  done.
Qed.


(** X20: From every node [start] of a NetworkX graph, [dfs_path] returns a
    visit order in which the vertex that follows [u] is the least
    neighbour of [u] (in the order of Python on strings) among those not
    visited when [u] was, whenever [u] has such a neighbour: pushing the
    neighbours in descending order makes the search go to the smallest
    one first. *)
Theorem dfs_path_visits_least_new_neighbor_next (ops : list nx_op)
    (start goal : string) (fuel : nat) :
  start ∈ nx_nodes (nx_build ops) →
  (dfs_fuel (nx_build ops) ≤ fuel)%nat →
  ∃ res order,
    dfs_path fuel (nx_build ops) start goal = Some (Ret (res, order)) ∧
    ∀ i u v, order !! i = Some u → order !! S i = Some v →
      (∃ w, adjacent (nx_build ops) u w ∧ w ∉ take (S i) order) →
      adjacent (nx_build ops) u v ∧
      ∀ w, adjacent (nx_build ops) u w → w ∉ take (S i) order →
           String.ltb w v = false.
Proof.
  intros Hstart%nx_nodes_spec Hfuel.
  destruct (dfs_path_traced_returns ops start goal fuel)
    as (res & order & popped & Hrun); [by left|done|].
  exists res, order.
  pose proof (dfs_path_unfold _ _ _ _ _ _ _ Hrun) as Hret.
  split; [done|]. by eapply dfs_path_order_least_new_neighbor.
Qed.

Lemma dfs_path_visits_least_new_neighbor_next_witness :
  ∃ res order,
    dfs_path 20
      (nx_build [AddEdge "a" "c" 1; AddEdge "a" "b" 1; AddEdge "b" "d" 1])
      "a" "z" = Some (Ret (res, order)) ∧
    ∀ i u v, order !! i = Some u → order !! S i = Some v →
      (∃ w, adjacent
              (nx_build [AddEdge "a" "c" 1; AddEdge "a" "b" 1;
                         AddEdge "b" "d" 1]) u w ∧ w ∉ take (S i) order) →
      adjacent
        (nx_build [AddEdge "a" "c" 1; AddEdge "a" "b" 1; AddEdge "b" "d" 1])
        u v ∧
      ∀ w, adjacent
             (nx_build [AddEdge "a" "c" 1; AddEdge "a" "b" 1;
                        AddEdge "b" "d" 1]) u w →
           w ∉ take (S i) order → String.ltb w v = false.
Proof.
  apply (dfs_path_visits_least_new_neighbor_next
           [AddEdge "a" "c" 1; AddEdge "a" "b" 1; AddEdge "b" "d" 1]
           "a" "z" 20).
  - apply nx_nodes_spec. vm_compute. eauto.
  - vm_compute. lia.
Defined.
(** ** The path found is a subsequence of the visit order *)

Lemma sublist_singleton_elem (x : string) (l : list string) :
  x ∈ l → [x] `sublist_of` l.
Proof.
  intros (l1 & l2 & ->)%list_elem_of_split.
  apply sublist_inserts_l. apply sublist_skip, sublist_nil_l.
Qed.

Lemma bfs_loop_sublist G goal fuel :
  ∀ st deq path order deq',
    (∀ p, p ∈ bfs_queue st → p `sublist_of` bfs_visited_order st) →
    bfs_loop fuel G goal st deq = Some (Ret (Some path, order, deq')) →
    path `sublist_of` order.
Proof.
  induction fuel as [|fuel IH]; intros st deq path order deq' Hsub; [done|].
  simpl. destruct (bfs_queue st) as [|p rest] eqn:Hq; [done|].
  destruct (last p) as [u|]; [|done].
  destruct (decide (u = goal)) as [->|Hne].
  - intros [= <- <- <-]. apply Hsub. by left.
  - destruct (neighbors G u) as [ns|e]; [|done].
    apply IH. intros p'.
    destruct (bfs_for_spec p (sorted ns)
                {| bfs_visited := bfs_visited st; bfs_queue := rest;
                   bfs_visited_order := bfs_visited_order st |})
      as (_ & Hq' & new & -> & _ & Hnew). simpl in *.
    intros [Hp'|(n & Hn & Hnv & ->)]%Hq'.
    + apply sublist_inserts_r, Hsub. by right.
    + apply sublist_app; [apply Hsub; by left|].
      apply sublist_singleton_elem, Hnew. by split.
Qed.

Lemma dfs_loop_sublist G goal fuel :
  ∀ st popped path order popped',
    (∀ p, p ∈ dfs_stack st →
       ∃ q x, p = q ++ [x] ∧ q `sublist_of` dfs_visited_order st) →
    dfs_loop fuel G goal st popped = Some (Ret (Some path, order, popped')) →
    path `sublist_of` order.
Proof.
  induction fuel as [|fuel IH]; intros st popped path order popped' Hsub;
    [done|].
  simpl. destruct (dfs_stack st) as [|p rest] eqn:Hs; [done|].
  destruct (Hsub p) as (q & x & -> & Hq); [by left|].
  rewrite last_snoc.
  destruct (decide (x ∈ dfs_visited st)) as [Hx|Hx].
  { apply IH. simpl. intros p' Hp'. apply Hsub. by right. }
  destruct (decide (x = goal)) as [->|Hne].
  - intros [= <- <- <-]. by apply sublist_app.
  - destruct (neighbors G x) as [ns|e]; [|done].
    apply IH. simpl. intros p' [Hp'|(n & _ & _ & ->)]%dfs_for_elem.
    + destruct (Hsub p') as (q' & x' & -> & Hq'); [by right|].
      exists q', x'. split; [done|]. by apply sublist_inserts_r.
    + exists (q ++ [x]), n. split; [done|]. by apply sublist_app.
Qed.

(** Whenever a search returns a path, on any graph. *)
Lemma found_path_sublist (G : nxGraph)
    (start goal : string) (fuel : nat) :
  (∀ path order,
     bfs_path fuel G start goal = Some (Ret (Some path, order)) →
     path `sublist_of` order ∧ (hops path < length order)%nat) ∧
  (∀ path order,
     dfs_path fuel G start goal = Some (Ret (Some path, order)) →
     path `sublist_of` order ∧ (hops path < length order)%nat).
Proof.
  assert (∀ path order : list string,
            path ≠ [] → path `sublist_of` order →
            path `sublist_of` order ∧ (hops path < length order)%nat) as Hlen.
  { intros path order Hne Hsub. split; [done|].
    apply sublist_length in Hsub. unfold hops.
    destruct path; [done|]. simpl in *. lia. }
  split; intros path order.
  - unfold bfs_path, bfs_path_traced.
    destruct (bfs_loop fuel G goal (bfs_init start) [])
      as [[[[res order'] deq]|e]|] eqn:Hrun; [|done..].
    intros [= -> <-].
    assert (path `sublist_of` order') as Hsub.
    { eapply bfs_loop_sublist; [|done].
      by intros p ->%list_elem_of_singleton. }
    apply Hlen; [|done].
    pose proof (bfs_loop_correct G start goal fuel _ _ 0%nat _ _ _
                  (bfs_init_inv G start) (not_elem_of_nil goal) Hrun)
      as [_ ((Hp & _) & _)].
    by destruct path.
  - unfold dfs_path, dfs_path_traced.
    destruct (dfs_loop fuel G goal (dfs_init start) [])
      as [[[[res order'] popped]|e]|] eqn:Hrun; [|done..].
    intros [= -> <-].
    assert (path `sublist_of` order') as Hsub.
    { eapply dfs_loop_sublist; [|done].
      intros p ->%list_elem_of_singleton. exists [], start.
      split; [done|apply sublist_nil_l]. }
    apply Hlen; [|done].
    destruct (dfs_loop_correct G start goal fuel _ _ _ _ _
                (dfs_init_inv G start goal) Hrun)
      as (_ & _ & _ & (Hp & _) & _).
    by destruct path.
Qed.


(** X21: On every NetworkX graph, when [goal] can be reached from [start],
    [bfs_path] and [dfs_path] each return a path that is a subsequence of
    the visit order returned with it: its vertices were visited in the
    order of the path.  So the number of visited vertices exceeds the
    number of hops of the path. *)
Theorem found_path_is_a_subsequence_of_the_visit_order (ops : list nx_op)
    (start goal : string) (fuel : nat) :
  nx_reachable (nx_build ops) start goal →
  (bfs_fuel (nx_build ops) ≤ fuel)%nat →
  (dfs_fuel (nx_build ops) ≤ fuel)%nat →
  ∃ bfs_result bfs_visited dfs_result dfs_visited,
    bfs_path fuel (nx_build ops) start goal
      = Some (Ret (Some bfs_result, bfs_visited)) ∧
    dfs_path fuel (nx_build ops) start goal
      = Some (Ret (Some dfs_result, dfs_visited)) ∧
    bfs_result `sublist_of` bfs_visited ∧
    (hops bfs_result < length bfs_visited)%nat ∧
    dfs_result `sublist_of` dfs_visited ∧
    (hops dfs_result < length dfs_visited)%nat.
Proof.
  intros Hreach Hbfs Hdfs.
  destruct (bfs_path_traced_shortest ops start goal fuel Hreach Hbfs)
    as (bp & bo & deq & Hrb%bfs_path_unfold & _).
  destruct (dfs_path_traced_returns ops start goal fuel)
    as (rd & od & popped & Hrd); [|done|].
  { destruct Hreach as [q Hq]. by eapply path_from_to_start_node. }
  destruct (dfs_loop_correct _ start goal fuel _ _ _ _ _
              (dfs_init_inv _ start goal) Hrd) as (_ & _ & _ & Hres).
  destruct rd as [dp|]; [|exfalso; destruct Hres as [Hall Hg];
                           by apply Hg, Hall].
  apply dfs_path_unfold in Hrd.
  destruct (found_path_sublist (nx_build ops) start goal fuel)
    as [Hb Hd].
  destruct (Hb _ _ Hrb) as [? ?]. destruct (Hd _ _ Hrd) as [? ?].
  by exists bp, bo, dp, od.
Qed.

Lemma found_path_is_a_subsequence_of_the_visit_order_witness :
  ∃ bfs_result bfs_visited dfs_result dfs_visited,
    bfs_path 10 (nx_build [AddEdge "a" "b" 1; AddEdge "a" "c" 1]) "a" "c"
      = Some (Ret (Some bfs_result, bfs_visited)) ∧
    dfs_path 10 (nx_build [AddEdge "a" "b" 1; AddEdge "a" "c" 1]) "a" "c"
      = Some (Ret (Some dfs_result, dfs_visited)) ∧
    bfs_result `sublist_of` bfs_visited ∧
    (hops bfs_result < length bfs_visited)%nat ∧
    dfs_result `sublist_of` dfs_visited ∧
    (hops dfs_result < length dfs_visited)%nat.
Proof.
  apply (found_path_is_a_subsequence_of_the_visit_order
           [AddEdge "a" "b" 1; AddEdge "a" "c" 1] "a" "c" 10).
  - exists ["a"; "c"]. repeat split.
    apply adjacent_check. vm_compute. reflexivity.
  - vm_compute. lia.
  - vm_compute. lia.
Defined.
